(** * Pool allocator and chunked vectors: a shallow embedding

    This development embeds the classes of
    [Vector_allocation_benhmarks/vector-allocation-benchmarks.cpp]
    ([PoolAllocator], [ChunkedVector], [ChunkedVectorPoolAllocation] and the
    benchmark drivers) and the particle layouts of [AoS-SoA/aos_vs_soa.cpp]
    over an explicit heap of array blocks, and proves properties of them.

    Conventions.
    - [size_t] values are integers in [Z]; every [size_t] addition is
      written with its wrap-around modulo [2^64].
    - [new T[n]] creates a fresh block of [n] uninitialised cells and always
      succeeds (running out of memory is not modelled); a [T*] is a block
      number and an element offset.  Reading or writing outside a live
      block, reading an uninitialised cell, indexing a [std::vector] out of
      range and dividing by zero have no defined result: the computation
      yields [None].
    - Loops whose trip count is not evident run on fuel ([while_loop]); the
      clock readings and the printing of the drivers are left out.  Of a
      local [double] that is to hold a duration, only whether it holds a
      value is kept; reading it while it holds none has no defined result. *)

From Stdlib Require Import ZArith Lia.
From stdpp Require Import base tactics option numbers list.

Local Open Scope Z_scope.

(** ** Machine integers *)

Module Machine.

Definition SIZE_MAX : Z := 2 ^ 64 - 1.
Definition PTRDIFF_MAX : Z := 2 ^ 63 - 1.

(** Reduction of an integer to the range of [size_t]. *)
Definition to_size_t (z : Z) : Z := z mod 2 ^ 64.

(** [a + b] on [size_t] operands. *)
Definition size_add (a b : Z) : Z := to_size_t (a + b).

(** [a / b] and [a % b] on [size_t] operands; no result when [b] is 0. *)
Definition size_div (a b : Z) : option Z :=
  if b =? 0 then None else Some (a / b).
Definition size_rem (a b : Z) : option Z :=
  if b =? 0 then None else Some (a mod b).

(** Conversion of a [size_t] to a 32-bit [int] (as in [v.push_back(k)] on
    a container of [int]). *)
Definition to_int (z : Z) : Z := (z + 2 ^ 31) mod 2 ^ 32 - 2 ^ 31.

Definition is_size_t (z : Z) : Prop := 0 <= z <= SIZE_MAX.

End Machine.

Import Machine.

Arguments to_size_t : simpl never.
Arguments size_add : simpl never.
Arguments to_int : simpl never.

(** ** The heap of array blocks *)

(** A pointer to an element: the block it points into and the element
    offset from the start of that block. *)
Record ptr : Type := Ptr { p_block : nat; p_off : Z }.

Global Instance ptr_eq_dec : EqDecision ptr.
Proof. solve_decision. Defined.

(** [p + k] on an element pointer. *)
Definition ptr_add (p : ptr) (k : Z) : ptr := Ptr (p_block p) (p_off p + k).

Section Heap.
Variable T : Type.

(** A block made by [new T[n]]: [blk_live] is cleared by [delete[]];
    a cell is [None] until it is first written. *)
Record block : Type := Block { blk_live : bool; blk_cells : list (option T) }.

(** The heap: the blocks in the order of their creation. *)
Local Abbreviation heap := (list block).

(** Computations on the heap with undefined behaviour as [None]. *)
Definition M (A : Type) : Type := heap -> option (A * heap).

Definition ret {A} (a : A) : M A := fun h => Some (a, h).

Definition bind {A B} (m : M A) (k : A -> M B) : M B :=
  fun h => match m h with
           | Some (a, h') => k a h'
           | None => None
           end.

(** A partial pure operation inside a computation. *)
Definition defined {A} (o : option A) : M A :=
  fun h => match o with
           | Some a => Some (a, h)
           | None => None
           end.

(** [new T[n]]. *)
Definition new_array (n : Z) : M ptr :=
  fun h => Some (Ptr (length h) 0,
                 h ++ [Block true (replicate (Z.to_nat n) None)]).

(** [delete[] p]: [p] must be the start of a live block. *)
Definition delete_array (p : ptr) : M unit :=
  fun h => match h !! p_block p with
           | Some b =>
               if blk_live b && (p_off p =? 0)
               then Some (tt, <[p_block p := Block false (blk_cells b)]> h)
               else None
           | None => None
           end.

(** The cell a pointer designates, when it lies inside a live block. *)
Definition cell_at (h : heap) (p : ptr) : option (option T) :=
  match h !! p_block p with
  | Some b =>
      if blk_live b && (0 <=? p_off p)
      then blk_cells b !! Z.to_nat (p_off p)
      else None
  | None => None
  end.

(** [*p = v]. *)
Definition store (p : ptr) (v : T) : M unit :=
  fun h => match h !! p_block p, cell_at h p with
           | Some b, Some _ =>
               Some (tt, <[p_block p :=
                            Block true (<[Z.to_nat (p_off p) := Some v]> (blk_cells b))]> h)
           | _, _ => None
           end.

(** Reading [*p]. *)
Definition load (p : ptr) : M T :=
  fun h => match cell_at h p with
           | Some (Some v) => Some (v, h)
           | _ => None
           end.

End Heap.

Abbreviation heap T := (list (block T)).

Arguments Block {T} _ _.
Arguments blk_live {T} _.
Arguments blk_cells {T} _.
Arguments ret {T A} _ _.
Arguments bind {T A B} _ _ _.
Arguments defined {T A} _ _.
Arguments new_array {T} _ _.
Arguments delete_array {T} _ _.
Arguments cell_at {T} _ _.
Arguments store {T} _ _ _.
Arguments load {T} _ _.

Notation "'let*' x ':=' m 'in' k" := (bind m (fun x => k))
  (at level 10, x name, m at level 100, k at level 200).

(** ** [template<typename T> class PoolAllocator] *)

Module PoolAllocator.
Section WithT.
Variable T : Type.

Record t : Type := Make {
  buffers : list ptr;
  capacity : Z;   (* this is how many element we can store *)
  offset : Z      (* this is how many we already use *)
}.

(** [PoolAllocator(size_t cap)]. *)
Definition create (cap : Z) : M T t :=
  let* b := new_array cap in
  ret (Make ([] ++ [b]) cap 0).

(** [T* allocate(size_t n)]: the carve and the allocator afterwards. *)
Definition allocate (n : Z) (a : t) : M T (ptr * t) :=
  let* a1 := (if size_add (offset a) n >? capacity a
              then let* b := new_array (capacity a) in
                   ret (Make (buffers a ++ [b]) (capacity a) 0)
              else ret a) in
  let* back := defined (last (buffers a1)) in
  let p := ptr_add back (offset a1) in
  ret (p, Make (buffers a1) (capacity a1) (size_add (offset a1) n)).

(** [~PoolAllocator()]. *)
Fixpoint delete_all (bs : list ptr) : M T unit :=
  match bs with
  | [] => ret tt
  | b :: bs' => let* _ := delete_array b in delete_all bs'
  end.
Definition destroy (a : t) : M T unit := delete_all (buffers a).

(** A run of [allocate] calls, one per requested size, in order: the
    carves returned and the allocator afterwards. *)
Fixpoint allocate_all (ns : list Z) (a : t) : M T (list ptr * t) :=
  match ns with
  | [] => ret ([], a)
  | n :: ns' =>
      let* r := allocate n a in
      let* rs := allocate_all ns' (snd r) in
      ret (fst r :: fst rs, snd rs)
  end.

End WithT.

Arguments create {T} _ _.
Arguments allocate {T} _ _ _ : simpl never.
Arguments destroy {T} _ _.
Arguments allocate_all {T} _ _ _.
End PoolAllocator.

(** ** [template<typename T, size_t CHUNK_SIZE> class ChunkedVector] *)

(** [chunks[index / CHUNK_SIZE] + index % CHUNK_SIZE]: the address of the
    element [index] of a chunk table.  [std::vector::operator[]] is
    unchecked, so a chunk number past the end of the table has no result. *)
Definition chunk_slot (CHUNK_SIZE : Z) (chunks : list ptr) (index : Z) : option ptr :=
  q ← size_div index CHUNK_SIZE;
  c ← chunks !! Z.to_nat q;
  r ← size_rem index CHUNK_SIZE;
  Some (ptr_add c r).

Module ChunkedVector.
Section WithT.
Variable T : Type.
Variable CHUNK_SIZE : Z.

Record t : Type := Make { chunks : list ptr; size : Z }.

(** The default-constructed vector: no chunk, [size = 0]. *)
Definition create : t := Make [] 0.

(** [void push_back(const T& value)]. *)
Definition push_back (value : T) (v : t) : M T t :=
  let* r := defined (size_rem (size v) CHUNK_SIZE) in
  let* cs := (if r =? 0
              then let* c := new_array CHUNK_SIZE in ret (chunks v ++ [c])
              else ret (chunks v)) in
  let* p := defined (chunk_slot CHUNK_SIZE cs (size v)) in
  let* _ := store p value in
  ret (Make cs (size_add (size v) 1)).

(** [T& operator[](size_t index)]: the element's address. *)
Definition subscript (index : Z) (v : t) : M T ptr :=
  defined (chunk_slot CHUNK_SIZE (chunks v) index).

(** Reading through the reference [v[index]]. *)
Definition read (index : Z) (v : t) : M T T :=
  let* p := subscript index v in load p.

(** [size_t get_size() const]. *)
Definition get_size (v : t) : Z := size v.

(** [~ChunkedVector()]. *)
Fixpoint delete_chunks (cs : list ptr) : M T unit :=
  match cs with
  | [] => ret tt
  | c :: cs' => let* _ := delete_array c in delete_chunks cs'
  end.
Definition destroy (v : t) : M T unit := delete_chunks (chunks v).

(** Successive [push_back] calls, one per value, in order. *)
Fixpoint push_all (values : list T) (v : t) : M T t :=
  match values with
  | [] => ret v
  | x :: rest => let* v' := push_back x v in push_all rest v'
  end.

End WithT.

Arguments push_back {T} _ _ _ _.
Arguments subscript {T} _ _ _ _.
Arguments read {T} _ _ _ _.
Arguments destroy {T} _ _.
Arguments push_all {T} _ _ _ _.
End ChunkedVector.

(** ** [template<typename T, size_t CHUNK_SIZE> class ChunkedVectorPoolAllocation] *)

Module ChunkedVectorPoolAllocation.
Section WithT.
Variable T : Type.
Variable CHUNK_SIZE : Z.

Record t : Type := Make {
  chunks : list ptr;           (* here each pointer points to a chunk *)
  size : Z;
  allocator : PoolAllocator.t  (* we use our custom allocator *)
}.

(** The capacity written in the member initialiser [allocator{ 2048 }]. *)
Definition POOL_CAPACITY : Z := 2048.

(** The default-constructed vector; its allocator member is built by
    [PoolAllocator(2048)]. *)
Definition create : M T t :=
  let* a := PoolAllocator.create POOL_CAPACITY in
  ret (Make [] 0 a).

(** [void push_back(const T& value)]. *)
Definition push_back (value : T) (v : t) : M T t :=
  let* r := defined (size_rem (size v) CHUNK_SIZE) in
  let* ca := (if r =? 0
              then let* pa := PoolAllocator.allocate CHUNK_SIZE (allocator v) in
                   ret (chunks v ++ [fst pa], snd pa)
              else ret (chunks v, allocator v)) in
  let* p := defined (chunk_slot CHUNK_SIZE (fst ca) (size v)) in
  let* _ := store p value in
  ret (Make (fst ca) (size_add (size v) 1) (snd ca)).

(** [T& operator[](size_t index)]: the element's address. *)
Definition subscript (index : Z) (v : t) : M T ptr :=
  defined (chunk_slot CHUNK_SIZE (chunks v) index).

(** Reading through the reference [v[index]]. *)
Definition read (index : Z) (v : t) : M T T :=
  let* p := subscript index v in load p.

(** [size_t get_size() const]. *)
Definition get_size (v : t) : Z := size v.

(** Successive [push_back] calls, one per value, in order. *)
Fixpoint push_all (values : list T) (v : t) : M T t :=
  match values with
  | [] => ret v
  | x :: rest => let* v' := push_back x v in push_all rest v'
  end.

(** Construction followed by the [push_back] calls. *)
Definition build (values : list T) : M T t :=
  let* v := create in push_all values v.

End WithT.

Arguments create {T} _.
Arguments push_back {T} _ _ _ _.
Arguments subscript {T} _ _ _ _.
Arguments read {T} _ _ _ _.
Arguments push_all {T} _ _ _ _.
Arguments build {T} _ _ _.
End ChunkedVectorPoolAllocation.

(** ** The benchmark drivers and [main] of vector-allocation-benchmarks.cpp *)

(** The result of running code that contains loops for a bounded number of
    iterations: a final value, an operation without defined result, or the
    bound reached with the loop still running. *)
Inductive outcome (A : Type) : Type :=
  | Finished (a : A)
  | Undefined
  | OutOfFuel.
Arguments Finished {A} _.
Arguments Undefined {A}.
Arguments OutOfFuel {A}.

Definition andThen {A B} (o : outcome A) (k : A -> outcome B) : outcome B :=
  match o with
  | Finished a => k a
  | Undefined => Undefined
  | OutOfFuel => OutOfFuel
  end.

Definition of_option {A} (o : option A) : outcome A :=
  match o with
  | Some a => Finished a
  | None => Undefined
  end.

(** [for (...; cond; ...) body] and [while (cond) body] on a loop state; the
    increment of a [for] is the last step of [body].  [fuel] bounds the
    number of evaluations of [cond]. *)
Fixpoint while_loop {S : Type} (fuel : nat) (cond : S -> bool)
    (body : S -> outcome S) (s : S) : outcome S :=
  match fuel with
  | O => OutOfFuel
  | Datatypes.S fuel' =>
      if cond s
      then andThen (body s) (while_loop fuel' cond body)
      else Finished s
  end.

Module Benchmarks.

(** The default template argument [CHUNK_SIZE = 64] of [ChunkedVector<int>]
    and [ChunkedVectorPoolAllocation<int>]. *)
Definition CHUNK_SIZE : Z := 64.

Definition LLONG_MIN : Z := - 2 ^ 63.
Definition LLONG_MAX : Z := 2 ^ 63 - 1.

(** [sum += x] on a [long long]; signed overflow has no defined result. *)
Definition add_long_long (sum x : Z) : option Z :=
  let s := sum + x in
  if (LLONG_MIN <=? s) && (s <=? LLONG_MAX) then Some s else None.

(** [for (size_t k = 0; k < n; k++) v.push_back(k);] on a [std::vector<int>],
    as the list of its elements; the loop state is [(k, v)].  The
    [v.reserve(n)] before the loop changes no element and is left out. *)
Definition fill_std (fuel : nat) (n : Z) : outcome (Z * list Z) :=
  while_loop fuel
    (fun s => fst s <? n)
    (fun s => Finished (size_add (fst s) 1, snd s ++ [to_int (fst s)]))
    (0, []).

(** [for (size_t k = 0; k < v.size(); i++) sum += v[i];] of
    [benchmarkStdVector]: the loop state is [(i, k, sum)], with [i] the
    counter of the enclosing loop.  [v[i]] is unchecked. *)
Definition scan_std (fuel : nat) (v : list Z) (i : Z) : outcome (Z * Z * Z) :=
  while_loop fuel
    (fun s => snd (fst s) <? Z.of_nat (length v))
    (fun s =>
       let i := fst (fst s) in
       let k := snd (fst s) in
       let sum := snd s in
       andThen (of_option (v !! Z.to_nat i)) (fun x =>
       andThen (of_option (add_long_long sum x)) (fun sum' =>
       Finished (size_add i 1, k, sum'))))
    (i, 0, 0).

(** [double benchmarkStdVector(size_t n, int repeat)].  The clock readings
    and [bestTime] are left out; the result is the list of the values of
    [sum], one per repetition.  The state of the outer loop is
    [(i, sums)]. *)
Definition benchmarkStdVector (fuel : nat) (n repeat : Z) : outcome (list Z) :=
  andThen
    (while_loop fuel
       (fun s => fst s <? to_size_t repeat)
       (fun s =>
          andThen (fill_std fuel n) (fun kv =>
          andThen (scan_std fuel (snd kv) (fst s)) (fun iks =>
          Finished (size_add (fst (fst iks)) 1, snd s ++ [snd iks]))))
       (0, []))
    (fun s => Finished (snd s)).

(** [for (size_t k = 0; k < n; k++) v.push_back(k);] on a
    [ChunkedVector<int>]; the loop state is [(k, v, heap)]. *)
Definition fill_chunked (fuel : nat) (n : Z) (h : heap Z)
    : outcome (Z * ChunkedVector.t * heap Z) :=
  while_loop fuel
    (fun s => fst (fst s) <? n)
    (fun s =>
       let k := fst (fst s) in
       andThen (of_option (ChunkedVector.push_back CHUNK_SIZE (to_int k) (snd (fst s)) (snd s)))
         (fun vh => Finished (size_add k 1, fst vh, snd vh)))
    (0, ChunkedVector.create, h).

(** [for (size_t k = 0; k < v.get_size(); k++) sum += v[k];] on a
    [ChunkedVector<int>]; the loop state is [(k, sum)]. *)
Definition scan_chunked (fuel : nat) (v : ChunkedVector.t) (h : heap Z)
    : outcome (Z * Z) :=
  while_loop fuel
    (fun s => fst s <? ChunkedVector.get_size v)
    (fun s =>
       andThen (of_option (ChunkedVector.read CHUNK_SIZE (fst s) v h)) (fun xh =>
       andThen (of_option (add_long_long (snd s) (fst xh))) (fun sum' =>
       Finished (size_add (fst s) 1, sum'))))
    (0, 0).

(** The local [bestTime] of the two chunked drivers is declared as
    [double bestTime;], with no initialiser: it holds no value until it is
    assigned.  The clock readings, and with them the values of the
    durations, are left out: the local is [None] while it holds no value
    and [Some tt] once it holds one.

    [bestTime = std::min(bestTime, duration.count());] reads [bestTime]
    before it assigns it, and reading a local that holds no value has no
    defined result. *)
Definition min_into (bestTime : option unit) : outcome (option unit) :=
  andThen (of_option bestTime) (fun _ => Finished (Some tt)).

(** [return bestTime;] reads the local. *)
Definition return_local (bestTime : option unit) : outcome unit :=
  of_option bestTime.

(** [double benchmarkChunkedVector(size_t n, int repeat)].  The state of
    the outer loop is [(i, sums, heap, bestTime)]; [bestTime] holds no
    value when the loop is entered.  In each repetition the vector is
    filled and scanned, [bestTime] is updated, and the vector is destroyed
    at the end of the block.  The result is the list of the values of
    [sum], one per repetition, with the heap. *)
Definition benchmarkChunkedVector (fuel : nat) (n repeat : Z) (h : heap Z)
    : outcome (list Z * heap Z) :=
  andThen
    (while_loop fuel
       (fun s => fst (fst (fst s)) <? to_size_t repeat)
       (fun s =>
          let i := fst (fst (fst s)) in
          let sums := snd (fst (fst s)) in
          let bestTime := snd s in
          andThen (fill_chunked fuel n (snd (fst s))) (fun kvh =>
          let v := snd (fst kvh) in
          andThen (scan_chunked fuel v (snd kvh)) (fun ks =>
          andThen (min_into bestTime) (fun bestTime' =>
          andThen (of_option (ChunkedVector.destroy v (snd kvh))) (fun uh =>
          Finished (size_add i 1, sums ++ [snd ks], snd uh, bestTime'))))))
       (0, [], h, None))
    (fun s =>
       andThen (return_local (snd s)) (fun _ =>
       Finished (snd (fst (fst s)), snd (fst s)))).

(** The same two loops on a [ChunkedVectorPoolAllocation<int>]. *)
Definition fill_pooled (fuel : nat) (n : Z) (v0 : ChunkedVectorPoolAllocation.t)
    (h : heap Z) : outcome (Z * ChunkedVectorPoolAllocation.t * heap Z) :=
  while_loop fuel
    (fun s => fst (fst s) <? n)
    (fun s =>
       let k := fst (fst s) in
       andThen (of_option (ChunkedVectorPoolAllocation.push_back CHUNK_SIZE (to_int k)
                             (snd (fst s)) (snd s)))
         (fun vh => Finished (size_add k 1, fst vh, snd vh)))
    (0, v0, h).

Definition scan_pooled (fuel : nat) (v : ChunkedVectorPoolAllocation.t) (h : heap Z)
    : outcome (Z * Z) :=
  while_loop fuel
    (fun s => fst s <? ChunkedVectorPoolAllocation.get_size v)
    (fun s =>
       andThen (of_option (ChunkedVectorPoolAllocation.read CHUNK_SIZE (fst s) v h)) (fun xh =>
       andThen (of_option (add_long_long (snd s) (fst xh))) (fun sum' =>
       Finished (size_add (fst s) 1, sum'))))
    (0, 0).

(** [double benchmarkChunkedVectorPooled(size_t n)].  Its loop tests
    [i < repeat], a name that neither the function nor the file declares,
    so that the source gives the bound no value: it is a parameter here,
    and what is stated of this driver is stated for every value of it.
    [bestTime] holds no value when the loop is entered, as in
    [benchmarkChunkedVector].  The vector's allocator member is destroyed
    with the vector at the end of the block of each repetition. *)
Definition benchmarkChunkedVectorPooled (fuel : nat) (n repeat : Z) (h : heap Z)
    : outcome (list Z * heap Z) :=
  andThen
    (while_loop fuel
       (fun s => fst (fst (fst s)) <? to_size_t repeat)
       (fun s =>
          let i := fst (fst (fst s)) in
          let sums := snd (fst (fst s)) in
          let bestTime := snd s in
          andThen (of_option (ChunkedVectorPoolAllocation.create (snd (fst s)))) (fun v0h =>
          andThen (fill_pooled fuel n (fst v0h) (snd v0h)) (fun kvh =>
          let v := snd (fst kvh) in
          andThen (scan_pooled fuel v (snd kvh)) (fun ks =>
          andThen (min_into bestTime) (fun bestTime' =>
          andThen (of_option (PoolAllocator.destroy
                                (ChunkedVectorPoolAllocation.allocator v) (snd kvh)))
            (fun uh =>
          Finished (size_add i 1, sums ++ [snd ks], snd uh, bestTime')))))))
       (0, [], h, None))
    (fun s =>
       andThen (return_local (snd s)) (fun _ =>
       Finished (snd (fst (fst s)), snd (fst s)))).

(** [std::vector<size_t> testSizes]. *)
Definition testSizes : list Z := [5000000; 10000000; 25000000].

(** The default argument [repeat = 5] of the first two drivers. *)
Definition DEFAULT_REPEAT : Z := 5.

(** The range-[for] of [main] over the workload sizes; printing is left
    out. *)
Fixpoint run_sizes (fuel : nat) (repeat_pooled : Z) (sizes : list Z) (h : heap Z)
    : outcome (heap Z) :=
  match sizes with
  | [] => Finished h
  | N :: rest =>
      andThen (benchmarkStdVector fuel N DEFAULT_REPEAT) (fun _ =>
      andThen (benchmarkChunkedVector fuel N DEFAULT_REPEAT h) (fun t2 =>
      andThen (benchmarkChunkedVectorPooled fuel N repeat_pooled (snd t2)) (fun t3 =>
      run_sizes fuel repeat_pooled rest (snd t3))))
  end.

(** [int main()]: the exit status. *)
Definition main (fuel : nat) (repeat_pooled : Z) : outcome Z :=
  andThen (run_sizes fuel repeat_pooled testSizes []) (fun _ => Finished 0).

End Benchmarks.

(** ** The particle layouts of aos_vs_soa.cpp *)

(** The two floating-point types of the declarations, [float] and [double],
    and the four member names. *)
Inductive precision : Type := single_precision | double_precision.
Inductive field : Type := field_x | field_y | field_z | field_mass.

(** The values of a floating-point type, given those of [float] and of
    [double]. *)
Definition value (float double : Type) (p : precision) : Type :=
  match p with
  | single_precision => float
  | double_precision => double
  end.

(** [struct ParticleAos { float x, y, z; double mass; }]. *)
Module AoS.
Section WithFloats.
Variables float double : Type.

Record ParticleAos : Type := Make { x : float; y : float; z : float; mass : double }.

(** The declared type of each member. *)
Definition field_type (f : field) : precision :=
  match f with
  | field_x | field_y | field_z => single_precision
  | field_mass => double_precision
  end.

Definition get (f : field) (p : ParticleAos) : value float double (field_type f) :=
  match f return value float double (field_type f) with
  | field_x => x p
  | field_y => y p
  | field_z => z p
  | field_mass => mass p
  end.
End WithFloats.

Arguments Make {float double} _ _ _ _.
Arguments x {float double} _.
Arguments y {float double} _.
Arguments z {float double} _.
Arguments mass {float double} _.
Arguments get {float double} _ _.
End AoS.

(** [struct ParticlesSoA { std::vector<float> x, y, z, mass; ... }]. *)
Module SoA.
Section WithFloats.
Variables float double : Type.

Record ParticlesSoA : Type :=
  Make { x : list float; y : list float; z : list float; mass : list float }.

(** The declared element type of each member. *)
Definition field_type (f : field) : precision := single_precision.

Definition get (f : field) (p : ParticlesSoA) : list (value float double (field_type f)) :=
  match f with
  | field_x => x p
  | field_y => y p
  | field_z => z p
  | field_mass => mass p
  end.

(** [ParticlesSoA(size_t n)]: each [resize(n)] of an empty vector gives
    [n] value-initialised elements. *)
Definition create (float_zero : float) (n : Z) : ParticlesSoA :=
  let zeros := replicate (Z.to_nat n) float_zero in
  Make zeros zeros zeros zeros.
End WithFloats.

Arguments Make {float} _ _ _ _.
Arguments x {float} _.
Arguments y {float} _.
Arguments z {float} _.
Arguments mass {float} _.
Arguments get {float} double _ _.
Arguments create {float} _ _.
End SoA.

(** [vec[i] = a] on a [std::vector]: unchecked, no result out of range. *)
Definition vector_assign {A} (vec : list A) (i : Z) (a : A) : option (list A) :=
  if (0 <=? i) && (i <? Z.of_nat (length vec))
  then Some (<[Z.to_nat i := a]> vec)
  else None.

Section Particles.
(** The values of [float] and [double], the conversion from [float] to
    [double], and [0.0f]. *)
Variables float double : Type.
Variable float_to_double : float -> double.
Variable float_zero : float.

(** The standard library's generator and distribution: the states of a
    [std::mt19937_64], its constructor from a seed, and a draw [dist(rng)]
    from [std::uniform_real_distribution<float> dist(-1000.f, 1000.f)],
    which returns a [float] and advances the generator. *)
Variable mt19937_64 : Type.
Variable seeded : Z -> mt19937_64.
Variable dist : mt19937_64 -> float * mt19937_64.

(** The seed both drivers hardcode. *)
Definition SEED : Z := 123.

(** [for (size_t i = 0; i < n; i++)
       particles.push_back({ dist(rng), dist(rng), dist(rng), dist(rng) });]
    of [benchmarkAoS], for [count] remaining iterations; the initialisers
    of a braced list are evaluated in order. *)
Fixpoint fill_aos (count : nat) (rng : mt19937_64)
    (particles : list (AoS.ParticleAos float double))
    : list (AoS.ParticleAos float double) * mt19937_64 :=
  match count with
  | O => (particles, rng)
  | S count' =>
      let '(a, rng1) := dist rng in
      let '(b, rng2) := dist rng1 in
      let '(c, rng3) := dist rng2 in
      let '(d, rng4) := dist rng3 in
      fill_aos count' rng4 (particles ++ [AoS.Make a b c (float_to_double d)])
  end.

(** The initialisation of [benchmarkAoS(n)]. *)
Definition init_aos (n : Z) : list (AoS.ParticleAos float double) * mt19937_64 :=
  fill_aos (Z.to_nat n) (seeded SEED) [].

(** The body of the initialisation loop of [benchmarkSoA], for [count]
    remaining iterations starting at index [i]. *)
Fixpoint fill_soa (count : nat) (i : Z) (rng : mt19937_64)
    (particles : SoA.ParticlesSoA float)
    : option (SoA.ParticlesSoA float * mt19937_64) :=
  match count with
  | O => Some (particles, rng)
  | S count' =>
      let '(a, rng1) := dist rng in
      xs ← vector_assign (SoA.x particles) i a;
      let '(b, rng2) := dist rng1 in
      ys ← vector_assign (SoA.y particles) i b;
      let '(c, rng3) := dist rng2 in
      zs ← vector_assign (SoA.z particles) i c;
      let '(d, rng4) := dist rng3 in
      ms ← vector_assign (SoA.mass particles) i d;
      fill_soa count' (size_add i 1) rng4 (SoA.Make xs ys zs ms)
  end.

(** The initialisation of [benchmarkSoA(n)]. *)
Definition init_soa (n : Z) : option (SoA.ParticlesSoA float * mt19937_64) :=
  fill_soa (Z.to_nat n) 0 (seeded SEED) (SoA.create float_zero n).

End Particles.

(** ** The scan loops of aos_vs_soa.cpp *)

(** [vec[i]] on a [std::vector]: unchecked, no result out of range. *)
Definition vector_at {A} (vec : list A) (i : Z) : option A :=
  if 0 <=? i then vec !! Z.to_nat i else None.

Section ParticleScans.
(** The values of [float] and [double], the conversion from [float] to
    [double], the [double] zero, the addition of [double]s and the test
    [x > 0.0f]. *)
Variables float double : Type.
Variable float_to_double : float -> double.
Variable double_zero : double.
Variable double_add : double -> double -> double.
Variable float_positive : float -> bool.

(** [for (size_t k = 0; k < n; k++)
       if (particles[k].x > 0.0f) sum += particles[k].mass;]
    of [benchmarkAoS], for [count] remaining iterations from index [k]. *)
Fixpoint scan_aos_from (count : nat) (k : Z) (sum : double)
    (particles : list (AoS.ParticleAos float double)) : option double :=
  match count with
  | O => Some sum
  | S count' =>
      p ← vector_at particles k;
      let sum' := if float_positive (AoS.x p) then double_add sum (AoS.mass p) else sum in
      scan_aos_from count' (size_add k 1) sum' particles
  end.

(** One timed scan of [benchmarkAoS(n)]: [sum] starts at 0. *)
Definition scan_aos (n : Z) (particles : list (AoS.ParticleAos float double))
    : option double :=
  scan_aos_from (Z.to_nat n) 0 double_zero particles.

(** [for (size_t k = 0; k < particles.x.size(); k++)
       if (particles.x[k] > 0.0f) sum += particles.mass[k];]
    of [benchmarkSoA]; the [float] read from [mass] is converted to
    [double] by the addition. *)
Fixpoint scan_soa_from (count : nat) (k : Z) (sum : double)
    (particles : SoA.ParticlesSoA float) : option double :=
  match count with
  | O => Some sum
  | S count' =>
      xk ← vector_at (SoA.x particles) k;
      sum' ← (if float_positive xk
              then m ← vector_at (SoA.mass particles) k;
                   Some (double_add sum (float_to_double m))
              else Some sum);
      scan_soa_from count' (size_add k 1) sum' particles
  end.

(** One timed scan of [benchmarkSoA]. *)
Definition scan_soa (particles : SoA.ParticlesSoA float) : option double :=
  scan_soa_from (length (SoA.x particles)) 0 double_zero particles.

End ParticleScans.

(** * The vocabulary of the statements *)

(** Rounding up of a quotient, as in "ceil(a / b)". *)
Definition ceil_div (a b : Z) : Z := (a + b - 1) / b.

Section HeapVocabulary.
Context {T : Type}.
Implicit Types (h : heap T) (p q : ptr).

(** An address that may be written. *)
Definition valid h p : Prop := is_Some (cell_at h p).

(** The block [new T[cap]] adds to the heap. *)
Definition fresh_buffer (cap : Z) : block T := Block true (replicate (Z.to_nat cap) None).

End HeapVocabulary.

(** ** Allocator states and carves *)

Section PoolAllocatorVocabulary.
Context {T : Type}.
Import PoolAllocator.
Implicit Types (a : PoolAllocator.t) (h : heap T) (n cap : Z).

(** The states an allocator object can be in while the program runs,
    with the heap around it: the state its constructor leaves, those
    [allocate] leaves, whatever the sizes requested, and those the rest
    of the program leaves when it writes an element (of a carve or of
    anything else), makes a block of its own or releases one that is not
    a buffer of the allocator. *)
Inductive reachable : PoolAllocator.t -> heap T -> Prop :=
  | reachable_create cap h0 a h :
      is_size_t cap ->
      create cap h0 = Some (a, h) ->
      reachable a h
  | reachable_allocate n a h p a' h' :
      is_size_t n ->
      reachable a h ->
      allocate n a h = Some (p, a', h') ->
      reachable a' h'
  | reachable_store p x a h h' :
      reachable a h ->
      store p x h = Some (tt, h') ->
      reachable a h'
  | reachable_new n p a h h' :
      reachable a h ->
      new_array n h = Some (p, h') ->
      reachable a h'
  | reachable_delete p a h h' :
      reachable a h ->
      p ∉ buffers a ->
      delete_array p h = Some (tt, h') ->
      reachable a h'.

(** The invariant on [offset], with what it needs to be preserved. *)
Definition offset_ok a : Prop :=
  buffers a <> [] /\ is_size_t (capacity a) /\ 0 <= offset a <= capacity a.

(** *** Well-formed allocator states

    The newest buffer starts a live block of [capacity] cells, and
    [offset] cells of it are handed out.  No [size_t] sum of an offset and
    a request up to [capacity] wraps when an array of [capacity] elements
    can exist at all, that is when [capacity <= PTRDIFF_MAX]. *)
Definition pool_wf a h : Prop :=
  is_size_t (capacity a) /\ capacity a <= PTRDIFF_MAX /\
  0 <= offset a <= capacity a /\
  exists back, last (buffers a) = Some back /\ p_off back = 0 /\
               (p_block back < length h)%nat /\
               forall k, 0 <= k < capacity a -> valid h (ptr_add back k).

(** One [allocate] call from a well-formed state, with a request that
    fits a buffer: either the carve is taken at [offset] in the newest
    buffer, or a new buffer is added and the carve is its start. *)
Definition allocate_step n a h (p : ptr) a' h' : Prop :=
  capacity a' = capacity a /\
  ((exists back, last (buffers a) = Some back /\
      offset a + n <= capacity a /\
      p = ptr_add back (offset a) /\
      buffers a' = buffers a /\ offset a' = offset a + n /\ h' = h)
   \/
   (capacity a < offset a + n /\
      p = Ptr (length h) 0 /\
      buffers a' = buffers a ++ [p] /\ offset a' = n /\
      h' = h ++ [fresh_buffer (capacity a)])).

(** The sum of the requested sizes. *)
Definition total (ns : list Z) : Z := foldr Z.add 0 ns.

(** Two carves, given by address and length, that do not overlap. *)
Definition disjoint_carves (p : ptr) n (q : ptr) m : Prop :=
  p_block p = p_block q -> p_off p + n <= p_off q \/ p_off q + m <= p_off p.

(** Any two distinct carves of a run are disjoint. *)
Definition carves_disjoint (ps : list ptr) (ns : list Z) : Prop :=
  forall i j p q n m,
    i <> j ->
    ps !! i = Some p -> ns !! i = Some n ->
    ps !! j = Some q -> ns !! j = Some m ->
    disjoint_carves p n q m.

(** A carve of [n] elements at [p] that is a sub-range of one of the
    buffers [bs], each of [cap] elements. *)
Definition carve_in_buffer (bs : list ptr) cap (p : ptr) n : Prop :=
  Ptr (p_block p) 0 ∈ bs /\ 0 <= p_off p /\ p_off p + n <= cap.

(** Every carve a run returns from the state [(a, h)] lies at or after
    [offset a] in the newest buffer of [a], or in a block made later. *)
Definition beyond_frontier a h (p : ptr) : Prop :=
  (exists back, last (buffers a) = Some back /\
                p_block p = p_block back /\ offset a <= p_off p)
  \/ (length h <= p_block p)%nat.

(** The elements covered by the buffers of [a] up to its offset: every
    buffer but the newest counts in full. *)
Definition consumed a : Z :=
  (Z.of_nat (length (buffers a)) - 1) * capacity a + offset a.

End PoolAllocatorVocabulary.

(** ** Chunk tables

    What [ChunkedVector] and [ChunkedVectorPoolAllocation] share: a table
    of chunk addresses, [CHUNK_SIZE] elements to a chunk, holding the values
    appended so far. *)

Section ChunkVocabulary.
Context {T : Type}.
Variable CHUNK_SIZE : Z.
Implicit Types (h : heap T) (cs : list ptr) (vs : list T) (c p : ptr).

(** The chunks of a table are writable and pairwise apart on the heap,
    and the cell for each appended value holds that value. *)
Definition chunks_valid h cs : Prop :=
  forall j c k, cs !! j = Some c -> 0 <= k < CHUNK_SIZE -> valid h (ptr_add c k).

Definition chunks_apart cs : Prop :=
  forall j j' c c' k k',
    cs !! j = Some c -> cs !! j' = Some c' ->
    0 <= k < CHUNK_SIZE -> 0 <= k' < CHUNK_SIZE ->
    ptr_add c k = ptr_add c' k' -> j = j'.

Definition holds h cs vs : Prop :=
  forall i x, vs !! i = Some x ->
    exists p, chunk_slot CHUNK_SIZE cs (Z.of_nat i) = Some p /\
              cell_at h p = Some (Some x).

Definition table_ok h cs vs : Prop :=
  chunks_valid h cs /\ chunks_apart cs /\ holds h cs vs.

(** The vector [v] on the heap [h] holds the values [vs], appended in this
    order to a vector created on the heap [h0]. *)
Definition represents (h0 : heap T) (v : ChunkedVector.t) h vs : Prop :=
  ChunkedVector.size v = Z.of_nat (length vs) /\
  Z.of_nat (length (ChunkedVector.chunks v)) =
    ceil_div (Z.of_nat (length vs)) CHUNK_SIZE /\
  length h = (length h0 + length (ChunkedVector.chunks v))%nat /\
  table_ok h (ChunkedVector.chunks v) vs.

(** A chunk carved from the newest buffer ends at or before the offset
    of the allocator. *)
Definition behind_frontier (a : PoolAllocator.t) (c : ptr) : Prop :=
  forall back, last (PoolAllocator.buffers a) = Some back ->
               p_block c = p_block back ->
               p_off c + CHUNK_SIZE <= PoolAllocator.offset a.

(** The vector [v] on the heap [h] holds the values [vs]. *)
Definition pooled_represents (v : ChunkedVectorPoolAllocation.t) h vs : Prop :=
  ChunkedVectorPoolAllocation.size v = Z.of_nat (length vs) /\
  Z.of_nat (length (ChunkedVectorPoolAllocation.chunks v)) =
    ceil_div (Z.of_nat (length vs)) CHUNK_SIZE /\
  table_ok h (ChunkedVectorPoolAllocation.chunks v) vs /\
  pool_wf (ChunkedVectorPoolAllocation.allocator v) h /\
  PoolAllocator.capacity (ChunkedVectorPoolAllocation.allocator v) =
    ChunkedVectorPoolAllocation.POOL_CAPACITY /\
  Forall (behind_frontier (ChunkedVectorPoolAllocation.allocator v))
         (ChunkedVectorPoolAllocation.chunks v).

End ChunkVocabulary.

(** The values of the reference scenario: ten appends, 0 to 9. *)
Definition zero_to_nine : list Z := [0; 1; 2; 3; 4; 5; 6; 7; 8; 9].

(** The divisors of 2048. *)
Definition powers_of_two : list Z :=
  [1; 2; 4; 8; 16; 32; 64; 128; 256; 512; 1024; 2048].

(** ** Particle layouts *)

(** The members of a record that are declared with a given type. *)
Definition all_fields : list field := [field_x; field_y; field_z; field_mass].

Definition precision_eqb (p q : precision) : bool :=
  match p, q with
  | single_precision, single_precision => true
  | double_precision, double_precision => true
  | _, _ => false
  end.

Definition fields_of (p : precision) (field_type : field -> precision) : list field :=
  filter (fun f => precision_eqb (field_type f) p = true) all_fields.

(** "Three single-precision fields and one double-precision field". *)
Definition three_single_one_double (field_type : field -> precision) : Prop :=
  length (fields_of single_precision field_type) = 3%nat /\
  length (fields_of double_precision field_type) = 1%nat.

Section ParticleVocabulary.
Variables float double : Type.
Variable float_to_double : float -> double.

(** The particle [p] of the interleaved layout and the entries at index
    [i] of the separated layout hold the same values: [x], [y] and [z] as
    they are, and [mass] up to the conversion from [float] to [double]. *)
Definition same_particle (p : AoS.ParticleAos float double)
    (soa : SoA.ParticlesSoA float) (i : nat) : Prop :=
  SoA.x soa !! i = Some (AoS.x p) /\
  SoA.y soa !! i = Some (AoS.y p) /\
  SoA.z soa !! i = Some (AoS.z p) /\
  exists m, SoA.mass soa !! i = Some m /\ AoS.mass p = float_to_double m.

Definition same_particles (aos : list (AoS.ParticleAos float double))
    (soa : SoA.ParticlesSoA float) : Prop :=
  forall i p, aos !! i = Some p -> same_particle p soa i.

(** The four arrays of the separated layout have [n] entries each. *)
Definition soa_length (soa : SoA.ParticlesSoA float) (n : nat) : Prop :=
  length (SoA.x soa) = n /\ length (SoA.y soa) = n /\
  length (SoA.z soa) = n /\ length (SoA.mass soa) = n.

End ParticleVocabulary.

Arguments same_particle {float double} _ _ _ _.
Arguments same_particles {float double} _ _ _.
Arguments soa_length {float} _ _.

(** An instance to run the two initialisations on: integers for both
    floating-point types and a linear congruential generator. *)
Definition sample_dist (g : Z) : Z * Z :=
  (g mod 2001 - 1000, (g * 6364136223846793005 + 1442695040888963407) mod 2 ^ 64).

(** ** Ownership of blocks *)

Section OwnershipVocabulary.
Context {T : Type}.
Implicit Types (h : heap T) (bs : list ptr).

(** Block [i] of the heap has been released by [delete[]]. *)
Definition dead_block h (i : nat) : Prop :=
  exists blk, h !! i = Some blk /\ blk_live blk = false.

(** The pointers [bs] are the starts of the blocks [n0], [n0 + 1], ... in
    this order, these are all the blocks of the heap from [n0] on, and they
    are live: an object that owns [bs] has made every block since the heap
    had [n0] blocks and has released none. *)
Definition owns_blocks_from (n0 : nat) bs h : Prop :=
  (forall j b, bs !! j = Some b -> b = Ptr (n0 + j) 0) /\
  length h = (n0 + length bs)%nat /\
  (forall i blk, (n0 <= i)%nat -> h !! i = Some blk -> blk_live blk = true).

End OwnershipVocabulary.

(** ** What a chunked vector leaves unwritten, and what it owns *)

Section ChunkOwnershipVocabulary.
Context {T : Type}.
Variable CHUNK_SIZE : Z.
Implicit Types (h : heap T) (cs : list ptr) (vs : list T).

(** The cells of the table for the indices from [n] on have never been
    written. *)
Definition unwritten_from h cs (n : nat) : Prop :=
  forall (i : nat) p, (n <= i)%nat ->
    chunk_slot CHUNK_SIZE cs (Z.of_nat i) = Some p ->
    cell_at h p = Some None.

(** A plain vector made on the heap [h0]: it holds [vs], its chunks are
    the blocks made since, in order, the blocks of [h0] are as they were,
    and the cells past its size are unwritten. *)
Definition plain_inv (h0 : heap T) (v : ChunkedVector.t) h vs : Prop :=
  represents CHUNK_SIZE h0 v h vs /\
  owns_blocks_from (length h0) (ChunkedVector.chunks v) h /\
  (forall i, (i < length h0)%nat -> h !! i = h0 !! i) /\
  unwritten_from h (ChunkedVector.chunks v) (length vs).

End ChunkOwnershipVocabulary.

(** ** Where a pool-backed vector puts its chunks *)

Section PooledLayoutVocabulary.
Context {T : Type}.
Variable CHUNK_SIZE : Z.
Implicit Types (h : heap T) (vs : list T).

(** The number of chunks that fit one buffer of the pool. *)
Definition chunks_per_buffer : Z :=
  ChunkedVectorPoolAllocation.POOL_CAPACITY / CHUNK_SIZE.

(** The place of chunk [j] when the first buffer of the pool is block
    [n0]: buffer [j / chunks_per_buffer], at the offset of its
    [j mod chunks_per_buffer]-th chunk. *)
Definition pooled_place (n0 : nat) (j : nat) : ptr :=
  Ptr (n0 + Z.to_nat (Z.of_nat j / chunks_per_buffer))
      (Z.of_nat j mod chunks_per_buffer * CHUNK_SIZE).

(** The part of the newest buffer that is not handed out is unwritten. *)
Definition frontier_unwritten (a : PoolAllocator.t) h : Prop :=
  forall back k,
    last (PoolAllocator.buffers a) = Some back ->
    PoolAllocator.offset a <= k < PoolAllocator.capacity a ->
    cell_at h (ptr_add back k) = Some None.

(** The chunks handed out fill the buffers of the pool in order: all
    buffers but the newest hold [chunks_per_buffer] chunks, the newest
    holds [offset / CHUNK_SIZE] of them, at least one once there is a
    chunk. *)
Definition pool_filled (a : PoolAllocator.t) (chunks : list ptr) : Prop :=
  exists r,
    PoolAllocator.offset a = r * CHUNK_SIZE /\
    (Z.of_nat (length (PoolAllocator.buffers a)) - 1) * chunks_per_buffer + r =
      Z.of_nat (length chunks) /\
    0 <= r <= chunks_per_buffer /\
    (chunks <> [] -> 0 < r).

(** A pool-backed vector made on the heap [h0]. *)
Definition pooled_inv (h0 : heap T) (v : ChunkedVectorPoolAllocation.t) h vs : Prop :=
  pooled_represents CHUNK_SIZE v h vs /\
  owns_blocks_from (length h0)
    (PoolAllocator.buffers (ChunkedVectorPoolAllocation.allocator v)) h /\
  (forall i, (i < length h0)%nat -> h !! i = h0 !! i) /\
  pool_filled (ChunkedVectorPoolAllocation.allocator v)
              (ChunkedVectorPoolAllocation.chunks v) /\
  (forall j c, ChunkedVectorPoolAllocation.chunks v !! j = Some c ->
               c = pooled_place (length h0) j) /\
  unwritten_from CHUNK_SIZE h (ChunkedVectorPoolAllocation.chunks v) (length vs) /\
  frontier_unwritten (ChunkedVectorPoolAllocation.allocator v) h.

End PooledLayoutVocabulary.

(** ** The workload of the drivers *)

(** The sum of the integers below [n]: what a scan of the values
    [0, ..., n - 1] accumulates. *)
Definition sum_below (n : Z) : Z := n * (n - 1) / 2.

(** The largest workload for which [(int) k] is [k] for every [k] pushed. *)
Definition INT_RANGE : Z := 2 ^ 31.

(** ** What a scan of the particles accumulates *)

(** The masses of the particles whose [x] passes the test, added up in
    index order from [sum]. *)
Definition accumulate {float double : Type} (double_add : double -> double -> double)
    (float_positive : float -> bool) (sum : double)
    (particles : list (AoS.ParticleAos float double)) : double :=
  foldl (fun acc p => if float_positive (AoS.x p) then double_add acc (AoS.mass p) else acc)
        sum particles.

(** * Properties *)

(** ** Machine integers *)

Lemma to_size_t_id z : is_size_t z -> to_size_t z = z.
Proof.
  unfold is_size_t, SIZE_MAX, to_size_t. intros Hz.
  apply Z.mod_small. lia.
Qed.

Lemma to_size_t_range z : is_size_t (to_size_t z).
Proof.
  unfold is_size_t, SIZE_MAX, to_size_t.
  pose proof (Z.mod_pos_bound z (2 ^ 64) ltac:(lia)). lia.
Qed.

Lemma size_add_exact a b : is_size_t (a + b) -> size_add a b = a + b.
Proof. apply to_size_t_id. Qed.

Lemma size_add_zero a : is_size_t a -> size_add a 0 = a.
Proof. intros Ha. unfold size_add. rewrite Z.add_0_r. by apply to_size_t_id. Qed.

Lemma size_add_zero_l b : is_size_t b -> size_add 0 b = b.
Proof. intros Hb. unfold size_add. rewrite Z.add_0_l. by apply to_size_t_id. Qed.

Lemma ceil_div_exact q b : 0 < b -> ceil_div (q * b) b = q.
Proof.
  intros Hb. unfold ceil_div.
  replace (q * b + b - 1) with ((b - 1) + q * b) by lia.
  rewrite Z.div_add by lia. rewrite Z.div_small; lia.
Qed.

Lemma ceil_div_step q r b : 0 < r <= b -> ceil_div (q * b + r) b = q + 1.
Proof.
  intros Hr. unfold ceil_div.
  replace (q * b + r + b - 1) with ((r - 1) + (q + 1) * b) by lia.
  rewrite Z.div_add by lia. rewrite Z.div_small; lia.
Qed.

Lemma ceil_div_le_iff a b k : 0 < b -> ceil_div a b <= k <-> a <= k * b.
Proof.
  intros Hb. unfold ceil_div. split; intros H.
  - pose proof (Z.mul_div_le (a + b - 1) b Hb).
    pose proof (Z.mod_pos_bound (a + b - 1) b Hb).
    pose proof (Z.div_mod (a + b - 1) b ltac:(lia)). nia.
  - assert ((a + b - 1) / b < k + 1); [| lia].
    apply Z.div_lt_upper_bound; lia.
Qed.

(** ** The heap *)

Section HeapFacts.
Context {T : Type}.
Implicit Types (h : heap T) (p q : ptr) (v : T).

Lemma ptr_eq p q : p_block p = p_block q -> p_off p = p_off q -> p = q.
Proof. destruct p, q; simpl; congruence. Qed.

Lemma cell_at_Some h p c :
  cell_at h p = Some c <->
  exists b, h !! p_block p = Some b /\ blk_live b = true /\ 0 <= p_off p /\
            blk_cells b !! Z.to_nat (p_off p) = Some c.
Proof.
  unfold cell_at. split.
  - destruct (h !! p_block p) as [b|] eqn:Hb; [| done].
    destruct (blk_live b) eqn:Hl; simpl; [| done].
    destruct (0 <=? p_off p) eqn:Ho; [| done].
    intros Hc. exists b. repeat split; auto. lia.
  - intros (b & -> & -> & Ho & Hc). simpl.
    destruct (0 <=? p_off p) eqn:Ho'; [done | lia].
Qed.

Lemma valid_block_lt h p : valid h p -> (p_block p < length h)%nat.
Proof.
  intros [c Hc]. apply cell_at_Some in Hc as (b & Hb & _).
  by apply lookup_lt_Some in Hb.
Qed.

Lemma valid_off_nonneg h p : valid h p -> 0 <= p_off p.
Proof. intros [c Hc]. apply cell_at_Some in Hc as (b & _ & _ & Ho & _). done. Qed.

(** Blocks added at the end of the heap leave every cell where it was. *)
Lemma cell_at_app h h2 p c : cell_at h p = Some c -> cell_at (h ++ h2) p = Some c.
Proof.
  intros Hc. apply cell_at_Some in Hc as (b & Hb & Hl & Ho & Hc).
  apply cell_at_Some. exists b. repeat split; auto.
  by apply lookup_app_l_Some.
Qed.

Lemma valid_app h h2 p : valid h p -> valid (h ++ h2) p.
Proof. intros [c Hc]. exists c. by apply cell_at_app. Qed.

(** [new T[n]] always succeeds in this model, returns the start of a block
    that did not exist before, and gives [n] writable, unwritten cells. *)
Lemma new_array_eq n h :
  new_array n h = Some (Ptr (length h) 0, h ++ [Block true (replicate (Z.to_nat n) None)]).
Proof. reflexivity. Qed.

Lemma cell_at_new n h k :
  0 <= k < n ->
  cell_at (h ++ [Block true (replicate (Z.to_nat n) (None : option T))])
          (Ptr (length h) k) = Some None.
Proof.
  intros Hk. apply cell_at_Some. eexists. simpl. repeat split.
  - rewrite lookup_app_r by lia. rewrite Nat.sub_diag. reflexivity.
  - done.
  - lia.
  - simpl. apply lookup_replicate_2. lia.
Qed.

(** A store succeeds exactly at valid addresses ... *)
Lemma store_valid h p v : valid h p -> exists h', store p v h = Some (tt, h').
Proof.
  intros [c Hc]. unfold store. rewrite Hc.
  apply cell_at_Some in Hc as (b & -> & _). eauto.
Qed.

(** ... writes the cell it is given ... *)
Lemma store_cell_same h h' p v : store p v h = Some (tt, h') -> cell_at h' p = Some (Some v).
Proof.
  unfold store. destruct (h !! p_block p) as [b|] eqn:Hb; [| done].
  destruct (cell_at h p) as [c|] eqn:Hc; [| done].
  intros [= <-]. apply cell_at_Some in Hc as (b' & Hb' & Hl & Ho & Hc).
  assert (b' = b) as -> by congruence.
  apply cell_at_Some. eexists. repeat split.
  - apply list_lookup_insert_eq. by apply lookup_lt_Some in Hb.
  - done.
  - done.
  - simpl. apply list_lookup_insert_eq. by apply lookup_lt_Some in Hc.
Qed.

(** ... and leaves every other cell as it was. *)
Lemma store_cell_other h h' p q v :
  store p v h = Some (tt, h') -> q <> p -> cell_at h' q = cell_at h q.
Proof.
  unfold store. destruct (h !! p_block p) as [b|] eqn:Hb; [| done].
  destruct (cell_at h p) as [c|] eqn:Hc; [| done].
  intros [= <-] Hne. apply cell_at_Some in Hc as (b' & Hb' & Hl & Ho & Hc).
  assert (b' = b) as -> by congruence.
  unfold cell_at.
  destruct (decide (p_block q = p_block p)) as [Heq | Hnb].
  - rewrite Heq. rewrite list_lookup_insert_eq by (by apply lookup_lt_Some in Hb).
    rewrite Hb, Hl. simpl.
    destruct (0 <=? p_off q) eqn:Hq; [| done].
    apply list_lookup_insert_ne. intros Hoff.
    apply Hne, ptr_eq; [done |]. lia.
  - by rewrite list_lookup_insert_ne.
Qed.

Lemma store_valid_iff h h' p q v :
  store p v h = Some (tt, h') -> valid h' q <-> valid h q.
Proof.
  intros Hs. unfold valid.
  destruct (decide (q = p)) as [-> | Hne].
  - rewrite (store_cell_same _ _ _ _ Hs). split; [| by eauto].
    intros _. unfold store in Hs.
    destruct (h !! p_block p); [| done]. destruct (cell_at h p); [eauto | done].
  - by rewrite (store_cell_other _ _ _ _ _ Hs Hne).
Qed.

Lemma store_length h h' p v : store p v h = Some (tt, h') -> length h' = length h.
Proof.
  unfold store. destruct (h !! p_block p) as [b|]; [| done].
  destruct (cell_at h p); [| done].
  intros [= <-]. apply length_insert.
Qed.

Lemma load_cell h p v : cell_at h p = Some (Some v) -> load p h = Some (v, h).
Proof. unfold load. by intros ->. Qed.

End HeapFacts.

(** ** The pool allocator *)

Section PoolAllocatorFacts.
Context {T : Type}.
Import PoolAllocator.
Implicit Types (a : PoolAllocator.t) (h : heap T) (n cap : Z).

Lemma create_eq cap h0 :
  create cap h0 =
    Some (PoolAllocator.Make [Ptr (length h0) 0] cap 0, h0 ++ [fresh_buffer cap]).
Proof. reflexivity. Qed.

(** The two paths through [allocate]. *)
Lemma allocate_fits n a h back :
  (size_add (offset a) n >? capacity a) = false ->
  last (buffers a) = Some back ->
  allocate n a h =
    Some (ptr_add back (offset a),
          PoolAllocator.Make (buffers a) (capacity a) (size_add (offset a) n), h).
Proof.
  intros Hfit Hback. unfold allocate, bind. rewrite Hfit. simpl.
  unfold defined. rewrite Hback. reflexivity.
Qed.

Lemma allocate_grows n a h :
  (size_add (offset a) n >? capacity a) = true ->
  allocate n a h =
    Some (Ptr (length h) 0,
          PoolAllocator.Make (buffers a ++ [Ptr (length h) 0]) (capacity a) (size_add 0 n),
          h ++ [fresh_buffer (capacity a)]).
Proof.
  intros Hgrow. unfold allocate, bind. rewrite Hgrow. simpl.
  unfold defined. rewrite last_snoc. reflexivity.
Qed.

(** What every reachable state satisfies, whatever was requested. *)
Lemma reachable_basic a h :
  reachable a h ->
  buffers a <> [] /\ is_size_t (capacity a) /\ is_size_t (offset a).
Proof.
  induction 1 as [cap h0 a h Hcap Hc | n a h p a' h' Hn Hr IH Ha
                  | p x a h h' Hr IH _ | n p a h h' Hr IH _ | p a h h' Hr IH _ _];
    try exact IH.
  - rewrite create_eq in Hc. injection Hc as <- <-. simpl.
    split_and!; try done; unfold is_size_t, SIZE_MAX in *; lia.
  - destruct IH as (Hne & Hcap & Hoff).
    destruct (size_add (offset a) n >? capacity a) eqn:Hcmp.
    + rewrite (allocate_grows _ _ _ Hcmp) in Ha. injection Ha as _ <- _. simpl.
      split_and!; [by destruct (buffers a) | done | apply to_size_t_range].
    + destruct (last (buffers a)) as [back|] eqn:Hback.
      * rewrite (allocate_fits _ _ _ _ Hcmp Hback) in Ha. injection Ha as _ <- _.
        simpl. split_and!; [done | done | apply to_size_t_range].
      * apply last_None in Hback. done.
Qed.

Lemma allocate_offset_ok n a h :
  offset_ok a -> 0 <= n <= capacity a ->
  exists p a' h', allocate n a h = Some (p, a', h') /\
                  capacity a' = capacity a /\ offset_ok a'.
Proof.
  intros (Hne & Hcap & Hoff) Hn.
  assert (is_size_t n) as Hn' by (unfold is_size_t in *; lia).
  destruct (size_add (offset a) n >? capacity a) eqn:Hcmp.
  - rewrite (allocate_grows _ _ _ Hcmp). do 3 eexists. split; [done |].
    unfold offset_ok. cbn [buffers capacity offset].
    rewrite (size_add_zero_l _ Hn'). split_and!; try done; try lia.
    by destruct (buffers a).
  - destruct (last (buffers a)) as [back|] eqn:Hback;
      [| by apply last_None in Hback].
    rewrite (allocate_fits _ _ _ _ Hcmp Hback). do 3 eexists. split; [done |].
    unfold offset_ok. simpl. split_and!; try done.
    + apply to_size_t_range.
    + lia.
Qed.

Lemma allocate_all_offset_ok ns a h :
  offset_ok a -> Forall (fun n => 0 <= n <= capacity a) ns ->
  exists ps a' h', allocate_all ns a h = Some (ps, a', h') /\
                   capacity a' = capacity a /\ offset_ok a'.
Proof.
  revert a h. induction ns as [| n ns IH]; intros a h Hok Hns.
  - do 3 eexists. split; [reflexivity | done].
  - apply Forall_cons in Hns as [Hn Hns].
    destruct (allocate_offset_ok n a h Hok Hn) as (p & a1 & h1 & Ha & Hcap & Hok1).
    destruct (IH a1 h1 Hok1) as (ps & a2 & h2 & Hall & Hcap2 & Hok2).
    { by rewrite Hcap. }
    exists (p :: ps), a2, h2. split; [| split; [congruence | done]].
    simpl. unfold bind. rewrite Ha. simpl. rewrite Hall. reflexivity.
Qed.

Lemma create_wf cap h0 :
  0 <= cap <= PTRDIFF_MAX ->
  pool_wf (PoolAllocator.Make [Ptr (length h0) 0] cap 0) (h0 ++ [fresh_buffer cap]).
Proof.
  intros Hcap. unfold pool_wf, is_size_t, SIZE_MAX, PTRDIFF_MAX in *.
  cbn [buffers capacity offset]. split_and!; try lia.
  exists (Ptr (length h0) 0). split_and!; [done | done | rewrite length_app; simpl; lia |].
  intros k Hk. exists None. by apply cell_at_new.
Qed.

Lemma allocate_wf n a h :
  pool_wf a h -> 0 <= n <= capacity a ->
  exists p a' h', allocate n a h = Some (p, a', h') /\
                  pool_wf a' h' /\ allocate_step n a h p a' h'.
Proof.
  intros (Hcap & Hmax & Hoff & back & Hback & Hzero & Hlt & Hvalid) Hn.
  assert (is_size_t (offset a + n)) as Hsum
    by (unfold is_size_t, SIZE_MAX, PTRDIFF_MAX in *; lia).
  assert (is_size_t n) as Hn'
    by (unfold is_size_t, SIZE_MAX, PTRDIFF_MAX in *; lia).
  destruct (size_add (offset a) n >? capacity a) eqn:Hcmp.
  - rewrite (allocate_grows _ _ _ Hcmp). rewrite (size_add_zero_l _ Hn').
    rewrite (size_add_exact _ _ Hsum) in Hcmp.
    do 3 eexists. split; [done |]. split.
    + unfold pool_wf. cbn [buffers capacity offset]. split_and!; try done; try lia.
      exists (Ptr (length h) 0). split_and!.
        -- apply last_snoc.
        -- done.
        -- rewrite length_app. simpl. lia.
        -- intros k Hk. exists None. by apply cell_at_new.
    + split; [done |]. right. cbn [buffers capacity offset].
      split_and!; try done. lia.
  - rewrite (allocate_fits _ _ _ _ Hcmp Hback).
    rewrite (size_add_exact _ _ Hsum) in *.
    do 3 eexists. split; [done |]. split.
    + unfold pool_wf. cbn [buffers capacity offset]. split_and!; try done; try lia.
      exists back. done.
    + split; [done |]. left. exists back. cbn [buffers capacity offset].
      split_and!; try done. lia.
Qed.

Lemma allocate_all_cons_inv n ns a h ps a' h' :
  allocate_all (n :: ns) a h = Some (ps, a', h') ->
  exists p a1 h1 ps',
    allocate n a h = Some (p, a1, h1) /\
    allocate_all ns a1 h1 = Some (ps', a', h') /\ ps = p :: ps'.
Proof.
  simpl. unfold bind, ret.
  destruct (allocate n a h) as [[[p a1] h1]|] eqn:Ha; [| done]. simpl.
  destruct (allocate_all ns a1 h1) as [[[ps' a2] h2]|] eqn:Hall; [| done]. simpl.
  intros [= <- <- <-]. by exists p, a1, h1, ps'.
Qed.

(** A run of requests that each fit a buffer never fails. *)
Lemma allocate_all_wf ns a h :
  pool_wf a h -> Forall (fun n => 0 <= n <= capacity a) ns ->
  exists ps a' h', allocate_all ns a h = Some (ps, a', h') /\
                   pool_wf a' h' /\ capacity a' = capacity a.
Proof.
  revert a h. induction ns as [| n ns IH]; intros a h Hwf Hns.
  - by exists [], a, h.
  - apply Forall_cons in Hns as [Hn Hns].
    destruct (allocate_wf n a h Hwf Hn) as (p & a1 & h1 & Ha & Hwf1 & Hcap & _).
    destruct (IH a1 h1 Hwf1) as (ps & a2 & h2 & Hall & Hwf2 & Hcap2).
    { by rewrite Hcap. }
    exists (p :: ps), a2, h2. split; [| split; [done | congruence]].
    simpl. unfold bind. rewrite Ha. simpl. rewrite Hall. reflexivity.
Qed.

Lemma allocate_wf_inv n a h p a' h' :
  pool_wf a h -> 0 <= n <= capacity a ->
  allocate n a h = Some (p, a', h') ->
  pool_wf a' h' /\ allocate_step n a h p a' h'.
Proof.
  intros Hwf Hn Ha.
  destruct (allocate_wf n a h Hwf Hn) as (p1 & a1 & h1 & Ha1 & Hwf1 & Hstep).
  rewrite Ha in Ha1. injection Ha1 as <- <- <-. done.
Qed.

(** *** Where the carves of a run lie *)

Lemma allocate_all_frontier ns a h ps a' h' :
  pool_wf a h -> Forall (fun n => 0 <= n <= capacity a) ns ->
  allocate_all ns a h = Some (ps, a', h') ->
  Forall (beyond_frontier a h) ps.
Proof.
  revert a h ps. induction ns as [| n ns IH]; intros a h ps Hwf Hns Hall.
  - injection Hall as <- _ _. constructor.
  - apply Forall_cons in Hns as [Hn Hns].
    apply allocate_all_cons_inv in Hall as (p & a1 & h1 & ps' & Ha & Hall & ->).
    destruct (allocate_wf_inv _ _ _ _ _ _ Hwf Hn Ha) as (Hwf1 & Hcap & Hstep).
    rewrite <- Hcap in Hns. specialize (IH a1 h1 ps' Hwf1 Hns Hall).
    destruct Hwf as (_ & _ & Hoff & back0 & Hback0 & Hzero0 & Hlt0 & _).
    destruct Hstep as [(back & Hback & Hfit & -> & Hbufs & Hoff1 & ->)
                      | (Hgrow & -> & Hbufs & Hoff1 & ->)].
    + constructor.
      * left. exists back. split_and!; [done | done |].
        assert (back = back0) as -> by congruence. simpl. lia.
      * eapply Forall_impl; [exact IH |]. intros q [(b1 & Hb1 & Hq & Hle) | Hq].
        -- left. exists b1. rewrite Hbufs in Hb1. split_and!; [done | done | lia].
        -- by right.
    + constructor.
      * right. simpl. lia.
      * eapply Forall_impl; [exact IH |]. intros q [(b1 & Hb1 & Hq & Hle) | Hq].
        -- right. rewrite Hbufs, last_snoc in Hb1. injection Hb1 as <-.
           rewrite Hq. simpl. lia.
        -- right. rewrite length_app in Hq. simpl in Hq. lia.
Qed.

Lemma allocate_all_disjoint ns a h ps a' h' :
  pool_wf a h -> Forall (fun n => 0 <= n <= capacity a) ns ->
  allocate_all ns a h = Some (ps, a', h') ->
  carves_disjoint ps ns.
Proof.
  revert a h ps. induction ns as [| n ns IH]; intros a h ps Hwf Hns Hall.
  - intros i j p q n m _ _ Hn. by rewrite lookup_nil in Hn.
  - apply Forall_cons in Hns as [Hn Hns].
    apply allocate_all_cons_inv in Hall as (p & a1 & h1 & ps' & Ha & Hall & ->).
    destruct (allocate_wf_inv _ _ _ _ _ _ Hwf Hn Ha) as (Hwf1 & Hcap & Hstep).
    rewrite <- Hcap in Hns.
    pose proof (allocate_all_frontier _ _ _ _ _ _ Hwf1 Hns Hall) as Hfront.
    specialize (IH a1 h1 ps' Hwf1 Hns Hall).
    (* the first carve against any later one *)
    assert (forall j q m, ps' !! j = Some q -> ns !! j = Some m ->
              p_block p = p_block q -> p_off p + n <= p_off q) as Hfirst.
    { intros j q m Hq Hm Hblk.
      pose proof (proj1 (Forall_lookup _ _) Hfront j q Hq) as Hq'.
      destruct Hwf as (_ & _ & Hoff & back0 & Hback0 & Hzero0 & Hlt0 & _).
      destruct Hstep as [(back & Hback & Hfit & -> & Hbufs & Hoff1 & ->)
                        | (Hgrow & -> & Hbufs & Hoff1 & ->)].
      - assert (back = back0) as -> by congruence.
        destruct Hq' as [(b1 & Hb1 & Hqb & Hle) | Hq'].
        + simpl. lia.
        + simpl in Hblk. lia.
      - destruct Hq' as [(b1 & Hb1 & Hqb & Hle) | Hq'].
        + simpl. lia.
        + rewrite length_app in Hq'. simpl in Hq', Hblk. lia. }
    intros i j p1 q1 n1 m1 Hne Hp1 Hn1 Hq1 Hm1 Hblk.
    destruct i as [| i], j as [| j]; simpl in *.
    + done.
    + injection Hp1 as <-. injection Hn1 as <-. left. by eapply Hfirst.
    + injection Hq1 as <-. injection Hm1 as <-. right. by eapply Hfirst.
    + eapply (IH i j); eauto.
Qed.

(** *** How many buffers a run creates *)

Lemma allocate_all_count ns a h ps a' h' :
  pool_wf a h -> Forall (fun n => 0 <= n <= capacity a) ns ->
  allocate_all ns a h = Some (ps, a', h') ->
  (exists more, buffers a' = buffers a ++ more /\
                (length more <= length ns)%nat) /\
  length ps = length ns /\
  consumed a + total ns <= consumed a'.
Proof.
  revert a h ps. induction ns as [| n ns IH]; intros a h ps Hwf Hns Hall.
  - injection Hall as <- <- _. split_and!; [| done | simpl; lia].
    exists []. by rewrite app_nil_r.
  - apply Forall_cons in Hns as [Hn Hns].
    apply allocate_all_cons_inv in Hall as (p & a1 & h1 & ps' & Ha & Hall & ->).
    destruct (allocate_wf_inv _ _ _ _ _ _ Hwf Hn Ha) as (Hwf1 & Hcap & Hstep).
    rewrite <- Hcap in Hns.
    destruct (IH a1 h1 ps' Hwf1 Hns Hall) as ((more & Hmore & Hlen) & Hps & Hsum).
    destruct Hwf as (_ & _ & Hoff & _).
    unfold consumed in *. rewrite Hcap in Hsum. simpl.
    destruct Hstep as [(back & Hback & Hfit & -> & Hbufs & Hoff1 & ->)
                      | (Hgrow & -> & Hbufs & Hoff1 & ->)].
    + rewrite Hbufs in *. split_and!; [| by rewrite Hps | lia].
      exists more. split; [done | lia].
    + rewrite Hbufs in *. split_and!; [| by rewrite Hps |].
      * exists (Ptr (length h) 0 :: more). rewrite Hmore, <- app_assoc.
        split; [done | simpl; lia].
      * rewrite length_app in Hsum. simpl in Hsum. nia.
Qed.

Lemma allocate_all_in_buffer ns a h ps a' h' :
  pool_wf a h -> Forall (fun n => 0 <= n <= capacity a) ns ->
  allocate_all ns a h = Some (ps, a', h') ->
  Forall2 (carve_in_buffer (buffers a') (capacity a)) ps ns.
Proof.
  revert a h ps. induction ns as [| n ns IH]; intros a h ps Hwf Hns Hall.
  - injection Hall as <- _ _. constructor.
  - apply Forall_cons in Hns as [Hn Hns].
    apply allocate_all_cons_inv in Hall as (p & a1 & h1 & ps' & Ha & Hall & ->).
    destruct (allocate_wf_inv _ _ _ _ _ _ Hwf Hn Ha) as (Hwf1 & Hcap & Hstep).
    rewrite <- Hcap in Hns.
    destruct (allocate_all_count _ _ _ _ _ _ Hwf1 Hns Hall) as ((more & Hmore & _) & _).
    specialize (IH a1 h1 ps' Hwf1 Hns Hall). rewrite Hcap in IH.
    constructor; [| done].
    destruct Hwf as (_ & _ & Hoff & back0 & Hback0 & Hzero0 & _).
    destruct Hstep as [(back & Hback & Hfit & -> & Hbufs & Hoff1 & ->)
                      | (Hgrow & -> & Hbufs & Hoff1 & ->)].
    + assert (back = back0) as -> by congruence.
      unfold carve_in_buffer. simpl. split_and!; [| lia | lia].
      rewrite Hmore, Hbufs. apply elem_of_app. left.
      apply last_Some_elem_of.
      replace (Ptr (p_block back0) 0) with back0; [done |].
      destruct back0; simpl in *; congruence.
    + unfold carve_in_buffer. simpl. split_and!; [| lia | lia].
      rewrite Hmore, Hbufs. apply elem_of_app. left.
      apply elem_of_app. right. by apply list_elem_of_singleton.
Qed.

(** Requests of one size that divides the capacity leave no gap: a new
    buffer is added only when the newest is full. *)
Lemma allocate_all_uniform ns n a h ps a' h' :
  pool_wf a h -> 0 < n <= capacity a ->
  (n | capacity a) -> (n | offset a) ->
  Forall (fun m => m = n) ns ->
  allocate_all ns a h = Some (ps, a', h') ->
  (n | offset a') /\ consumed a' = consumed a + total ns /\
  (ns <> [] -> 0 < offset a').
Proof.
  intros Hwf Hn Hdc. revert a h ps Hwf Hn Hdc.
  induction ns as [| m ns IH]; intros a h ps Hwf Hn Hdc Hdo Hns Hall.
  - injection Hall as _ <- _. split_and!; [done | simpl; lia | done].
  - apply Forall_cons in Hns as [-> Hns].
    apply allocate_all_cons_inv in Hall as (p & a1 & h1 & ps' & Ha & Hall & ->).
    destruct (allocate_wf_inv n a h _ _ _ Hwf ltac:(lia) Ha) as (Hwf1 & Hcap & Hstep).
    assert ((n | offset a1) /\ consumed a1 = consumed a + n /\ 0 < offset a1)
      as (Hdo1 & Hc1 & Hpos1).
    { destruct Hwf as (_ & _ & Hoff & _). unfold consumed. rewrite Hcap.
      destruct Hstep as [(back & Hback & Hfit & -> & Hbufs & Hoff1 & ->)
                        | (Hgrow & -> & Hbufs & Hoff1 & ->)].
      - rewrite Hbufs, Hoff1. split_and!; [| lia | lia].
        by apply Z.divide_add_r.
      - rewrite Hbufs, Hoff1, length_app. simpl. split_and!; [done | | lia].
        destruct Hdc as [c Hc], Hdo as [o Ho].
        assert (o = c) by nia. subst o. lia. }
    rewrite <- Hcap in Hn, Hdc.
    destruct (IH a1 h1 ps' Hwf1 Hn Hdc Hdo1 Hns Hall) as (Hd & Hc & Hpos).
    split_and!; [done | simpl; lia |].
    intros _. destruct ns as [| m' ns'].
    + injection Hall as _ <- _. done.
    + by apply Hpos.
Qed.

(** *** The statements about the allocator *)

(** Claim C10.  In every state of the allocator whose [offset] is at most
    [capacity], on whatever heap and whatever has been written to its
    carves, [allocate(0)] succeeds, leaves the allocator (buffer list,
    capacity and offset) and the heap exactly as they were, and returns
    the address at the current offset of the newest buffer.  The first
    two hypotheses say that [a] is the state of an allocator object: the
    constructor puts a buffer in the list and nothing takes one out, and
    [offset] is a [size_t]. *)
Theorem allocate_zero_unchanged a h :
  buffers a <> [] ->
  is_size_t (offset a) ->
  offset a <= capacity a ->
  exists back,
    last (buffers a) = Some back /\
    allocate 0 a h = Some (ptr_add back (offset a), a, h).
Proof.
  intros Hne Hoff Hle.
  destruct (last (buffers a)) as [back|] eqn:Hback;
    [| by apply last_None in Hback].
  exists back. split; [done |].
  rewrite (allocate_fits 0 a h back); [| | done].
  - rewrite (size_add_zero _ Hoff). by destruct a.
  - rewrite (size_add_zero _ Hoff). lia.
Qed.

(** Claim C3, as amended.  After construction and after every call of a
    run of [allocate] calls whose sizes are each at most [capacity], the
    allocator satisfies [0 <= offset <= capacity]; [capacity] itself
    never changes. *)
Theorem offset_within_capacity cap ns h0 :
  is_size_t cap ->
  Forall (fun n => 0 <= n <= cap) ns ->
  exists a0 h1,
    create cap h0 = Some (a0, h1) /\
    capacity a0 = cap /\ 0 <= offset a0 <= capacity a0 /\
    forall k, exists ps a h,
      allocate_all (take k ns) a0 h1 = Some (ps, a, h) /\
      capacity a = cap /\ 0 <= offset a <= capacity a.
Proof.
  intros Hcap Hns. rewrite create_eq. do 2 eexists. split; [done |].
  cbn [buffers capacity offset].
  assert (0 <= 0 <= cap) as H0 by (unfold is_size_t in Hcap; lia).
  split_and!; [done | lia | lia |].
  intros k.
  destruct (allocate_all_offset_ok (take k ns)
              (PoolAllocator.Make [Ptr (length h0) 0] cap 0)
              (h0 ++ [fresh_buffer cap]))
    as (ps & a & h & Hall & Hc & Hok).
  - unfold offset_ok. cbn [buffers capacity offset].
    split_and!; [done | exact Hcap | lia | lia].
  - cbn [capacity]. by apply Forall_take.
  - exists ps, a, h. split; [exact Hall |]. cbn [capacity] in Hc.
    destruct Hok as (_ & _ & Hok). rewrite Hc in Hok. split; [done | lia].
Qed.

(** Claim C6, as amended.  When an [allocate(n)] call adds a new buffer,
    the buffers held before are all still held, in the same order, with
    the new one after them; every block of the heap, hence every cell of
    every earlier carve, is as it was (none freed, none written); and for
    [n <= capacity] the [n] elements of the returned carve are all cells
    of the block of the newest buffer. *)
Theorem allocate_new_buffer_frame n a h p a' h' :
  (size_add (offset a) n >? capacity a) = true ->
  allocate n a h = Some (p, a', h') ->
  buffers a' = buffers a ++ [p] /\
  last (buffers a') = Some p /\
  (forall i b, h !! i = Some b -> h' !! i = Some b) /\
  (forall q c, cell_at h q = Some c -> cell_at h' q = Some c) /\
  (n <= capacity a ->
   forall k, 0 <= k < n ->
     p_block (ptr_add p k) = p_block p /\
     (p_block p < length h')%nat /\ (length h <= p_block p)%nat /\
     cell_at h' (ptr_add p k) = Some None).
Proof.
  intros Hgrow Ha. rewrite (allocate_grows _ _ _ Hgrow) in Ha.
  injection Ha as <- <- <-. cbn [buffers].
  split_and!.
  - done.
  - apply last_snoc.
  - intros i b Hb. by apply lookup_app_l_Some.
  - intros q c Hc. by apply cell_at_app.
  - intros Hn k Hk. split_and!.
    + done.
    + rewrite length_app. simpl. lia.
    + simpl. lia.
    + unfold ptr_add. simpl. apply cell_at_new. lia.
Qed.

(** Claim C2, as amended.  For an allocator of capacity [cap] and a run of
    requests that are each at most [cap], with sum [total ns]: the run
    succeeds; the allocator ends with at least [ceil(total / cap)]
    buffers, at least one, and at most one more than there were calls;
    with exactly [ceil(total / cap)] when there is at least one request
    and all requests have one size that is positive and divides [cap];
    every carve is a sub-range of one of the buffers, and any two
    distinct carves in the same buffer are disjoint. *)
Theorem allocate_all_buffers_and_carves cap ns h0 :
  0 < cap <= PTRDIFF_MAX ->
  Forall (fun n => 0 <= n <= cap) ns ->
  exists a0 h1 ps a h,
    create cap h0 = Some (a0, h1) /\
    allocate_all ns a0 h1 = Some (ps, a, h) /\
    ceil_div (total ns) cap <= Z.of_nat (length (buffers a)) /\
    1 <= Z.of_nat (length (buffers a)) <= 1 + Z.of_nat (length ns) /\
    (forall n, 0 < n -> (n | cap) -> ns <> [] -> Forall (fun m => m = n) ns ->
               Z.of_nat (length (buffers a)) = ceil_div (total ns) cap) /\
    Forall2 (carve_in_buffer (buffers a) cap) ps ns /\
    carves_disjoint ps ns.
Proof.
  intros Hcap Hns. rewrite create_eq.
  pose proof (create_wf cap h0 ltac:(lia)) as Hwf.
  set (a0 := PoolAllocator.Make [Ptr (length h0) 0] cap 0) in *.
  set (h1 := h0 ++ [fresh_buffer cap]) in *.
  destruct (allocate_all_wf ns a0 h1 Hwf Hns) as (ps & a & h & Hall & Hwf' & Hc).
  exists a0, h1, ps, a, h. split; [done |]. split; [done |].
  destruct (allocate_all_count _ _ _ _ _ _ Hwf Hns Hall)
    as ((more & Hmore & Hlen) & Hps & Hsum).
  unfold consumed in Hsum. rewrite Hc in Hsum. cbn [a0 buffers capacity offset length] in Hsum, Hc.
  destruct Hwf' as (_ & _ & Hoff & _). rewrite Hc in Hoff.
  assert (Z.of_nat (length (buffers a)) = 1 + Z.of_nat (length more)) as Hnb.
  { rewrite Hmore. cbn [a0 buffers]. simpl. lia. }
  split_and!.
  - apply ceil_div_le_iff; [lia |]. nia.
  - lia.
  - lia.
  - intros n Hn Hdiv Hne Hsame.
    destruct (allocate_all_uniform ns n a0 h1 ps a h Hwf) as (_ & Hexact & Hpos); auto.
    + cbn [a0 capacity]. split; [lia |]. apply Z.divide_pos_le; [lia | done].
    + cbn [a0 offset]. apply Z.divide_0_r.
    + unfold consumed in Hexact. rewrite Hc in Hexact.
      cbn [a0 buffers capacity offset length] in Hexact.
      specialize (Hpos Hne).
      replace (total ns) with ((Z.of_nat (length (buffers a)) - 1) * cap + offset a) by lia.
      rewrite ceil_div_step; lia.
  - exact (allocate_all_in_buffer _ _ _ _ _ _ Hwf Hns Hall).
  - exact (allocate_all_disjoint _ _ _ _ _ _ Hwf Hns Hall).
Qed.

End PoolAllocatorFacts.

(** The reference scenario: capacity 8, requests of sizes 3, 3, 3.  The first
    two carves are at offsets 0 and 3 of the first buffer, the third opens a
    second buffer and is at its offset 0. *)
Example pool_scenario_3_3_3 :
  let a0 := PoolAllocator.Make [Ptr 0 0] 8 0 in
  let h1 : heap Z := [fresh_buffer 8] in
  PoolAllocator.create 8 [] = Some (a0, h1) /\
  PoolAllocator.allocate_all [3; 3; 3] a0 h1 =
    Some ([Ptr 0 0; Ptr 0 3; Ptr 1 0],
          PoolAllocator.Make [Ptr 0 0; Ptr 1 0] 8 3,
          [fresh_buffer 8; fresh_buffer 8]).
Proof. split; vm_compute; reflexivity. Qed.

(** *** Concrete runs of the allocator *)

(** The allocator of capacity 8 after [allocate(3)], with the carve
    written: [allocate(0)] returns element 3 of the buffer and changes
    nothing. *)
Lemma allocate_zero_unchanged_witness :
  let a := PoolAllocator.Make [Ptr 0 0] 8 3 in
  let h : heap Z := [Block true ([Some 7; Some 8; Some 9] ++ replicate 5 None)] in
  PoolAllocator.buffers a <> [] /\
  is_size_t (PoolAllocator.offset a) /\
  PoolAllocator.offset a <= PoolAllocator.capacity a /\
  exists back,
    last (PoolAllocator.buffers a) = Some back /\
    PoolAllocator.allocate 0 a h = Some (ptr_add back (PoolAllocator.offset a), a, h).
Proof.
  intros a h.
  assert (PoolAllocator.buffers a <> []) as Hne by discriminate.
  assert (is_size_t (PoolAllocator.offset a)) as Hoff
    by (unfold is_size_t, SIZE_MAX; simpl; lia).
  assert (PoolAllocator.offset a <= PoolAllocator.capacity a) as Hle by (simpl; lia).
  split; [exact Hne |]. split; [exact Hoff |]. split; [exact Hle |].
  exact (allocate_zero_unchanged a h Hne Hoff Hle).
Defined.

(** That state is one the allocator is in while the program runs: it is
    constructed, gives out a carve of three elements, and the carve is
    written. *)
Example written_carve_reachable :
  reachable (PoolAllocator.Make [Ptr 0 0] 8 3)
    ([Block true ([Some 7; Some 8; Some 9] ++ replicate 5 None)] : heap Z).
Proof.
  assert (is_size_t 8 /\ is_size_t 3) as [H8 H3]
    by (unfold is_size_t, SIZE_MAX; lia).
  apply (reachable_store (Ptr 0 2) 9 _ [Block true ([Some 7; Some 8] ++ replicate 6 None)]);
    [| reflexivity].
  apply (reachable_store (Ptr 0 1) 8 _ [Block true ([Some 7] ++ replicate 7 None)]);
    [| reflexivity].
  apply (reachable_store (Ptr 0 0) 7 _ [fresh_buffer 8]); [| reflexivity].
  apply (reachable_allocate 3 (PoolAllocator.Make [Ptr 0 0] 8 0) [fresh_buffer 8] (Ptr 0 0));
    [exact H3 | | reflexivity].
  apply (reachable_create 8 []); [exact H8 | reflexivity].
Qed.

(** Claim C3 fails as stated: with capacity 8, [allocate(9)] leaves
    [offset = 9]. *)
Lemma offset_exceeds_capacity :
  let a0 := PoolAllocator.Make [Ptr 0 0] 8 0 in
  let h1 : heap Z := [fresh_buffer 8] in
  let a := PoolAllocator.Make [Ptr 0 0; Ptr 1 0] 8 9 in
  let h : heap Z := [fresh_buffer 8; fresh_buffer 8] in
  PoolAllocator.create 8 [] = Some (a0, h1) /\
  PoolAllocator.allocate 9 a0 h1 = Some (Ptr 1 0, a, h) /\
  ~ (0 <= PoolAllocator.offset a <= PoolAllocator.capacity a).
Proof.
  split_and!; [vm_compute; reflexivity | vm_compute; reflexivity |].
  simpl. lia.
Qed.

Lemma offset_within_capacity_witness :
  is_size_t 8 /\
  Forall (fun n => 0 <= n <= 8) [3; 3; 3] /\
  exists a0 h1,
    PoolAllocator.create (T := Z) 8 [] = Some (a0, h1) /\
    PoolAllocator.capacity a0 = 8 /\
    0 <= PoolAllocator.offset a0 <= PoolAllocator.capacity a0 /\
    forall k, exists ps a h,
      PoolAllocator.allocate_all (take k [3; 3; 3]) a0 h1 = Some (ps, a, h) /\
      PoolAllocator.capacity a = 8 /\
      0 <= PoolAllocator.offset a <= PoolAllocator.capacity a.
Proof.
  assert (is_size_t 8) as H8 by (unfold is_size_t, SIZE_MAX; lia).
  assert (Forall (fun n => 0 <= n <= 8) [3; 3; 3]) as Hns
    by (repeat constructor; lia).
  split; [exact H8 |]. split; [exact Hns |].
  exact (offset_within_capacity 8 [3; 3; 3] [] H8 Hns).
Defined.

(** Claim C6 fails as stated: with capacity 8, [allocate(9)] adds a buffer
    and returns its start, and element 8 of the carve is past the 8 cells
    of that buffer. *)
Lemma carve_overruns_new_buffer :
  let a0 := PoolAllocator.Make [Ptr 0 0] 8 0 in
  let h1 : heap Z := [fresh_buffer 8] in
  let p := Ptr 1 0 in
  let a := PoolAllocator.Make [Ptr 0 0; Ptr 1 0] 8 9 in
  let h : heap Z := [fresh_buffer 8; fresh_buffer 8] in
  PoolAllocator.create 8 [] = Some (a0, h1) /\
  (size_add (PoolAllocator.offset a0) 9 >? PoolAllocator.capacity a0) = true /\
  PoolAllocator.allocate 9 a0 h1 = Some (p, a, h) /\
  last (PoolAllocator.buffers a) = Some p /\
  h !! p_block p = Some (fresh_buffer 8) /\
  0 <= 8 < 9 /\
  cell_at h (ptr_add p 8) = None.
Proof. split_and!; try (vm_compute; reflexivity); lia. Qed.

Lemma allocate_new_buffer_frame_witness :
  let a := PoolAllocator.Make [Ptr 0 0] 8 6 in
  let h : heap Z := [fresh_buffer 8] in
  let p := Ptr 1 0 in
  let a' := PoolAllocator.Make [Ptr 0 0; Ptr 1 0] 8 3 in
  let h' : heap Z := [fresh_buffer 8; fresh_buffer 8] in
  (size_add (PoolAllocator.offset a) 3 >? PoolAllocator.capacity a) = true /\
  PoolAllocator.allocate 3 a h = Some (p, a', h') /\
  PoolAllocator.buffers a' = PoolAllocator.buffers a ++ [p] /\
  last (PoolAllocator.buffers a') = Some p /\
  (forall i b, h !! i = Some b -> h' !! i = Some b) /\
  (forall q c, cell_at h q = Some c -> cell_at h' q = Some c) /\
  (3 <= PoolAllocator.capacity a ->
   forall k, 0 <= k < 3 ->
     p_block (ptr_add p k) = p_block p /\
     (p_block p < length h')%nat /\ (length h <= p_block p)%nat /\
     cell_at h' (ptr_add p k) = Some None).
Proof.
  intros a h p a' h'.
  assert ((size_add (PoolAllocator.offset a) 3 >? PoolAllocator.capacity a) = true)
    as Hgrow by reflexivity.
  assert (PoolAllocator.allocate 3 a h = Some (p, a', h')) as Ha by reflexivity.
  split; [exact Hgrow |]. split; [exact Ha |].
  exact (allocate_new_buffer_frame 3 a h p a' h' Hgrow Ha).
Defined.

(** Claim C2 fails as stated: with capacity 8, the requests 5, 5, 5 sum to
    15 and [ceil(15 / 8) = 2], but each request opens a buffer of its own:
    3 buffers. *)
Lemma buffers_exceed_ceiling :
  let a0 := PoolAllocator.Make [Ptr 0 0] 8 0 in
  let h1 : heap Z := [fresh_buffer 8] in
  let a := PoolAllocator.Make [Ptr 0 0; Ptr 1 0; Ptr 2 0] 8 5 in
  let h : heap Z := [fresh_buffer 8; fresh_buffer 8; fresh_buffer 8] in
  Forall (fun n => n <= 8) [5; 5; 5] /\
  PoolAllocator.create 8 [] = Some (a0, h1) /\
  PoolAllocator.allocate_all [5; 5; 5] a0 h1 = Some ([Ptr 0 0; Ptr 1 0; Ptr 2 0], a, h) /\
  ceil_div (total [5; 5; 5]) 8 = 2 /\
  Z.of_nat (length (PoolAllocator.buffers a)) = 3 /\
  Z.of_nat (length (PoolAllocator.buffers a)) <> ceil_div (total [5; 5; 5]) 8.
Proof.
  split_and!; try (vm_compute; reflexivity).
  - repeat constructor; lia.
  - vm_compute. discriminate.
Qed.

Lemma allocate_all_buffers_and_carves_witness :
  0 < 8 <= PTRDIFF_MAX /\
  Forall (fun n => 0 <= n <= 8) [3; 3; 3] /\
  exists a0 h1 ps a h,
    PoolAllocator.create (T := Z) 8 [] = Some (a0, h1) /\
    PoolAllocator.allocate_all [3; 3; 3] a0 h1 = Some (ps, a, h) /\
    ceil_div (total [3; 3; 3]) 8 <= Z.of_nat (length (PoolAllocator.buffers a)) /\
    1 <= Z.of_nat (length (PoolAllocator.buffers a)) <= 1 + Z.of_nat (length [3; 3; 3]) /\
    (forall n, 0 < n -> (n | 8) -> [3; 3; 3] <> [] -> Forall (fun m => m = n) [3; 3; 3] ->
               Z.of_nat (length (PoolAllocator.buffers a)) = ceil_div (total [3; 3; 3]) 8) /\
    Forall2 (carve_in_buffer (PoolAllocator.buffers a) 8) ps [3; 3; 3] /\
    carves_disjoint ps [3; 3; 3].
Proof.
  assert (0 < 8 <= PTRDIFF_MAX) as H8 by (unfold PTRDIFF_MAX; lia).
  assert (Forall (fun n => 0 <= n <= 8) [3; 3; 3]) as Hns
    by (repeat constructor; lia).
  split; [exact H8 |]. split; [exact Hns |].
  exact (allocate_all_buffers_and_carves 8 [3; 3; 3] [] H8 Hns).
Defined.

(** ** Chunk tables

    What [ChunkedVector] and [ChunkedVectorPoolAllocation] share: a table
    of chunk addresses, [CHUNK_SIZE] elements to a chunk, holding the values
    appended so far. *)

Section ChunkTable.
Context {T : Type}.
Variable CHUNK_SIZE : Z.
Hypothesis CHUNK_SIZE_pos : 0 < CHUNK_SIZE.
Implicit Types (h : heap T) (cs : list ptr) (vs : list T) (c p : ptr).

Lemma chunk_slot_Some cs i p :
  chunk_slot CHUNK_SIZE cs i = Some p <->
  exists c, cs !! Z.to_nat (i / CHUNK_SIZE) = Some c /\
            p = ptr_add c (i mod CHUNK_SIZE).
Proof.
  unfold chunk_slot, size_div, size_rem.
  destruct (CHUNK_SIZE =? 0) eqn:Hz; [lia |]. simpl.
  destruct (cs !! Z.to_nat (i / CHUNK_SIZE)) as [c|]; simpl.
  - split; [intros [= <-]; eauto | intros (c' & [= <-] & ->); done].
  - split; [done | intros (c' & [=] & _)].
Qed.

Lemma chunk_slot_app cs c i p :
  chunk_slot CHUNK_SIZE cs i = Some p ->
  chunk_slot CHUNK_SIZE (cs ++ [c]) i = Some p.
Proof.
  rewrite !chunk_slot_Some. intros (c' & Hc' & ->).
  exists c'. split; [by apply lookup_app_l_Some | done].
Qed.

Lemma empty_table_ok h : table_ok CHUNK_SIZE h [] [].
Proof.
  unfold table_ok. split_and!.
  - intros j c k Hc. by rewrite lookup_nil in Hc.
  - intros j j' c c' k k' Hc. by rewrite lookup_nil in Hc.
  - intros i x Hx. by rewrite lookup_nil in Hx.
Qed.

(** Distinct indices have distinct cells. *)
Lemma chunk_slot_inj cs i i' p :
  chunks_apart CHUNK_SIZE cs -> 0 <= i -> 0 <= i' ->
  chunk_slot CHUNK_SIZE cs i = Some p ->
  chunk_slot CHUNK_SIZE cs i' = Some p ->
  i = i'.
Proof.
  intros Hapart Hi Hi'. rewrite !chunk_slot_Some.
  intros (c & Hc & ->) (c' & Hc' & Heq).
  pose proof (Z.mod_pos_bound i CHUNK_SIZE CHUNK_SIZE_pos) as Hr.
  pose proof (Z.mod_pos_bound i' CHUNK_SIZE CHUNK_SIZE_pos) as Hr'.
  pose proof (Hapart _ _ _ _ _ _ Hc Hc' Hr Hr' Heq) as Hj.
  assert (c = c') as <- by congruence.
  assert (i mod CHUNK_SIZE = i' mod CHUNK_SIZE) as Hmod.
  { unfold ptr_add in Heq. injection Heq. lia. }
  assert (i / CHUNK_SIZE = i' / CHUNK_SIZE) as Hdiv.
  { pose proof (Z.div_pos i CHUNK_SIZE Hi CHUNK_SIZE_pos).
    pose proof (Z.div_pos i' CHUNK_SIZE Hi' CHUNK_SIZE_pos). lia. }
  rewrite (Z.div_mod i CHUNK_SIZE), (Z.div_mod i' CHUNK_SIZE) by lia.
  congruence.
Qed.

(** The number of chunks that [n] elements take. *)
Lemma ceil_div_succ n :
  0 <= n -> ceil_div (n + 1) CHUNK_SIZE = n / CHUNK_SIZE + 1.
Proof.
  intros Hn. unfold ceil_div.
  replace (n + 1 + CHUNK_SIZE - 1) with (n + 1 * CHUNK_SIZE) by lia.
  by rewrite Z.div_add by lia.
Qed.

Lemma ceil_div_full n :
  0 <= n -> n mod CHUNK_SIZE = 0 -> ceil_div n CHUNK_SIZE = n / CHUNK_SIZE.
Proof.
  intros Hn Hmod.
  rewrite (Z.div_mod n CHUNK_SIZE) at 1 by lia. rewrite Hmod, Z.add_0_r.
  rewrite Z.mul_comm. apply ceil_div_exact. lia.
Qed.

Lemma ceil_div_partial n :
  0 <= n -> n mod CHUNK_SIZE <> 0 ->
  ceil_div (n + 1) CHUNK_SIZE = ceil_div n CHUNK_SIZE.
Proof.
  intros Hn Hmod. rewrite (ceil_div_succ n Hn).
  pose proof (Z.mod_pos_bound n CHUNK_SIZE CHUNK_SIZE_pos) as Hr.
  rewrite (Z.div_mod n CHUNK_SIZE) at 2 by lia. rewrite Z.mul_comm.
  rewrite ceil_div_step; lia.
Qed.

(** Writing the next value into a table that has its chunk. *)
Lemma table_write h cs vs x :
  table_ok CHUNK_SIZE h cs vs ->
  Z.of_nat (length cs) = ceil_div (Z.of_nat (length vs) + 1) CHUNK_SIZE ->
  exists p h',
    chunk_slot CHUNK_SIZE cs (Z.of_nat (length vs)) = Some p /\
    store p x h = Some (tt, h') /\
    table_ok CHUNK_SIZE h' cs (vs ++ [x]).
Proof.
  intros (Hvalid & Hapart & Hholds) Hcount.
  set (n := Z.of_nat (length vs)) in *.
  rewrite ceil_div_succ in Hcount by lia.
  pose proof (Z.div_pos n CHUNK_SIZE ltac:(lia) CHUNK_SIZE_pos) as Hq.
  pose proof (Z.mod_pos_bound n CHUNK_SIZE CHUNK_SIZE_pos) as Hr.
  destruct (lookup_lt_is_Some_2 cs (Z.to_nat (n / CHUNK_SIZE)) ltac:(lia)) as [c Hc].
  set (p := ptr_add c (n mod CHUNK_SIZE)).
  assert (chunk_slot CHUNK_SIZE cs n = Some p) as Hslot
    by (apply chunk_slot_Some; eauto).
  destruct (store_valid h p x (Hvalid _ _ _ Hc Hr)) as [h' Hstore].
  exists p, h'. unfold table_ok. split_and!; try done.
  - intros j c' k Hc' Hk. apply (store_valid_iff _ _ _ _ _ Hstore). eauto.
  - intros i y Hy. apply lookup_app_Some in Hy as [Hy | [Hlen Hy]].
    + destruct (Hholds i y Hy) as (q & Hq' & Hcell). exists q. split; [done |].
      rewrite (store_cell_other _ _ _ _ _ Hstore); [done |].
      intros ->. apply lookup_lt_Some in Hy.
      pose proof (chunk_slot_inj cs (Z.of_nat i) n p Hapart ltac:(lia) ltac:(lia) Hq' Hslot).
      lia.
    + destruct (i - length vs)%nat as [| d] eqn:Hd; [| by destruct d].
      injection Hy as <-. assert (i = length vs) as -> by lia.
      exists p. split; [done |]. by apply (store_cell_same _ _ _ _ Hstore).
Qed.

(** Adding a chunk that is writable and apart from those of the table, on
    a heap that keeps the cells already there. *)
Lemma table_extend h h1 cs vs c :
  table_ok CHUNK_SIZE h cs vs ->
  (forall q (o : option T), cell_at h q = Some o -> cell_at h1 q = Some o) ->
  (forall k, 0 <= k < CHUNK_SIZE -> valid h1 (ptr_add c k)) ->
  (forall j c' k k', cs !! j = Some c' ->
      0 <= k < CHUNK_SIZE -> 0 <= k' < CHUNK_SIZE ->
      ptr_add c k <> ptr_add c' k') ->
  table_ok CHUNK_SIZE h1 (cs ++ [c]) vs.
Proof.
  intros (Hvalid & Hapart & Hholds) Hext Hnew Hfresh. unfold table_ok. split_and!.
  - intros j c' k Hc' Hk. apply lookup_app_Some in Hc' as [Hc' | [Hlen Hc']].
    + destruct (Hvalid j c' k Hc' Hk) as [o Ho]. exists o. by apply Hext.
    + apply list_lookup_singleton_Some in Hc' as [_ <-]. by apply Hnew.
  - intros j j' c1 c2 k k' Hc1 Hc2 Hk Hk' Heq.
    apply lookup_app_Some in Hc1 as [Hc1 | [Hlen1 Hc1]];
      apply lookup_app_Some in Hc2 as [Hc2 | [Hlen2 Hc2]].
    + eauto.
    + apply list_lookup_singleton_Some in Hc2 as [_ <-].
      exfalso. by eapply (Hfresh j c1 k' k).
    + apply list_lookup_singleton_Some in Hc1 as [_ <-].
      exfalso. by eapply (Hfresh j' c2 k k').
    + apply list_lookup_singleton_Some in Hc1 as [? _].
      apply list_lookup_singleton_Some in Hc2 as [? _]. lia.
  - intros i x Hx. destruct (Hholds i x Hx) as (q & Hq & Hcell).
    exists q. split; [by apply chunk_slot_app | by apply Hext].
Qed.

End ChunkTable.

(** ** The plain chunked vector *)

Section ChunkedVectorFacts.
Context {T : Type}.
Variable CHUNK_SIZE : Z.
Hypothesis CHUNK_SIZE_pos : 0 < CHUNK_SIZE.
Import ChunkedVector.
Implicit Types (v : ChunkedVector.t) (h : heap T) (vs : list T).

(** [push_back] without the monad. *)
Lemma push_back_unfold x v h :
  push_back CHUNK_SIZE x v h =
    r ← size_rem (size v) CHUNK_SIZE;
    let '(cs, h1) :=
      if r =? 0
      then (chunks v ++ [Ptr (length h) 0], h ++ [fresh_buffer CHUNK_SIZE])
      else (chunks v, h) in
    p ← chunk_slot CHUNK_SIZE cs (size v);
    '(_, h') ← store p x h1;
    Some (ChunkedVector.Make cs (size_add (size v) 1), h').
Proof.
  unfold push_back, bind, defined, ret.
  destruct (size_rem (size v) CHUNK_SIZE) as [r|]; [| done]. simpl.
  destruct (r =? 0); simpl.
  - destruct (chunk_slot _ _ _) as [p|]; [| done]. simpl.
    destruct (store _ _ _) as [[[] h']|]; done.
  - destruct (chunk_slot _ _ _) as [p|]; [| done]. simpl.
    destruct (store _ _ _) as [[[] h']|]; done.
Qed.

Lemma create_represents h0 : represents CHUNK_SIZE h0 create h0 [].
Proof.
  unfold represents, create. simpl. split_and!; [done | | done | apply empty_table_ok].
  unfold ceil_div. rewrite Z.div_small; lia.
Qed.

Lemma push_back_represents h0 v h vs x :
  represents CHUNK_SIZE h0 v h vs ->
  Z.of_nat (length vs) < SIZE_MAX ->
  exists v' h',
    push_back CHUNK_SIZE x v h = Some (v', h') /\
    represents CHUNK_SIZE h0 v' h' (vs ++ [x]).
Proof.
  intros (Hsize & Hcount & Hlen & Hok) Hmax.
  set (n := Z.of_nat (length vs)) in *.
  assert (size_add (size v) 1 = Z.of_nat (length (vs ++ [x]))) as Hsize'.
  { rewrite Hsize, length_app. simpl. rewrite size_add_exact; [lia |].
    unfold is_size_t. lia. }
  assert (Z.of_nat (length (vs ++ [x])) = n + 1) as Hn'
    by (rewrite length_app; simpl; lia).
  rewrite push_back_unfold. unfold size_rem.
  destruct (CHUNK_SIZE =? 0) eqn:Hz; [lia |]. simpl. rewrite Hsize in *.
  destruct (n mod CHUNK_SIZE =? 0) eqn:Hfull.
  - (* a new chunk *)
    set (c := Ptr (length h) 0).
    set (h1 := h ++ [fresh_buffer CHUNK_SIZE]).
    assert (table_ok CHUNK_SIZE h1 (chunks v ++ [c]) vs) as Hok1.
    { apply (table_extend CHUNK_SIZE CHUNK_SIZE_pos h h1); [done | | |].
      - intros q o. apply cell_at_app.
      - intros k Hk. exists None. by apply cell_at_new.
      - intros j c' k k' Hc' Hk Hk' Heq.
        destruct Hok as (Hvalid & _).
        pose proof (valid_block_lt _ _ (Hvalid j c' k' Hc' Hk')) as Hlt.
        rewrite <- Heq in Hlt. simpl in Hlt. lia. }
    assert (Z.of_nat (length (chunks v ++ [c])) = ceil_div (n + 1) CHUNK_SIZE) as Hcount1.
    { rewrite length_app. simpl. rewrite ceil_div_succ by lia.
      rewrite ceil_div_full in Hcount by lia. lia. }
    destruct (table_write CHUNK_SIZE CHUNK_SIZE_pos h1 _ vs x Hok1 Hcount1)
      as (p & h' & Hslot & Hstore & Hok').
    fold n in Hslot. rewrite Hslot. simpl. rewrite Hstore. simpl.
    do 2 eexists. split; [done |].
    unfold represents. cbn [chunks size]. split_and!; try done.
    + rewrite Hn'. done.
    + rewrite (store_length _ _ _ _ Hstore). unfold h1.
      rewrite !length_app. simpl. lia.
  - (* room in the last chunk *)
    assert (Z.of_nat (length (chunks v)) = ceil_div (n + 1) CHUNK_SIZE) as Hcount1.
    { rewrite ceil_div_partial by lia. done. }
    destruct (table_write CHUNK_SIZE CHUNK_SIZE_pos h _ vs x Hok Hcount1)
      as (p & h' & Hslot & Hstore & Hok').
    fold n in Hslot. rewrite Hslot. simpl. rewrite Hstore. simpl.
    do 2 eexists. split; [done |].
    unfold represents. cbn [chunks size]. split_and!; try done.
    + rewrite Hn'. done.
    + by rewrite (store_length _ _ _ _ Hstore).
Qed.

Lemma push_all_represents h0 values vs v h :
  represents CHUNK_SIZE h0 v h vs ->
  Z.of_nat (length vs + length values) <= SIZE_MAX ->
  exists v' h',
    push_all CHUNK_SIZE values v h = Some (v', h') /\
    represents CHUNK_SIZE h0 v' h' (vs ++ values).
Proof.
  revert vs v h. induction values as [| x values IH]; intros vs v h Hrep Hmax.
  - exists v, h. split; [done |]. by rewrite app_nil_r.
  - simpl in Hmax.
    destruct (push_back_represents h0 v h vs x Hrep ltac:(lia)) as (v1 & h1 & Hpush & Hrep1).
    destruct (IH (vs ++ [x]) v1 h1 Hrep1) as (v' & h' & Hall & Hrep').
    { rewrite length_app. simpl. lia. }
    exists v', h'. split.
    + simpl. unfold bind. rewrite Hpush. exact Hall.
    + by rewrite <- app_assoc in Hrep'.
Qed.

Lemma read_represents h0 v h vs i x :
  represents CHUNK_SIZE h0 v h vs ->
  vs !! i = Some x ->
  read CHUNK_SIZE (Z.of_nat i) v h = Some (x, h).
Proof.
  intros (_ & _ & _ & _ & _ & Hholds) Hx.
  destruct (Hholds i x Hx) as (p & Hslot & Hcell).
  unfold read, subscript, bind, defined. rewrite Hslot.
  by apply load_cell.
Qed.

End ChunkedVectorFacts.

(** ** The pool-backed chunked vector *)

Section PooledFacts.
Context {T : Type}.
Variable CHUNK_SIZE : Z.
Hypothesis CHUNK_SIZE_pos : 0 < CHUNK_SIZE.
Import ChunkedVectorPoolAllocation.
Implicit Types (v : ChunkedVectorPoolAllocation.t) (h : heap T) (vs : list T).
Implicit Types (a : PoolAllocator.t).

(** [push_back] without the monad. *)
Lemma pooled_push_back_unfold x v h :
  push_back CHUNK_SIZE x v h =
    r ← size_rem (size v) CHUNK_SIZE;
    '(cs, a, h1) ←
      (if r =? 0
       then '(c, a, h1) ← PoolAllocator.allocate CHUNK_SIZE (allocator v) h;
            Some (chunks v ++ [c], a, h1)
       else Some (chunks v, allocator v, h));
    p ← chunk_slot CHUNK_SIZE cs (size v);
    '(_, h') ← store p x h1;
    Some (ChunkedVectorPoolAllocation.Make cs (size_add (size v) 1) a, h').
Proof.
  unfold push_back, bind, defined, ret.
  destruct (size_rem (size v) CHUNK_SIZE) as [r|]; [| done]. simpl.
  destruct (r =? 0); simpl.
  - destruct (PoolAllocator.allocate _ _ _) as [[[c a] h1]|]; [| done]. simpl.
    destruct (chunk_slot _ _ _) as [p|]; [| done]. simpl.
    destruct (store _ _ _) as [[[] h']|]; done.
  - destruct (chunk_slot _ _ _) as [p|]; [| done]. simpl.
    destruct (store _ _ _) as [[[] h']|]; done.
Qed.

(** [allocate] never changes the capacity. *)
Lemma allocate_capacity n a h p a' h' :
  PoolAllocator.allocate n a h = Some (p, a', h') ->
  PoolAllocator.capacity a' = PoolAllocator.capacity a.
Proof.
  destruct (size_add (PoolAllocator.offset a) n >? PoolAllocator.capacity a) eqn:Hcmp.
  - rewrite (allocate_grows _ _ _ Hcmp). by intros [= _ <- _].
  - destruct (last (PoolAllocator.buffers a)) as [back|] eqn:Hback.
    + rewrite (allocate_fits _ _ _ _ Hcmp Hback). by intros [= _ <- _].
    + unfold PoolAllocator.allocate, bind, defined. rewrite Hcmp. simpl.
      by rewrite Hback.
Qed.

Lemma pooled_push_back_capacity x v h v' h' :
  push_back CHUNK_SIZE x v h = Some (v', h') ->
  PoolAllocator.capacity (allocator v') = PoolAllocator.capacity (allocator v).
Proof.
  rewrite pooled_push_back_unfold.
  destruct (size_rem (size v) CHUNK_SIZE) as [r|]; [| done]. simpl.
  destruct (r =? 0).
  - destruct (PoolAllocator.allocate _ _ _) as [[[c a] h1]|] eqn:Ha; [| done]. simpl.
    destruct (chunk_slot _ _ _) as [p|]; [| done]. simpl.
    destruct (store _ _ _) as [[[] h'']|]; [| done]. simpl.
    intros [= <- _]. simpl. by eapply allocate_capacity.
  - simpl. destruct (chunk_slot _ _ _) as [p|]; [| done]. simpl.
    destruct (store _ _ _) as [[[] h'']|]; [| done]. simpl.
    by intros [= <- _].
Qed.

Lemma pooled_push_all_capacity values v h v' h' :
  push_all CHUNK_SIZE values v h = Some (v', h') ->
  PoolAllocator.capacity (allocator v') = PoolAllocator.capacity (allocator v).
Proof.
  revert v h. induction values as [| x values IH]; intros v h.
  - by intros [= <- _].
  - simpl. unfold bind.
    destruct (push_back CHUNK_SIZE x v h) as [[v1 h1]|] eqn:Hpush; [| done].
    intros Hall. rewrite (IH _ _ Hall). by eapply pooled_push_back_capacity.
Qed.

(** A store keeps an allocator well-formed. *)
Lemma pool_wf_store a h h' p x :
  store p x h = Some (tt, h') -> pool_wf a h -> pool_wf a h'.
Proof.
  intros Hstore (Hcap & Hmax & Hoff & back & Hback & Hzero & Hlt & Hvalid).
  unfold pool_wf. split_and!; try done; try lia.
  exists back. split_and!; try done.
  - by rewrite (store_length _ _ _ _ Hstore).
  - intros k Hk. apply (store_valid_iff _ _ _ _ _ Hstore). auto.
Qed.

Lemma pooled_create_eq (h0 : heap T) :
  create h0 =
    Some (ChunkedVectorPoolAllocation.Make [] 0
            (PoolAllocator.Make [Ptr (length h0) 0] POOL_CAPACITY 0),
          h0 ++ [fresh_buffer POOL_CAPACITY]).
Proof. reflexivity. Qed.

Lemma pooled_create_represents (h0 : heap T) v h :
  create h0 = Some (v, h) -> pooled_represents CHUNK_SIZE v h [].
Proof.
  rewrite pooled_create_eq. intros [= <- <-].
  unfold pooled_represents. cbn [chunks size allocator].
  split_and!; [done | | apply empty_table_ok | | done | constructor].
  - unfold ceil_div. rewrite Z.div_small; simpl; lia.
  - apply create_wf. unfold POOL_CAPACITY, PTRDIFF_MAX. lia.
Qed.

(** From here on a chunk is assumed to fit a buffer of the pool. *)
Hypothesis CHUNK_SIZE_fits : CHUNK_SIZE <= POOL_CAPACITY.

Lemma ptr_add_add (p : ptr) i k : ptr_add (ptr_add p i) k = ptr_add p (i + k).
Proof. unfold ptr_add. simpl. f_equal. lia. Qed.

(** The carve for a new chunk is writable, apart from the chunks of the
    table, and behind the frontier of the allocator afterwards. *)
Lemma pooled_new_chunk v h vs c a1 h1 :
  table_ok CHUNK_SIZE h (chunks v) vs ->
  pool_wf (allocator v) h ->
  PoolAllocator.capacity (allocator v) = POOL_CAPACITY ->
  Forall (behind_frontier CHUNK_SIZE (allocator v)) (chunks v) ->
  allocate_step CHUNK_SIZE (allocator v) h c a1 h1 ->
  table_ok CHUNK_SIZE h1 (chunks v ++ [c]) vs /\
  Forall (behind_frontier CHUNK_SIZE a1) (chunks v ++ [c]).
Proof.
  intros Hok Hwf Hcap Hfront (Hcap1 & Hstep).
  pose proof Hok as (Hvalid & _ & _).
  destruct Hwf as (_ & _ & Hoff & back0 & Hback0 & Hzero0 & Hlt0 & Hbuf).
  destruct Hstep as [(back & Hback & Hfit & -> & Hbufs & Hoff1 & ->)
                    | (Hgrow & -> & Hbufs & Hoff1 & ->)].
  - assert (back = back0) as -> by congruence. split.
    + apply (table_extend CHUNK_SIZE CHUNK_SIZE_pos h h); [done | done | |].
      * intros k Hk. rewrite ptr_add_add. apply Hbuf. lia.
      * intros j c' k k' Hc' Hk Hk' Heq.
        pose proof (proj1 (Forall_lookup _ _) Hfront j c' Hc' back0 Hback0) as Hc.
        unfold ptr_add in Heq. simpl in Heq. injection Heq as Hblk Hofs.
        specialize (Hc (eq_sym Hblk)). lia.
    + apply Forall_app. split.
      * eapply Forall_impl; [exact Hfront |]. intros c' Hc' b Hb Hblk.
        rewrite Hbufs in Hb. specialize (Hc' b Hb Hblk). lia.
      * constructor; [| constructor]. intros b Hb Hblk. simpl. lia.
  - assert (forall j c', chunks v !! j = Some c' -> (p_block c' < length h)%nat) as Hold.
    { intros j c' Hc'.
      apply (valid_block_lt h (ptr_add c' 0)), (Hvalid j c' 0 Hc'). lia. }
    split.
    + apply (table_extend CHUNK_SIZE CHUNK_SIZE_pos h); [done | | |].
      * intros q o. apply cell_at_app.
      * intros k Hk. exists None. rewrite Hcap. apply cell_at_new.
        cbn [p_off]. lia.
      * intros j c' k k' Hc' Hk Hk' Heq.
        pose proof (Hold j c' Hc') as Hlt.
        unfold ptr_add in Heq. simpl in Heq. injection Heq as Hblk _. lia.
    + apply Forall_app. split.
      * apply Forall_lookup. intros j c' Hc' b Hb Hblk.
        rewrite Hbufs, last_snoc in Hb. injection Hb as <-.
        pose proof (Hold j c' Hc') as Hlt. simpl in Hblk. lia.
      * constructor; [| constructor]. intros b Hb Hblk. simpl. lia.
Qed.

Lemma pooled_push_back_represents v h vs x :
  pooled_represents CHUNK_SIZE v h vs ->
  Z.of_nat (length vs) < SIZE_MAX ->
  exists v' h',
    push_back CHUNK_SIZE x v h = Some (v', h') /\
    pooled_represents CHUNK_SIZE v' h' (vs ++ [x]).
Proof.
  intros (Hsize & Hcount & Hok & Hwf & Hcap & Hfront) Hmax.
  set (n := Z.of_nat (length vs)) in *.
  assert (Z.of_nat (length (vs ++ [x])) = n + 1) as Hn'
    by (rewrite length_app; simpl; lia).
  assert (size_add n 1 = n + 1) as Hsize'.
  { rewrite size_add_exact; [lia |]. unfold is_size_t. lia. }
  rewrite pooled_push_back_unfold. unfold size_rem.
  destruct (CHUNK_SIZE =? 0) eqn:Hz; [lia |]. simpl. rewrite Hsize in *.
  destruct (n mod CHUNK_SIZE =? 0) eqn:Hfull.
  - (* a new chunk, carved from the pool *)
    destruct (allocate_wf CHUNK_SIZE (allocator v) h Hwf ltac:(lia))
      as (c & a1 & h1 & Ha & Hwf1 & Hstep).
    rewrite Ha. simpl.
    destruct (pooled_new_chunk v h vs c a1 h1 Hok Hwf Hcap Hfront Hstep)
      as (Hok1 & Hfront1).
    assert (Z.of_nat (length (chunks v ++ [c])) = ceil_div (n + 1) CHUNK_SIZE) as Hcount1.
    { rewrite length_app. simpl. rewrite ceil_div_succ by lia.
      rewrite ceil_div_full in Hcount by lia. lia. }
    destruct (table_write CHUNK_SIZE CHUNK_SIZE_pos h1 _ vs x Hok1 Hcount1)
      as (p & h' & Hslot & Hstore & Hok').
    fold n in Hslot. rewrite Hslot. simpl. rewrite Hstore. simpl.
    do 2 eexists. split; [reflexivity |].
    unfold pooled_represents. cbn [chunks size allocator].
    split_and!; [lia | by rewrite Hn' | done | | | done].
    + by apply (pool_wf_store _ _ _ _ _ Hstore).
    + destruct Hstep as (-> & _). done.
  - (* room in the last chunk *)
    simpl.
    assert (Z.of_nat (length (chunks v)) = ceil_div (n + 1) CHUNK_SIZE) as Hcount1.
    { rewrite ceil_div_partial by lia. done. }
    destruct (table_write CHUNK_SIZE CHUNK_SIZE_pos h _ vs x Hok Hcount1)
      as (p & h' & Hslot & Hstore & Hok').
    fold n in Hslot. rewrite Hslot. simpl. rewrite Hstore. simpl.
    do 2 eexists. split; [reflexivity |].
    unfold pooled_represents. cbn [chunks size allocator].
    split_and!; [lia | by rewrite Hn' | done | | done | done].
    by apply (pool_wf_store _ _ _ _ _ Hstore).
Qed.

Lemma pooled_push_all_represents values vs v h :
  pooled_represents CHUNK_SIZE v h vs ->
  Z.of_nat (length vs + length values) <= SIZE_MAX ->
  exists v' h',
    push_all CHUNK_SIZE values v h = Some (v', h') /\
    pooled_represents CHUNK_SIZE v' h' (vs ++ values).
Proof.
  revert vs v h. induction values as [| x values IH]; intros vs v h Hrep Hmax.
  - exists v, h. split; [done |]. by rewrite app_nil_r.
  - simpl in Hmax.
    destruct (pooled_push_back_represents v h vs x Hrep ltac:(lia))
      as (v1 & h1 & Hpush & Hrep1).
    destruct (IH (vs ++ [x]) v1 h1 Hrep1) as (v' & h' & Hall & Hrep').
    { rewrite length_app. simpl. lia. }
    exists v', h'. split.
    + simpl. unfold bind. rewrite Hpush. exact Hall.
    + by rewrite <- app_assoc in Hrep'.
Qed.

Lemma pooled_build_represents values (h0 : heap T) :
  Z.of_nat (length values) <= SIZE_MAX ->
  exists v h,
    build CHUNK_SIZE values h0 = Some (v, h) /\
    pooled_represents CHUNK_SIZE v h values.
Proof.
  intros Hmax. unfold build, bind. rewrite pooled_create_eq.
  apply (pooled_push_all_represents values []); [| done].
  apply (pooled_create_represents h0). apply pooled_create_eq.
Qed.

Lemma pooled_read_represents v h vs i x :
  pooled_represents CHUNK_SIZE v h vs ->
  vs !! i = Some x ->
  read CHUNK_SIZE (Z.of_nat i) v h = Some (x, h).
Proof.
  intros (_ & _ & (_ & _ & Hholds) & _) Hx.
  destruct (Hholds i x Hx) as (p & Hslot & Hcell).
  unfold read, subscript, bind, defined. rewrite Hslot.
  by apply load_cell.
Qed.

End PooledFacts.

(** ** The statements about the chunked sequences *)

Section ChunkedSequences.
Context {T : Type}.
Variable CHUNK_SIZE : Z.
Implicit Types (values : list T) (h : heap T).

(** Claim C1, as amended.  After the values of any list are appended in
    order to a chunked sequence, plain or pool-backed, [get_size()] is the
    number of values and reading [v[i]] gives the value of the [i]-th
    call, for every [i] below that number.  The chunk size is positive
    and, for the pool-backed variant, at most the capacity of a pool
    buffer, 2048; the number of values is a [size_t]. *)
Theorem push_back_then_read values h0 :
  0 < CHUNK_SIZE ->
  Z.of_nat (length values) <= SIZE_MAX ->
  (exists v h,
     ChunkedVector.push_all CHUNK_SIZE values ChunkedVector.create h0 = Some (v, h) /\
     ChunkedVector.get_size v = Z.of_nat (length values) /\
     forall i x, values !! i = Some x ->
       ChunkedVector.read CHUNK_SIZE (Z.of_nat i) v h = Some (x, h))
  /\
  (CHUNK_SIZE <= ChunkedVectorPoolAllocation.POOL_CAPACITY ->
   exists v h,
     ChunkedVectorPoolAllocation.build CHUNK_SIZE values h0 = Some (v, h) /\
     ChunkedVectorPoolAllocation.get_size v = Z.of_nat (length values) /\
     forall i x, values !! i = Some x ->
       ChunkedVectorPoolAllocation.read CHUNK_SIZE (Z.of_nat i) v h = Some (x, h)).
Proof.
  intros Hpos Hmax. split.
  - destruct (push_all_represents CHUNK_SIZE Hpos h0 values [] _ h0
                (create_represents CHUNK_SIZE Hpos h0) Hmax)
      as (v & h & Hall & Hrep).
    exists v, h. split; [done |]. split; [by destruct Hrep |].
    intros i x Hx. by apply (read_represents CHUNK_SIZE h0 v h values).
  - intros Hfits.
    destruct (pooled_build_represents CHUNK_SIZE Hpos Hfits values h0 Hmax)
      as (v & h & Hbuild & Hrep).
    exists v, h. split; [done |]. split; [by destruct Hrep |].
    intros i x Hx. by apply (pooled_read_represents CHUNK_SIZE v h values).
Qed.

(** Claim C5, as amended.  After the values of any list are appended to
    a chunked sequence, its chunk table has [ceil(N / CHUNK_SIZE)]
    entries, [N] being the number of values, and none when there is no
    value.  The plain variant has made exactly that many [new[]] blocks.
    In the pool-backed variant, for a chunk size of at most the capacity
    of a pool buffer, the entries are that many chunks in fact: each is a
    carve of [CHUNK_SIZE] elements that can be written, and no two of
    them share an element. *)
Theorem chunks_created values h0 :
  0 < CHUNK_SIZE ->
  Z.of_nat (length values) <= SIZE_MAX ->
  (exists v h,
     ChunkedVector.push_all CHUNK_SIZE values ChunkedVector.create h0 = Some (v, h) /\
     Z.of_nat (length (ChunkedVector.chunks v)) =
       ceil_div (Z.of_nat (length values)) CHUNK_SIZE /\
     length h = (length h0 + length (ChunkedVector.chunks v))%nat /\
     (values = [] -> ChunkedVector.chunks v = []))
  /\
  (CHUNK_SIZE <= ChunkedVectorPoolAllocation.POOL_CAPACITY ->
   exists v h,
     ChunkedVectorPoolAllocation.build CHUNK_SIZE values h0 = Some (v, h) /\
     Z.of_nat (length (ChunkedVectorPoolAllocation.chunks v)) =
       ceil_div (Z.of_nat (length values)) CHUNK_SIZE /\
     (values = [] -> ChunkedVectorPoolAllocation.chunks v = []) /\
     chunks_valid CHUNK_SIZE h (ChunkedVectorPoolAllocation.chunks v) /\
     chunks_apart CHUNK_SIZE (ChunkedVectorPoolAllocation.chunks v)).
Proof.
  intros Hpos Hmax.
  assert (ceil_div (Z.of_nat (@length T [])) CHUNK_SIZE = 0) as Hzero
    by (unfold ceil_div; rewrite Z.div_small; simpl; lia).
  split.
  - destruct (push_all_represents CHUNK_SIZE Hpos h0 values [] _ h0
                (create_represents CHUNK_SIZE Hpos h0) Hmax)
      as (v & h & Hall & Hrep).
    destruct Hrep as (_ & Hcount & Hlen & _). simpl in Hcount.
    exists v, h. split_and!; try done.
    intros ->. rewrite Hzero in Hcount. by destruct (ChunkedVector.chunks v).
  - intros Hfits.
    destruct (pooled_build_represents CHUNK_SIZE Hpos Hfits values h0 Hmax)
      as (v & h & Hbuild & Hrep).
    destruct Hrep as (_ & Hcount & (Hvalid & Hapart & _) & _).
    exists v, h. split_and!; try done.
    intros ->. rewrite Hzero in Hcount.
    by destruct (ChunkedVectorPoolAllocation.chunks v).
Qed.

(** Claim C4, as amended.  For every list of appended values the
    pool-backed chunked sequence and the plain one report the same
    [get_size()], and reading any index below it gives the same element in
    both.  The chunk size is positive and at most the capacity of a pool
    buffer, 2048. *)
Theorem pooled_agrees_with_plain values h0 h0' :
  0 < CHUNK_SIZE <= ChunkedVectorPoolAllocation.POOL_CAPACITY ->
  Z.of_nat (length values) <= SIZE_MAX ->
  exists v h vp hp,
    ChunkedVector.push_all CHUNK_SIZE values ChunkedVector.create h0 = Some (v, h) /\
    ChunkedVectorPoolAllocation.build CHUNK_SIZE values h0' = Some (vp, hp) /\
    ChunkedVectorPoolAllocation.get_size vp = ChunkedVector.get_size v /\
    forall i, 0 <= i < ChunkedVector.get_size v ->
      exists x,
        ChunkedVector.read CHUNK_SIZE i v h = Some (x, h) /\
        ChunkedVectorPoolAllocation.read CHUNK_SIZE i vp hp = Some (x, hp).
Proof.
  intros [Hpos Hfits] Hmax.
  destruct (push_all_represents CHUNK_SIZE Hpos h0 values [] _ h0
              (create_represents CHUNK_SIZE Hpos h0) Hmax)
    as (v & h & Hall & Hrep).
  destruct (pooled_build_represents CHUNK_SIZE Hpos Hfits values h0' Hmax)
    as (vp & hp & Hbuild & Hrepp).
  exists v, h, vp, hp. split; [done |]. split; [done |].
  assert (ChunkedVector.get_size v = Z.of_nat (length values)) as Hsize
    by (by destruct Hrep).
  split.
  - rewrite Hsize. by destruct Hrepp.
  - rewrite Hsize. intros i Hi.
    destruct (lookup_lt_is_Some_2 values (Z.to_nat i) ltac:(lia)) as [x Hx].
    exists x. rewrite <- (Z2Nat.id i) by lia. split.
    + by apply (read_represents CHUNK_SIZE h0 v h values).
    + by apply (pooled_read_represents CHUNK_SIZE vp hp values).
Qed.

End ChunkedSequences.

(** *** The reference scenario: ten appends with [CHUNK_SIZE = 4] *)

Lemma zero_to_nine_size : Z.of_nat (length zero_to_nine) <= SIZE_MAX.
Proof. vm_compute. discriminate. Defined.

Lemma push_back_then_read_witness :
  0 < 4 /\
  Z.of_nat (length zero_to_nine) <= SIZE_MAX /\
  4 <= ChunkedVectorPoolAllocation.POOL_CAPACITY /\
  (exists v h,
     ChunkedVector.push_all 4 zero_to_nine ChunkedVector.create [] = Some (v, h) /\
     ChunkedVector.get_size v = 10 /\
     ChunkedVector.read 4 7 v h = Some (7, h) /\
     ChunkedVector.read 4 9 v h = Some (9, h)) /\
  (exists v h,
     ChunkedVectorPoolAllocation.build 4 zero_to_nine [] = Some (v, h) /\
     ChunkedVectorPoolAllocation.get_size v = 10 /\
     ChunkedVectorPoolAllocation.read 4 7 v h = Some (7, h) /\
     ChunkedVectorPoolAllocation.read 4 9 v h = Some (9, h)).
Proof.
  assert (0 < 4) as Hpos by lia.
  assert (4 <= ChunkedVectorPoolAllocation.POOL_CAPACITY) as Hfits
    by (unfold ChunkedVectorPoolAllocation.POOL_CAPACITY; lia).
  destruct (push_back_then_read 4 zero_to_nine [] Hpos zero_to_nine_size)
    as [(v & h & Hall & Hsize & Hread) Hpooled].
  destruct (Hpooled Hfits) as (vp & hp & Hbuild & Hsizep & Hreadp).
  split; [exact Hpos |]. split; [exact zero_to_nine_size |]. split; [exact Hfits |].
  split.
  - exists v, h. split; [exact Hall |]. split; [exact Hsize |].
    split; [exact (Hread 7%nat 7 eq_refl) | exact (Hread 9%nat 9 eq_refl)].
  - exists vp, hp. split; [exact Hbuild |]. split; [exact Hsizep |].
    split; [exact (Hreadp 7%nat 7 eq_refl) | exact (Hreadp 9%nat 9 eq_refl)].
Defined.

Lemma chunks_created_witness :
  0 < 4 /\
  Z.of_nat (length zero_to_nine) <= SIZE_MAX /\
  4 <= ChunkedVectorPoolAllocation.POOL_CAPACITY /\
  ceil_div (Z.of_nat (length zero_to_nine)) 4 = 3 /\
  (exists v h,
     ChunkedVector.push_all 4 zero_to_nine ChunkedVector.create [] = Some (v, h) /\
     Z.of_nat (length (ChunkedVector.chunks v)) = 3 /\
     length h = length (ChunkedVector.chunks v)) /\
  (exists v h,
     ChunkedVectorPoolAllocation.build 4 zero_to_nine [] = Some (v, h) /\
     Z.of_nat (length (ChunkedVectorPoolAllocation.chunks v)) = 3).
Proof.
  assert (0 < 4) as Hpos by lia.
  assert (4 <= ChunkedVectorPoolAllocation.POOL_CAPACITY) as Hfits
    by (unfold ChunkedVectorPoolAllocation.POOL_CAPACITY; lia).
  destruct (chunks_created 4 zero_to_nine [] Hpos zero_to_nine_size)
    as [(v & h & Hall & Hcount & Hlen & _) Hpooled].
  destruct (Hpooled Hfits) as (vp & hp & Hbuild & Hcountp & _).
  split; [exact Hpos |]. split; [exact zero_to_nine_size |]. split; [exact Hfits |].
  split; [reflexivity |]. split.
  - exists v, h. split; [exact Hall |]. split; [exact Hcount | exact Hlen].
  - exists vp, hp. split; [exact Hbuild | exact Hcountp].
Defined.

Lemma pooled_agrees_with_plain_witness :
  0 < 4 <= ChunkedVectorPoolAllocation.POOL_CAPACITY /\
  Z.of_nat (length zero_to_nine) <= SIZE_MAX /\
  exists v h vp hp,
    ChunkedVector.push_all 4 zero_to_nine ChunkedVector.create [] = Some (v, h) /\
    ChunkedVectorPoolAllocation.build 4 zero_to_nine [] = Some (vp, hp) /\
    ChunkedVectorPoolAllocation.get_size vp = ChunkedVector.get_size v /\
    forall i, 0 <= i < ChunkedVector.get_size v ->
      exists x,
        ChunkedVector.read 4 i v h = Some (x, h) /\
        ChunkedVectorPoolAllocation.read 4 i vp hp = Some (x, hp).
Proof.
  assert (0 < 4 <= ChunkedVectorPoolAllocation.POOL_CAPACITY) as Hcs
    by (unfold ChunkedVectorPoolAllocation.POOL_CAPACITY; lia).
  split; [exact Hcs |]. split; [exact zero_to_nine_size |].
  exact (pooled_agrees_with_plain 4 zero_to_nine [] [] Hcs zero_to_nine_size).
Defined.

(** *** A chunk size above the capacity of a pool buffer

    [ChunkedVectorPoolAllocation<int, 3000>]: the allocator member is
    [PoolAllocator<int>{2048}] whatever the chunk size.  The first append
    calls [allocate(3000)], which makes a second buffer of 2048 elements
    and returns its start as the chunk.  The runs below append the value
    7 again and again. *)

Lemma pooled_3000_one_append :
  ChunkedVectorPoolAllocation.build 3000 [7] ([] : heap Z) =
    Some (ChunkedVectorPoolAllocation.Make [Ptr 1 0] 1
            (PoolAllocator.Make [Ptr 0 0; Ptr 1 0] 2048 3000),
          [fresh_buffer 2048; Block true (Some 7 :: replicate 2047 None)]).
Proof. vm_compute. reflexivity. Qed.

Lemma pooled_3000_buffer_full :
  ChunkedVectorPoolAllocation.build 3000 (replicate 2048 7) ([] : heap Z) =
    Some (ChunkedVectorPoolAllocation.Make [Ptr 1 0] 2048
            (PoolAllocator.Make [Ptr 0 0; Ptr 1 0] 2048 3000),
          [fresh_buffer 2048; Block true (replicate 2048 (Some 7))]).
Proof. vm_compute. reflexivity. Qed.

Lemma pooled_3000_overrun :
  ChunkedVectorPoolAllocation.build 3000 (replicate 2049 7) ([] : heap Z) = None.
Proof. vm_compute. reflexivity. Qed.

Lemma plain_3000_run :
  ChunkedVector.push_all 3000 (replicate 2049 7) ChunkedVector.create ([] : heap Z) =
    Some (ChunkedVector.Make [Ptr 0 0] 2049,
          [Block true (replicate 2049 (Some 7) ++ replicate 951 None)]).
Proof. vm_compute. reflexivity. Qed.

(** Claim C1 fails as stated for the pool-backed variant when
    [CHUNK_SIZE] exceeds the 2048 elements of a pool buffer.  With
    [CHUNK_SIZE = 3000], 2048 appends fill the buffer the one chunk was
    carved from; the next append writes [chunks[0][2048]], past its end,
    which has no defined result: there is no state after 2049 appends, and
    no [get_size()] that is 2049. *)
Lemma pooled_append_past_buffer :
  exists v h,
    ChunkedVectorPoolAllocation.build 3000 (replicate 2048 7) ([] : heap Z) = Some (v, h) /\
    ChunkedVectorPoolAllocation.get_size v = 2048 /\
    ChunkedVectorPoolAllocation.push_back 3000 7 v h = None /\
    ChunkedVectorPoolAllocation.build 3000 (replicate 2049 7) ([] : heap Z) = None.
Proof.
  eexists _, _. split; [exact pooled_3000_buffer_full |].
  split; [reflexivity |]. split; [vm_compute; reflexivity | exact pooled_3000_overrun].
Qed.

(** Claim C4 fails as stated for such a chunk size: on the same 2049
    appends the plain variant succeeds, reports the size 2049 and reads 7
    at index 2048, and the pool-backed variant has no defined result. *)
Lemma pooled_differs_from_plain :
  exists v h,
    ChunkedVector.push_all 3000 (replicate 2049 7) ChunkedVector.create ([] : heap Z) =
      Some (v, h) /\
    ChunkedVector.get_size v = 2049 /\
    ChunkedVector.read 3000 2048 v h = Some (7, h) /\
    ChunkedVectorPoolAllocation.build 3000 (replicate 2049 7) ([] : heap Z) = None.
Proof.
  eexists _, _. split; [exact plain_3000_run |].
  split; [reflexivity |]. split; [vm_compute; reflexivity | exact pooled_3000_overrun].
Qed.

(** Claim C5 fails as stated for the pool-backed variant with such a
    chunk size.  For 2049 appends [ceil(2049 / 3000)] is 1, but the
    entry that the first append puts in the chunk table is not a chunk of
    3000 elements: its element 2047 is the last one of the buffer, there
    is no element 2048, and with 2049 appends there is no table to
    count. *)
Lemma pooled_chunk_short_of_chunk_size :
  ceil_div 2049 3000 = 1 /\
  (exists v h c,
     ChunkedVectorPoolAllocation.build 3000 [7] ([] : heap Z) = Some (v, h) /\
     ChunkedVectorPoolAllocation.chunks v = [c] /\
     cell_at h (ptr_add c 2047) = Some None /\
     cell_at h (ptr_add c 2048) = None) /\
  ChunkedVectorPoolAllocation.build 3000 (replicate 2049 7) ([] : heap Z) = None.
Proof.
  split; [reflexivity |]. split; [| exact pooled_3000_overrun].
  eexists _, _, _. split; [exact pooled_3000_one_append |].
  split; [reflexivity |]. split; vm_compute; reflexivity.
Qed.

(** The scenario evaluated: three chunks, each a block of its own. *)
Example plain_scenario :
  ChunkedVector.push_all 4 zero_to_nine ChunkedVector.create [] =
    Some (ChunkedVector.Make [Ptr 0 0; Ptr 1 0; Ptr 2 0] 10,
          [Block true [Some 0; Some 1; Some 2; Some 3];
           Block true [Some 4; Some 5; Some 6; Some 7];
           Block true [Some 8; Some 9; None; None]]).
Proof. vm_compute. reflexivity. Qed.

(** ** The capacity of the pool behind a pool-backed sequence *)

Lemma divides_2048_iff (c : Z) :
  0 < c -> (c | 2048) <-> c ∈ powers_of_two.
Proof.
  intros Hc. split.
  - intros Hdiv.
    assert (c <= 2048) as Hle by (apply Z.divide_pos_le; [lia | done]).
    assert (forallb (fun d => implb (2048 mod d =? 0) (bool_decide (d ∈ powers_of_two)))
                    (seqZ 1 2048) = true) as Hall
      by (vm_compute; reflexivity).
    pose proof (proj1 (forallb_forall _ _) Hall c) as Hc'.
    rewrite <- list_elem_of_In, elem_of_seqZ in Hc'. specialize (Hc' ltac:(lia)).
    apply Z.mod_divide in Hdiv; [| lia]. rewrite Hdiv in Hc'. simpl in Hc'.
    by apply bool_decide_eq_true_1 in Hc'.
  - intros Hin.
    assert (Forall (fun d => 2048 mod d = 0) powers_of_two) as Hall
      by (repeat constructor).
    apply Z.mod_divide; [lia |].
    apply (proj1 (Forall_forall _ _) Hall c Hin).
Qed.

(** Claim C8, as amended.  Whatever the [CHUNK_SIZE], the allocator held by
    a pool-backed chunked sequence has capacity 2048, from construction on
    and after any appends; this capacity is a whole multiple of
    [CHUNK_SIZE] exactly when [CHUNK_SIZE] is a power of two up to 2048, as
    the default 64 is. *)
Theorem pool_capacity_multiple_iff {T : Type} (CHUNK_SIZE : Z) (h0 : heap T) :
  0 < CHUNK_SIZE ->
  (exists v0 h1,
     ChunkedVectorPoolAllocation.create h0 = Some (v0, h1) /\
     PoolAllocator.capacity (ChunkedVectorPoolAllocation.allocator v0) = 2048) /\
  (forall values v h,
     ChunkedVectorPoolAllocation.build CHUNK_SIZE values h0 = Some (v, h) ->
     PoolAllocator.capacity (ChunkedVectorPoolAllocation.allocator v) = 2048 /\
     ((CHUNK_SIZE | PoolAllocator.capacity (ChunkedVectorPoolAllocation.allocator v)) <->
      CHUNK_SIZE ∈ powers_of_two)) /\
  64 ∈ powers_of_two.
Proof.
  intros Hpos. split_and!.
  - rewrite pooled_create_eq. do 2 eexists. split; reflexivity.
  - intros values v h. unfold ChunkedVectorPoolAllocation.build, bind.
    rewrite pooled_create_eq. intros Hall.
    apply pooled_push_all_capacity in Hall. cbn in Hall.
    rewrite Hall. split; [reflexivity |].
    by apply divides_2048_iff.
  - unfold powers_of_two. do 6 apply list_elem_of_further. apply list_elem_of_here.
Qed.

Lemma pool_capacity_multiple_iff_witness :
  0 < 64 /\
  (exists v0 h1,
     ChunkedVectorPoolAllocation.create (T := Z) [] = Some (v0, h1) /\
     PoolAllocator.capacity (ChunkedVectorPoolAllocation.allocator v0) = 2048) /\
  (forall values v h,
     ChunkedVectorPoolAllocation.build (T := Z) 64 values [] = Some (v, h) ->
     PoolAllocator.capacity (ChunkedVectorPoolAllocation.allocator v) = 2048 /\
     ((64 | PoolAllocator.capacity (ChunkedVectorPoolAllocation.allocator v)) <->
      64 ∈ powers_of_two)) /\
  64 ∈ powers_of_two.
Proof.
  assert (0 < 64) as Hpos by lia.
  split; [exact Hpos |].
  exact (pool_capacity_multiple_iff 64 [] Hpos).
Defined.

(** Claim C8 fails as stated: instantiated with [CHUNK_SIZE = 100], the
    sequence still holds an allocator of capacity 2048, which is not a
    multiple of 100. *)
Lemma pool_capacity_not_multiple_of_100 :
  let v := ChunkedVectorPoolAllocation.Make [Ptr 0 0] 1
             (PoolAllocator.Make [Ptr 0 0] 2048 100) in
  let h : heap Z := [Block true (<[0%nat := Some 7]> (replicate 2048 None))] in
  ChunkedVectorPoolAllocation.build 100 [7] [] = Some (v, h) /\
  PoolAllocator.capacity (ChunkedVectorPoolAllocation.allocator v) = 2048 /\
  ~ (100 | PoolAllocator.capacity (ChunkedVectorPoolAllocation.allocator v)).
Proof.
  split_and!.
  - vm_compute. reflexivity.
  - reflexivity.
  - simpl. intros [k Hk]. lia.
Qed.

(** ** The benchmark drivers *)

Section Loops.
Context {S : Type}.
Variable cond : S -> bool.
Variable body : S -> outcome S.

(** A loop that finishes leaves a state where its condition is false, and
    keeps what its body keeps. *)
Lemma while_loop_finished (I : S -> Prop) fuel s s' :
  (forall s1 s2, I s1 -> cond s1 = true -> body s1 = Finished s2 -> I s2) ->
  I s ->
  while_loop fuel cond body s = Finished s' ->
  I s' /\ cond s' = false.
Proof.
  intros Hstep. revert s. induction fuel as [| fuel IH]; intros s Hs; simpl.
  - discriminate.
  - destruct (cond s) eqn:Hc.
    + destruct (body s) as [s1 | |] eqn:Hb; simpl; try discriminate.
      apply IH. by apply (Hstep s s1).
    + intros [= <-]. done.
Qed.

(** A loop whose condition stays true under its body never finishes,
    whatever the bound on its iterations. *)
Lemma while_loop_never_finishes (I : S -> Prop) fuel s :
  (forall s1, I s1 -> cond s1 = true) ->
  (forall s1 s2, I s1 -> body s1 = Finished s2 -> I s2) ->
  I s ->
  forall s', while_loop fuel cond body s <> Finished s'.
Proof.
  intros Hcond Hstep. revert s. induction fuel as [| fuel IH]; intros s Hs s'; simpl.
  - discriminate.
  - rewrite (Hcond s Hs).
    destruct (body s) as [s1 | |] eqn:Hb; simpl; try discriminate.
    apply IH. by apply (Hstep s s1).
Qed.

(** A loop whose first iteration does not finish does not finish. *)
Lemma while_loop_first_iteration fuel s :
  cond s = true ->
  (forall s1, body s <> Finished s1) ->
  forall s', while_loop fuel cond body s <> Finished s'.
Proof.
  intros Hc Hb s'. destruct fuel as [| fuel]; simpl; [discriminate |].
  rewrite Hc. destruct (body s) as [s1 | |] eqn:Hbs; simpl; try discriminate.
  by destruct (Hb s1).
Qed.

End Loops.

Lemma andThen_not_finished {A B} (o : outcome A) (k : A -> outcome B) :
  (forall a, o <> Finished a) -> forall b, andThen o k <> Finished b.
Proof. intros Ho b. destruct o as [a | |]; simpl; try discriminate. by destruct (Ho a). Qed.

Section BenchmarkFacts.
Import Benchmarks.

(** When the fill loop of [benchmarkStdVector] finishes, the vector has
    [n] elements. *)
Lemma fill_std_length fuel n k v :
  is_size_t n ->
  fill_std fuel n = Finished (k, v) ->
  Z.of_nat (length v) = n.
Proof.
  intros Hn Hfill. unfold fill_std in Hfill.
  apply (while_loop_finished _ _
           (fun s => Z.of_nat (length (snd s)) = fst s /\ 0 <= fst s <= n)) in Hfill.
  - destruct Hfill as [[Hlen Hk] Hexit]. cbn [fst snd] in *.
    apply Z.ltb_ge in Hexit. lia.
  - intros [k1 v1] [k2 v2] [Hlen Hk] Hlt [= <- <-]. cbn [fst snd] in *.
    apply Z.ltb_lt in Hlt.
    rewrite size_add_exact by (unfold is_size_t, SIZE_MAX in *; lia).
    rewrite length_app. simpl. lia.
  - simpl. unfold is_size_t in Hn. lia.
Qed.

(** The scan loop of [benchmarkStdVector] tests [k] and advances [i]: on a
    vector that is not empty it does not finish, whatever the bound on its
    iterations.  It stops only by reading [v[i]] past the end. *)
Lemma scan_std_never_finishes fuel v i :
  v <> [] ->
  forall s, scan_std fuel v i <> Finished s.
Proof.
  intros Hv. unfold scan_std.
  apply (while_loop_never_finishes _ _ (fun s => snd (fst s) = 0)).
  - intros [[i1 k1] sum1] Hk. cbn [fst snd] in *. subst k1.
    apply Z.ltb_lt. destruct v; [done |]. simpl. lia.
  - intros [[i1 k1] sum1] [[i2 k2] sum2] Hk. simpl in *.
    destruct (v !! Z.to_nat i1) as [x|]; simpl; [| discriminate].
    destruct (add_long_long sum1 x) as [sum'|]; simpl; [| discriminate].
    by intros [= _ <- _].
  - done.
Qed.

Lemma benchmarkStdVector_never_finishes fuel n repeat :
  is_size_t n -> 0 < n -> 0 < to_size_t repeat ->
  forall sums, benchmarkStdVector fuel n repeat <> Finished sums.
Proof.
  intros Hn Hpos Hrep. unfold benchmarkStdVector.
  apply andThen_not_finished. apply while_loop_first_iteration.
  - cbn [fst]. by apply Z.ltb_lt.
  - intros s1. destruct (fill_std fuel n) as [[k v] | |] eqn:Hfill; simpl; try discriminate.
    apply andThen_not_finished. apply scan_std_never_finishes.
    apply fill_std_length in Hfill; [| done]. destruct v; [simpl in Hfill; lia | done].
Qed.

(** Claim C7 does not hold of the code.  Whatever bound is put on the
    iterations of its loops, and whatever [repeat] stands for in
    [benchmarkChunkedVectorPooled], [main] does not run to its [return 0]:
    its first call, [benchmarkStdVector(5000000)], never leaves its scan
    loop [for (size_t k = 0; k < v.size(); i++) sum += v[i]]. *)
Theorem main_never_returns fuel repeat_pooled :
  forall status, main fuel repeat_pooled <> Finished status.
Proof.
  unfold main. apply andThen_not_finished. unfold testSizes.
  cbn [run_sizes]. apply andThen_not_finished.
  apply benchmarkStdVector_never_finishes.
  - unfold is_size_t, SIZE_MAX. lia.
  - lia.
  - unfold DEFAULT_REPEAT, to_size_t. rewrite Z.mod_small; lia.
Qed.

(** The smallest failing run: one element, one repetition.  The scan reads
    [v[0]], advances [i] to 1 with [k] still 0, and then reads [v[1]], past
    the end of the vector. *)
Example benchmarkStdVector_one_element :
  benchmarkStdVector 1 1 1 = OutOfFuel /\
  benchmarkStdVector 2 1 1 = Undefined /\
  benchmarkStdVector 100 1 1 = Undefined.
Proof. split_and!; vm_compute; reflexivity. Qed.

(** The scan loop of [benchmarkChunkedVector] advances [k]: on the same
    workload its fill loop and its scan loop finish.  The driver then
    updates [bestTime], which holds no value. *)
Example benchmarkChunkedVector_one_element :
  fill_chunked 3 1 [] =
    Finished (1, ChunkedVector.Make [Ptr 0 0] 1,
              [Block true (Some 0 :: replicate 63 None)]) /\
  scan_chunked 3 (ChunkedVector.Make [Ptr 0 0] 1)
    [Block true (Some 0 :: replicate 63 None)] = Finished (1, 0) /\
  benchmarkChunkedVector 3 1 1 [] = Undefined.
Proof. split_and!; vm_compute; reflexivity. Qed.

(** A hundred elements: the fill and scan loops of both chunked drivers
    finish, with the sum of 0 to 99. *)
Example chunked_scans_finish :
  andThen (fill_chunked 102 100 [])
    (fun kvh => scan_chunked 102 (snd (fst kvh)) (snd kvh)) = Finished (100, 4950) /\
  andThen (of_option (ChunkedVectorPoolAllocation.create []))
    (fun v0h => andThen (fill_pooled 102 100 (fst v0h) (snd v0h))
    (fun kvh => scan_pooled 102 (snd (fst kvh)) (snd kvh))) = Finished (100, 4950).
Proof. split; vm_compute; reflexivity. Qed.

End BenchmarkFacts.

(** ** The particle layouts *)

Lemma vector_assign_Some {A} (vec : list A) (i : nat) (a : A) :
  (i < length vec)%nat ->
  vector_assign vec (Z.of_nat i) a = Some (<[i := a]> vec).
Proof.
  intros Hi. unfold vector_assign.
  destruct (0 <=? Z.of_nat i) eqn:H0; [| lia].
  destruct (Z.of_nat i <? Z.of_nat (length vec)) eqn:H1; [| lia].
  simpl. by rewrite Nat2Z.id.
Qed.

Section ParticleFacts.
Variables float double : Type.
Variable float_to_double : float -> double.
Variable float_zero : float.
Variable mt19937_64 : Type.
Variable seeded : Z -> mt19937_64.
Variable dist : mt19937_64 -> float * mt19937_64.

Local Abbreviation fill_aos' := (fill_aos float double float_to_double mt19937_64 dist).
Local Abbreviation fill_soa' := (fill_soa float mt19937_64 dist).

(** The two initialisation loops in step: from the same generator state,
    with the first [length aos] particles already the same. *)
Lemma fill_in_step count : forall rng aos soa,
  soa_length soa (length aos + count) ->
  Z.of_nat (length aos + count) <= SIZE_MAX ->
  same_particles float_to_double aos soa ->
  exists soa' rng' aos',
    fill_soa' count (Z.of_nat (length aos)) rng soa = Some (soa', rng') /\
    fill_aos' count rng aos = (aos', rng') /\
    length aos' = (length aos + count)%nat /\
    soa_length soa' (length aos + count) /\
    same_particles float_to_double aos' soa'.
Proof.
  induction count as [| count IH]; intros rng aos soa Hlen Hmax Hsame.
  - exists soa, rng, aos. rewrite Nat.add_0_r in *. done.
  - destruct Hlen as (Hx & Hy & Hz & Hm). simpl.
    destruct (dist rng) as [a rng1].
    rewrite vector_assign_Some by lia. simpl.
    destruct (dist rng1) as [b rng2].
    rewrite vector_assign_Some by lia. simpl.
    destruct (dist rng2) as [c rng3].
    rewrite vector_assign_Some by lia. simpl.
    destruct (dist rng3) as [d rng4].
    rewrite vector_assign_Some by lia. simpl.
    set (i := length aos) in *.
    set (p := AoS.Make a b c (float_to_double d)).
    set (soa1 := SoA.Make (<[i := a]> (SoA.x soa)) (<[i := b]> (SoA.y soa))
                          (<[i := c]> (SoA.z soa)) (<[i := d]> (SoA.mass soa))).
    assert (size_add (Z.of_nat i) 1 = Z.of_nat (length (aos ++ [p]))) as ->.
    { rewrite length_app. simpl. rewrite size_add_exact; [lia |].
      unfold is_size_t. lia. }
    assert (length (aos ++ [p]) = S i) as Hlen1 by (rewrite length_app; simpl; lia).
    destruct (IH rng4 (aos ++ [p]) soa1) as (soa' & rng' & aos' & Hsoa & Haos & Hl & Hsl & Hs).
    + rewrite Hlen1. unfold soa_length, soa1. simpl.
      rewrite !length_insert. split_and!; lia.
    + rewrite Hlen1. lia.
    + intros j q Hq. apply lookup_app_Some in Hq as [Hq | [Hge Hq]].
      * pose proof (lookup_lt_Some _ _ _ Hq) as Hj. fold i in Hj.
        destruct (Hsame j q Hq) as (Hqx & Hqy & Hqz & m & Hqm & Hmass).
        unfold same_particle, soa1. simpl.
        rewrite !list_lookup_insert_ne by lia. split_and!; try done. by exists m.
      * fold i in Hge, Hq. destruct (j - i)%nat as [| e] eqn:He; [| by destruct e].
        injection Hq as <-. assert (j = i) as -> by lia.
        unfold same_particle, soa1, p. simpl.
        rewrite !list_lookup_insert_eq by lia. split_and!; try done. by exists d.
    + exists soa', rng', aos'. rewrite Hlen1 in *.
      replace (i + S count)%nat with (S i + count)%nat by lia. done.
Qed.

(** Claim C9, as amended.  Initialised from the same seed, the two layouts
    are filled without error and leave the generator in the same state;
    both hold [n] particles, and at every index the [x], [y] and [z] values
    of the two layouts are identical single-precision values, while the
    [mass] of the interleaved record is the double-precision conversion of
    the single-precision [mass] entry of the separated layout.  The
    interleaved record has three single-precision members and one
    double-precision member; the four arrays of the separated layout are
    all single-precision. *)
Theorem layouts_hold_same_values (n : Z) :
  0 <= n <= SIZE_MAX ->
  (exists soa rng aos,
     init_soa float float_zero mt19937_64 seeded dist n = Some (soa, rng) /\
     init_aos float double float_to_double mt19937_64 seeded dist n = (aos, rng) /\
     Z.of_nat (length aos) = n /\
     soa_length soa (Z.to_nat n) /\
     same_particles float_to_double aos soa) /\
  three_single_one_double AoS.field_type /\
  (forall f, SoA.field_type f = single_precision).
Proof.
  intros Hn. split; [| split; [by vm_compute | done]].
  unfold init_soa, init_aos.
  destruct (fill_in_step (Z.to_nat n) (seeded SEED) [] (SoA.create float_zero n))
    as (soa & rng & aos & Hsoa & Haos & Hlen & Hsl & Hsame).
  - unfold soa_length, SoA.create. simpl. rewrite !length_replicate. done.
  - simpl. lia.
  - intros i p Hp. by rewrite lookup_nil in Hp.
  - exists soa, rng, aos. simpl in *. split_and!; try done. lia.
Qed.

End ParticleFacts.

(** Claim C9 fails as stated: the separated layout declares [mass] as a
    [std::vector<float>], so it has four single-precision members and no
    double-precision one, and its [mass] differs in type from the [mass] of
    the interleaved record. *)
Lemma soa_mass_is_single_precision :
  SoA.field_type field_mass = single_precision /\
  AoS.field_type field_mass = double_precision /\
  SoA.field_type field_mass <> AoS.field_type field_mass /\
  fields_of double_precision SoA.field_type = [] /\
  ~ three_single_one_double SoA.field_type.
Proof.
  split_and!; try reflexivity.
  - discriminate.
  - unfold three_single_one_double. vm_compute. intros [H _]. discriminate.
Qed.

Lemma layouts_hold_same_values_witness :
  0 <= 3 <= SIZE_MAX /\
  (exists soa rng aos,
     init_soa Z 0 Z id sample_dist 3 = Some (soa, rng) /\
     init_aos Z Z id Z id sample_dist 3 = (aos, rng) /\
     Z.of_nat (length aos) = 3 /\
     soa_length soa (Z.to_nat 3) /\
     same_particles id aos soa) /\
  three_single_one_double AoS.field_type /\
  (forall f, SoA.field_type f = single_precision).
Proof.
  assert (0 <= 3 <= SIZE_MAX) as H3 by (unfold SIZE_MAX; lia).
  split; [exact H3 |].
  exact (layouts_hold_same_values Z Z id 0 Z id sample_dist 3 H3).
Defined.


(** * Further properties of the code *)

(** ** Releasing blocks *)

Section DeleteFacts.
Context {T : Type}.
Implicit Types (h : heap T) (bs : list ptr) (b p : ptr).

Lemma delete_array_Some b h blk :
  h !! p_block b = Some blk -> blk_live blk = true -> p_off b = 0 ->
  delete_array b h = Some (tt, <[p_block b := Block false (blk_cells blk)]> h).
Proof.
  intros Hb Hl Ho. unfold delete_array. rewrite Hb, Hl, Ho. reflexivity.
Qed.

Lemma delete_array_inv b h u h' :
  delete_array b h = Some (u, h') ->
  exists blk, h !! p_block b = Some blk /\ blk_live blk = true /\ p_off b = 0 /\
              h' = <[p_block b := Block false (blk_cells blk)]> h.
Proof.
  unfold delete_array. destruct (h !! p_block b) as [blk|] eqn:Hb; [| done].
  destruct (blk_live blk) eqn:Hl; simpl; [| done].
  destruct (p_off b =? 0) eqn:Ho; [| done].
  intros [= <- <-]. exists blk. split_and!; try done. lia.
Qed.

(** The destructor loops of [PoolAllocator] and [ChunkedVector] are the
    same loop. *)
Lemma delete_chunks_eq (cs : list ptr) (h : heap T) :
  ChunkedVector.delete_chunks T cs h = PoolAllocator.delete_all T cs h.
Proof.
  revert h. induction cs as [| c cs IH]; intros h; [done |].
  simpl. unfold bind. destruct (delete_array c h) as [[u h1]|]; [apply IH | done].
Qed.

(** What a block holds is out of reach once the block is dead. *)
Lemma cell_at_dead h p : dead_block h (p_block p) -> cell_at h p = None.
Proof.
  intros (blk & Hb & Hl). unfold cell_at. by rewrite Hb, Hl.
Qed.

Lemma load_dead h p : dead_block h (p_block p) -> load p h = None.
Proof. intros Hd. unfold load. by rewrite (cell_at_dead _ _ Hd). Qed.


(** A block that is dead stays dead under the destructor loop. *)
Lemma delete_all_keeps_dead bs h u h' i :
  PoolAllocator.delete_all T bs h = Some (u, h') ->
  dead_block h i -> dead_block h' i.
Proof.
  revert h. induction bs as [| b bs IH]; intros h; simpl.
  - by intros [= _ <-].
  - unfold bind. destruct (delete_array b h) as [[u1 h1]|] eqn:Hdel; [| done].
    intros Hall (blk & Hi & Hdead). apply (IH h1 Hall).
    apply delete_array_inv in Hdel as (blk0 & Hb & Hl & _ & ->).
    exists blk. split; [| done].
    rewrite list_lookup_insert_ne; [done |]. intros <-. congruence.
Qed.

(** The destructor loop on the starts of consecutive live blocks releases
    each of them and touches nothing else. *)
Lemma delete_all_consecutive bs : forall (n0 : nat) h,
  (forall j b, bs !! j = Some b -> b = Ptr (n0 + j) 0) ->
  (forall j, (j < length bs)%nat ->
     exists blk, h !! (n0 + j)%nat = Some blk /\ blk_live blk = true) ->
  exists h',
    PoolAllocator.delete_all T bs h = Some (tt, h') /\
    length h' = length h /\
    (forall i, (i < n0 \/ n0 + length bs <= i)%nat -> h' !! i = h !! i) /\
    (forall i, (n0 <= i < n0 + length bs)%nat ->
       exists blk, h !! i = Some blk /\ h' !! i = Some (Block false (blk_cells blk))).
Proof.
  induction bs as [| b bs IH]; intros n0 h Hptr Hlive.
  - exists h. simpl. split_and!; try done. intros i Hi. lia.
  - pose proof (Hptr 0%nat b eq_refl) as Hb0. rewrite Nat.add_0_r in Hb0. subst b.
    destruct (Hlive 0%nat ltac:(simpl; lia)) as (blk & Hb & Hl).
    rewrite Nat.add_0_r in Hb.
    set (h1 := <[n0 := Block false (blk_cells blk)]> h).
    destruct (IH (S n0) h1) as (h' & Hdel & Hlen & Hout & Hin).
    { intros j c Hc. rewrite (Hptr (S j) c Hc). f_equal. lia. }
    { intros j Hj. destruct (Hlive (S j) ltac:(simpl; lia)) as (blk' & Hb' & Hl').
      exists blk'. split; [| done]. unfold h1.
      rewrite list_lookup_insert_ne by lia. rewrite <- Hb'. f_equal. lia. }
    exists h'. simpl. unfold bind.
    rewrite (delete_array_Some (Ptr n0 0) h blk Hb Hl eq_refl). simpl. fold h1.
    split_and!.
    + exact Hdel.
    + rewrite Hlen. unfold h1. apply length_insert.
    + intros i Hi. rewrite Hout by lia. unfold h1.
      apply list_lookup_insert_ne. lia.
    + intros i Hi. destruct (decide (i = n0)) as [-> | Hne].
      * exists blk. split; [done |]. rewrite Hout by lia. unfold h1.
        apply list_lookup_insert_eq. by apply lookup_lt_Some in Hb.
      * destruct (Hin i ltac:(lia)) as (blk' & Hb' & Hd').
        exists blk'. split; [| done]. unfold h1 in Hb'.
        by rewrite list_lookup_insert_ne in Hb' by lia.
Qed.

Lemma delete_all_owned (n0 : nat) bs h :
  owns_blocks_from n0 bs h ->
  exists h',
    PoolAllocator.delete_all T bs h = Some (tt, h') /\
    length h' = length h /\
    (forall i, (i < n0)%nat -> h' !! i = h !! i) /\
    (forall i, (n0 <= i < length h')%nat -> dead_block h' i).
Proof.
  intros (Hptr & Hlen & Hlive).
  destruct (delete_all_consecutive bs n0 h Hptr) as (h' & Hdel & Hlen' & Hout & Hin).
  { intros j Hj. destruct (lookup_lt_is_Some_2 h (n0 + j)) as [blk Hb]; [lia |].
    exists blk. split; [done |]. apply (Hlive (n0 + j)%nat blk); [lia | done]. }
  exists h'. split_and!; try done.
  - intros i Hi. apply Hout. lia.
  - intros i Hi. destruct (Hin i ltac:(lia)) as (blk & _ & Hd). by exists (Block false (blk_cells blk)).
Qed.

(** Stores and new blocks keep what an owner of blocks relies on. *)
Lemma store_inv h h' p (x : T) :
  store p x h = Some (tt, h') ->
  exists blk, h !! p_block p = Some blk /\ blk_live blk = true /\
    (Z.to_nat (p_off p) < length (blk_cells blk))%nat /\ 0 <= p_off p /\
    h' = <[p_block p := Block true (<[Z.to_nat (p_off p) := Some x]> (blk_cells blk))]> h.
Proof.
  unfold store. destruct (h !! p_block p) as [blk|] eqn:Hb; [| done].
  destruct (cell_at h p) as [c|] eqn:Hc; [| done].
  intros [= <-]. apply cell_at_Some in Hc as (blk' & Hb' & Hl & Ho & Hc).
  assert (blk' = blk) as -> by congruence.
  exists blk. split_and!; try done. by apply lookup_lt_Some in Hc.
Qed.

Lemma owns_blocks_store (n0 : nat) bs h h' p (x : T) :
  store p x h = Some (tt, h') ->
  owns_blocks_from n0 bs h -> owns_blocks_from n0 bs h'.
Proof.
  intros Hstore (Hptr & Hlen & Hlive).
  apply store_inv in Hstore as (blk & Hb & Hl & _ & _ & ->).
  split_and!; [done | by rewrite length_insert |].
  intros i blk' Hi Hb'.
  apply list_lookup_insert_Some in Hb' as [(_ & <- & _) | (Hne & Hb')]; [done |].
  by apply (Hlive i).
Qed.

Lemma owns_blocks_new (n0 : nat) bs h (n : Z) :
  owns_blocks_from n0 bs h ->
  owns_blocks_from n0 (bs ++ [Ptr (length h) 0]) (h ++ [fresh_buffer n]).
Proof.
  intros (Hptr & Hlen & Hlive). split_and!.
  - intros j b Hb. apply lookup_app_Some in Hb as [Hb | [Hge Hb]]; [by apply Hptr |].
    apply list_lookup_singleton_Some in Hb as [Hj <-]. f_equal. lia.
  - rewrite !length_app. simpl. lia.
  - intros i blk Hi Hb. apply lookup_app_Some in Hb as [Hb | [Hge Hb]].
    + by apply (Hlive i).
    + apply list_lookup_singleton_Some in Hb as [_ <-]. done.
Qed.

End DeleteFacts.

(** ** More on the pool allocator *)

Section PoolAllocatorMore.
Context {T : Type}.
Import PoolAllocator.
Implicit Types (a : PoolAllocator.t) (h : heap T) (n cap : Z).

(** An allocator that holds a buffer serves every request, by one of the two
    paths of [allocate]. *)
Lemma allocate_cases n a h :
  buffers a <> [] ->
  (exists back,
     last (buffers a) = Some back /\
     (size_add (offset a) n >? capacity a) = false /\
     allocate n a h =
       Some (ptr_add back (offset a),
             PoolAllocator.Make (buffers a) (capacity a) (size_add (offset a) n), h))
  \/
  ((size_add (offset a) n >? capacity a) = true /\
   allocate n a h =
     Some (Ptr (length h) 0,
           PoolAllocator.Make (buffers a ++ [Ptr (length h) 0]) (capacity a) (size_add 0 n),
           h ++ [fresh_buffer (capacity a)])).
Proof.
  intros Hne. destruct (size_add (offset a) n >? capacity a) eqn:Hcmp.
  - right. split; [done |]. by apply allocate_grows.
  - left. destruct (last (buffers a)) as [back|] eqn:Hback;
      [| by apply last_None in Hback].
    exists back. split_and!; try done. by apply allocate_fits.
Qed.

(** One call: what it keeps and what it adds. *)
Lemma allocate_extends n a h :
  buffers a <> [] ->
  exists p a' h' (more : list ptr),
    allocate n a h = Some (p, a', h') /\
    capacity a' = capacity a /\
    buffers a' = buffers a ++ more /\
    h' = h ++ replicate (length more) (fresh_buffer (capacity a)) /\
    more = (if size_add (offset a) n >? capacity a then [Ptr (length h) 0] else []) /\
    (exists back, last (buffers a') = Some back /\ p_block p = p_block back).
Proof.
  intros Hne. destruct (allocate_cases n a h Hne)
    as [(back & Hback & Hcmp & Ha) | (Hcmp & Ha)]; rewrite Ha, Hcmp.
  - exists (ptr_add back (offset a)), (PoolAllocator.Make (buffers a) (capacity a) (size_add (offset a) n)), h, [].
    cbn [buffers capacity offset]. rewrite !app_nil_r. split_and!; try done.
    by exists back.
  - do 3 eexists. exists [Ptr (length h) 0]. cbn [buffers capacity offset].
    split_and!; try done. exists (Ptr (length h) 0). split; [apply last_snoc | done].
Qed.

Lemma allocate_all_snoc_free ns : forall a h,
  buffers a <> [] ->
  exists ps a' h' (more : list ptr),
    allocate_all ns a h = Some (ps, a', h') /\
    length ps = length ns /\
    capacity a' = capacity a /\
    buffers a' = buffers a ++ more /\
    h' = h ++ replicate (length more) (fresh_buffer (capacity a)).
Proof.
  induction ns as [| n ns IH]; intros a h Hne.
  - exists [], a, h, []. simpl. rewrite !app_nil_r. done.
  - destruct (allocate_extends n a h Hne)
      as (p & a1 & h1 & more1 & Ha & Hcap1 & Hbufs1 & Hh1 & _ & _).
    destruct (IH a1 h1) as (ps & a2 & h2 & more2 & Hall & Hlen & Hcap2 & Hbufs2 & Hh2).
    { rewrite Hbufs1. by destruct (buffers a). }
    exists (p :: ps), a2, h2, (more1 ++ more2).
    split_and!.
    + simpl. unfold bind. rewrite Ha. simpl. rewrite Hall. reflexivity.
    + simpl. by rewrite Hlen.
    + congruence.
    + rewrite Hbufs2, Hbufs1. by rewrite app_assoc.
    + rewrite Hh2, Hh1, Hcap1. rewrite length_app, replicate_add. by rewrite app_assoc.
Qed.


(** A request larger than the capacity, when [offset + n] does not wrap:
    [allocate] adds a buffer of [capacity] elements and returns its start;
    the first [capacity] elements of the carve are cells of that buffer,
    the others are outside every block, so that a store to them is
    undefined; and [offset] is left above [capacity], so that the next
    call, whatever its size, adds a buffer again. *)
Theorem allocate_oversized n a h :
  0 <= capacity a -> 0 <= offset a ->
  capacity a < n -> offset a + n <= SIZE_MAX ->
  exists a' h',
    allocate n a h = Some (Ptr (length h) 0, a', h') /\
    buffers a' = buffers a ++ [Ptr (length h) 0] /\
    capacity a' = capacity a /\ offset a' = n /\
    h' = h ++ [fresh_buffer (capacity a)] /\
    (forall k, 0 <= k < capacity a -> cell_at h' (Ptr (length h) k) = Some None) /\
    (forall k x, capacity a <= k -> store (Ptr (length h) k) x h' = None) /\
    (forall m, 0 <= m -> n + m <= SIZE_MAX ->
       (size_add (offset a') m >? capacity a') = true).
Proof.
  intros Hcap Hoff Hn Hmax.
  assert ((size_add (offset a) n >? capacity a) = true) as Hcmp.
  { rewrite size_add_exact by (unfold is_size_t; lia). lia. }
  rewrite (allocate_grows _ _ _ Hcmp).
  rewrite size_add_zero_l by (unfold is_size_t; lia).
  do 2 eexists. split; [reflexivity |]. cbn [buffers capacity offset].
  split_and!; try done.
  - intros k Hk. by apply cell_at_new.
  - intros k x Hk. unfold store, cell_at. simpl.
    rewrite lookup_app_r by lia. rewrite Nat.sub_diag. simpl.
    destruct (0 <=? k); [| done].
    rewrite (proj1 (lookup_replicate_None _ _ _)); [done |].
    unfold fresh_buffer. lia.
  - intros m Hm Hnm. rewrite size_add_exact by (unfold is_size_t; lia). lia.
Qed.

(** *** Using the carves *)

Lemma allocate_all_heap_prefix ns a h ps a' h' :
  pool_wf a h -> Forall (fun n => 0 <= n <= capacity a) ns ->
  allocate_all ns a h = Some (ps, a', h') ->
  h `prefix_of` h'.
Proof.
  intros (_ & _ & _ & back & Hback & _) _ Hall.
  destruct (allocate_all_snoc_free ns a h) as (? & ? & h2 & more & Hall2 & _ & _ & _ & Hh).
  { intros Hnil. by rewrite Hnil in Hback. }
  rewrite Hall in Hall2. injection Hall2 as _ _ <-. by eexists.
Qed.

(** Every element of every carve of a run is a cell of the heap the run
    leaves. *)
Lemma allocate_all_carves_valid ns : forall a h ps a' h',
  pool_wf a h -> Forall (fun n => 0 <= n <= capacity a) ns ->
  allocate_all ns a h = Some (ps, a', h') ->
  Forall2 (fun p n => forall k, 0 <= k < n -> valid h' (ptr_add p k)) ps ns.
Proof.
  induction ns as [| n ns IH]; intros a h ps a' h' Hwf Hns Hall.
  - injection Hall as <- _ _. constructor.
  - apply Forall_cons in Hns as [Hn Hns].
    apply allocate_all_cons_inv in Hall as (p & a1 & h1 & ps' & Ha & Hall & ->).
    destruct (allocate_wf_inv _ _ _ _ _ _ Hwf Hn Ha) as (Hwf1 & Hcap & Hstep).
    rewrite <- Hcap in Hns.
    destruct (allocate_all_heap_prefix _ _ _ _ _ _ Hwf1 Hns Hall) as [more ->].
    constructor; [| by eapply IH].
    intros k Hk. apply valid_app.
    destruct Hwf as (_ & _ & Hoff & back0 & Hback0 & Hzero0 & Hlt0 & Hbuf).
    destruct Hstep as [(back & Hback & Hfit & -> & Hbufs & Hoff1 & ->)
                      | (Hgrow & -> & Hbufs & Hoff1 & ->)].
    + assert (back = back0) as -> by congruence.
      unfold ptr_add. simpl. rewrite <- Z.add_assoc.
      apply (Hbuf (offset a + k)). lia.
    + exists None. apply cell_at_new. cbn [p_off]. lia.
Qed.

(** The carves of a run can be used: every element of every carve can be
    written, reads back what was written, and a write to one carve changes
    no element of any other carve. *)
Theorem carves_hold_values cap ns (h0 : heap T) :
  0 <= cap <= PTRDIFF_MAX ->
  Forall (fun n => 0 <= n <= cap) ns ->
  exists a0 h1 ps a h,
    create cap h0 = Some (a0, h1) /\
    allocate_all ns a0 h1 = Some (ps, a, h) /\
    forall i p n k x,
      ps !! i = Some p -> ns !! i = Some n -> 0 <= k < n ->
      exists h',
        store (ptr_add p k) x h = Some (tt, h') /\
        load (ptr_add p k) h' = Some (x, h') /\
        forall j q m k',
          j <> i -> ps !! j = Some q -> ns !! j = Some m -> 0 <= k' < m ->
          cell_at h' (ptr_add q k') = cell_at h (ptr_add q k').
Proof.
  intros Hcap Hns. rewrite create_eq.
  pose proof (create_wf cap h0 Hcap) as Hwf.
  set (a0 := PoolAllocator.Make [Ptr (length h0) 0] cap 0) in *.
  set (h1 := h0 ++ [fresh_buffer cap]) in *.
  destruct (allocate_all_wf ns a0 h1 Hwf Hns) as (ps & a & h & Hall & _ & _).
  exists a0, h1, ps, a, h. split; [done |]. split; [done |].
  pose proof (allocate_all_carves_valid _ _ _ _ _ _ Hwf Hns Hall) as Hvalid.
  pose proof (allocate_all_disjoint _ _ _ _ _ _ Hwf Hns Hall) as Hdisj.
  intros i p n k x Hp Hn Hk.
  pose proof (Forall2_lookup_lr _ _ _ _ _ _ Hvalid Hp Hn k Hk) as Hv.
  destruct (store_valid h _ x Hv) as [h' Hstore].
  exists h'. split; [done |]. split.
  - apply load_cell. by apply (store_cell_same _ _ _ _ Hstore).
  - intros j q m k' Hji Hq Hm Hk'.
    apply (store_cell_other _ _ _ _ _ Hstore). intros Heq.
    unfold ptr_add in Heq. injection Heq as Hblk Hofs.
    destruct (Hdisj j i q p m n Hji Hq Hm Hp Hn Hblk); lia.
Qed.

(** *** The destructor *)



(** Running the destructor a second time on the same buffers, as happens
    to a member-wise copy of an allocator, is undefined. *)
Theorem destroy_twice_undefined a h u h' :
  buffers a <> [] ->
  destroy a h = Some (u, h') ->
  destroy a h' = None.
Proof.
  unfold destroy. destruct (buffers a) as [| b bs]; [done |]. intros _ Hdel.
  assert (dead_block h' (p_block b)) as (blk & Hb & Hl).
  { simpl in Hdel. unfold bind in Hdel.
    destruct (delete_array b h) as [[u1 h1]|] eqn:Hb; [| done].
    apply (delete_all_keeps_dead bs h1 u h' _ Hdel).
    apply delete_array_inv in Hb as (blk & Hb & _ & _ & ->).
    exists (Block false (blk_cells blk)). split; [| reflexivity].
    apply list_lookup_insert_eq. by apply lookup_lt_Some in Hb. }
  simpl. unfold bind, delete_array. by rewrite Hb, Hl.
Qed.

End PoolAllocatorMore.


(** ** More on the plain chunked vector *)

Section ChunkedVectorMore.
Context {T : Type}.
Variable CHUNK_SIZE : Z.
Hypothesis CHUNK_SIZE_pos : 0 < CHUNK_SIZE.
Import ChunkedVector.
Implicit Types (v : ChunkedVector.t) (h : heap T) (vs : list T).

(** Overwriting an element that the table holds: the cell exists, and the
    table then holds the list with that element replaced. *)
Lemma table_assign h cs vs (i : nat) x :
  table_ok CHUNK_SIZE h cs vs ->
  (i < length vs)%nat ->
  exists p h',
    chunk_slot CHUNK_SIZE cs (Z.of_nat i) = Some p /\
    store p x h = Some (tt, h') /\
    table_ok CHUNK_SIZE h' cs (<[i := x]> vs).
Proof.
  intros (Hvalid & Hapart & Hholds) Hi.
  destruct (lookup_lt_is_Some_2 vs i Hi) as [old Hold].
  destruct (Hholds i old Hold) as (p & Hslot & Hcell).
  destruct (store_valid h p x) as [h' Hstore]; [by eexists |].
  exists p, h'. split; [done |]. split; [done |].
  unfold table_ok. split_and!; [| done |].
  - intros j c k Hc Hk. apply (store_valid_iff _ _ _ _ _ Hstore). eauto.
  - intros j y Hy. apply list_lookup_insert_Some in Hy as [(-> & <- & _) | (Hne & Hy)].
    + exists p. split; [done |]. by apply (store_cell_same _ _ _ _ Hstore).
    + destruct (Hholds j y Hy) as (q & Hq & Hcellq). exists q. split; [done |].
      rewrite (store_cell_other _ _ _ _ _ Hstore); [done |].
      intros ->.
      pose proof (chunk_slot_inj CHUNK_SIZE CHUNK_SIZE_pos cs (Z.of_nat j) (Z.of_nat i) p
                    Hapart ltac:(lia) ltac:(lia) Hq Hslot).
      lia.
Qed.

(** Where a defined index of the chunk table lies. *)
Lemma chunk_slot_is_Some cs (i : Z) :
  0 <= i ->
  is_Some (chunk_slot CHUNK_SIZE cs i) <-> i < Z.of_nat (length cs) * CHUNK_SIZE.
Proof.
  intros Hi.
  pose proof (Z.div_pos i CHUNK_SIZE Hi CHUNK_SIZE_pos) as Hq.
  split.
  - intros [p Hp]. apply chunk_slot_Some in Hp as (c & Hc & _); [| done].
    apply lookup_lt_Some in Hc.
    assert (i / CHUNK_SIZE < Z.of_nat (length cs)) as Hlt by lia.
    pose proof (Z.mod_pos_bound i CHUNK_SIZE CHUNK_SIZE_pos).
    pose proof (Z.div_mod i CHUNK_SIZE ltac:(lia)). nia.
  - intros Hlt.
    assert (i / CHUNK_SIZE < Z.of_nat (length cs)) as Hq'
      by (apply Z.div_lt_upper_bound; lia).
    destruct (lookup_lt_is_Some_2 cs (Z.to_nat (i / CHUNK_SIZE)) ltac:(lia)) as [c Hc].
    exists (ptr_add c (i mod CHUNK_SIZE)). apply chunk_slot_Some; eauto.
Qed.

Lemma create_plain_inv (h0 : heap T) : plain_inv CHUNK_SIZE h0 create h0 [].
Proof.
  split_and!.
  - by apply create_represents.
  - split_and!.
    + intros j b Hb. simpl in Hb. by rewrite lookup_nil in Hb.
    + simpl. lia.
    + intros i blk Hi Hb. apply lookup_lt_Some in Hb. lia.
  - done.
  - intros i p _ Hp. apply chunk_slot_Some in Hp as (c & Hc & _); [| done].
    simpl in Hc. by rewrite lookup_nil in Hc.
Qed.

Lemma push_back_plain_inv (h0 : heap T) v h vs x :
  plain_inv CHUNK_SIZE h0 v h vs ->
  Z.of_nat (length vs) < SIZE_MAX ->
  exists v' h',
    push_back CHUNK_SIZE x v h = Some (v', h') /\
    plain_inv CHUNK_SIZE h0 v' h' (vs ++ [x]).
Proof.
  intros (Hrep & Hown & Hframe & Hun) Hmax.
  destruct (push_back_represents CHUNK_SIZE CHUNK_SIZE_pos h0 v h vs x Hrep Hmax)
    as (v' & h' & Hpush & Hrep').
  exists v', h'. split; [done |].
  pose proof Hrep as (Hsize & _ & _ & _).
  pose proof Hrep' as (_ & _ & _ & _ & Hapart' & _).
  rewrite push_back_unfold in Hpush. unfold size_rem in Hpush.
  destruct (CHUNK_SIZE =? 0) eqn:Hz; [lia |]. simpl in Hpush.
  rewrite Hsize in Hpush.
  set (n := Z.of_nat (length vs)) in *.
  (* the table and the heap before the store *)
  set (cs1 := if n mod CHUNK_SIZE =? 0 then chunks v ++ [Ptr (length h) 0] else chunks v) in *.
  set (h1 := if n mod CHUNK_SIZE =? 0 then h ++ [fresh_buffer CHUNK_SIZE] else h) in *.
  assert (exists p, chunk_slot CHUNK_SIZE cs1 n = Some p /\
                    store p x h1 = Some (tt, h') /\ chunks v' = cs1)
    as (p & Hslot & Hstore & Hcs).
  { unfold cs1, h1. destruct (n mod CHUNK_SIZE =? 0);
      (destruct (chunk_slot _ _ _) as [p|]; [| done]); simpl in Hpush;
      (destruct (store p x _) as [[[] h'']|] eqn:Hst; [| done]); simpl in Hpush;
      injection Hpush as <- <-; by exists p. }
  assert (owns_blocks_from (length h0) cs1 h1) as Hown1.
  { unfold cs1, h1. destruct (n mod CHUNK_SIZE =? 0); [by apply owns_blocks_new | done]. }
  assert (forall i, (i < length h0)%nat -> h1 !! i = h0 !! i) as Hframe1.
  { intros i Hi. rewrite <- (Hframe i Hi). unfold h1.
    destruct (n mod CHUNK_SIZE =? 0); [| done].
    apply lookup_app_l. destruct Hown as (_ & Hlen & _). lia. }
  assert (unwritten_from CHUNK_SIZE h1 cs1 (length vs)) as Hun1.
  { intros i q Hi Hq. unfold cs1, h1 in *.
    destruct (n mod CHUNK_SIZE =? 0); [| by apply (Hun i)].
    apply chunk_slot_Some in Hq as (c & Hc & ->); [| done].
    apply lookup_app_Some in Hc as [Hc | [_ Hc]].
    - apply cell_at_app, (Hun i); [done |]. apply chunk_slot_Some; eauto.
    - apply list_lookup_singleton_Some in Hc as [_ <-].
      apply cell_at_new. cbn [p_off].
      pose proof (Z.mod_pos_bound (Z.of_nat i) CHUNK_SIZE CHUNK_SIZE_pos). lia. }
  rewrite <- Hcs in *.
  split_and!; try done.
  - by apply (owns_blocks_store _ _ _ _ _ _ Hstore).
  - intros i Hi. rewrite <- (Hframe1 i Hi).
    apply store_inv in Hstore as (blk & Hb & _ & _ & _ & ->).
    apply list_lookup_insert_ne.
    apply chunk_slot_Some in Hslot as (c & Hc & ->); [| done].
    destruct Hown1 as (Hptr & _). rewrite (Hptr _ _ Hc). simpl. lia.
  - intros i q Hi Hq. rewrite length_app in Hi. simpl in Hi.
    rewrite (store_cell_other _ _ _ _ _ Hstore).
    + apply (Hun1 i); [lia | done].
    + intros ->.
      pose proof (chunk_slot_inj CHUNK_SIZE CHUNK_SIZE_pos _ (Z.of_nat i) n p
                    Hapart' ltac:(lia) ltac:(lia) Hq Hslot).
      lia.
Qed.

Lemma push_all_plain_inv (h0 : heap T) values : forall vs v h,
  plain_inv CHUNK_SIZE h0 v h vs ->
  Z.of_nat (length vs + length values) <= SIZE_MAX ->
  exists v' h',
    push_all CHUNK_SIZE values v h = Some (v', h') /\
    plain_inv CHUNK_SIZE h0 v' h' (vs ++ values).
Proof.
  induction values as [| x values IH]; intros vs v h Hinv Hmax.
  - exists v, h. split; [done |]. by rewrite app_nil_r.
  - simpl in Hmax.
    destruct (push_back_plain_inv h0 v h vs x Hinv ltac:(lia)) as (v1 & h1 & Hpush & Hinv1).
    destruct (IH (vs ++ [x]) v1 h1 Hinv1) as (v' & h' & Hall & Hinv').
    { rewrite length_app. simpl. lia. }
    exists v', h'. split.
    + simpl. unfold bind. rewrite Hpush. exact Hall.
    + by rewrite <- app_assoc in Hinv'.
Qed.

(** After any appends, [~ChunkedVector()] succeeds: it releases every
    block the vector has made, one per chunk, and leaves the blocks that
    were on the heap before the vector as they were.  Reading any element
    through the destroyed vector is undefined. *)
Theorem destroy_releases_every_chunk values (h0 : heap T) :
  Z.of_nat (length values) <= SIZE_MAX ->
  exists v h h',
    push_all CHUNK_SIZE values create h0 = Some (v, h) /\
    destroy v h = Some (tt, h') /\
    Z.of_nat (length h') =
      Z.of_nat (length h0) + ceil_div (Z.of_nat (length values)) CHUNK_SIZE /\
    (forall i, (i < length h0)%nat -> h' !! i = h0 !! i) /\
    (forall i, (length h0 <= i < length h')%nat -> dead_block h' i) /\
    (forall i, read CHUNK_SIZE i v h' = None).
Proof.
  intros Hmax.
  destruct (push_all_plain_inv h0 values [] create h0 (create_plain_inv h0) Hmax)
    as (v & h & Hall & (Hrep & Hown & Hframe & _)).
  destruct (delete_all_owned _ _ _ Hown) as (h' & Hdel & Hlen & Hout & Hin).
  exists v, h, h'. split; [done |]. split.
  { unfold destroy. by rewrite delete_chunks_eq. }
  destruct Hrep as (_ & Hcount & Hlenh & _). simpl in Hcount.
  split_and!.
  - rewrite Hlen, Hlenh. lia.
  - intros i Hi. rewrite (Hout i Hi). by apply Hframe.
  - done.
  - intros i. unfold read, subscript, bind, defined.
    destruct (chunk_slot CHUNK_SIZE (chunks v) i) as [p|] eqn:Hp; [| done].
    apply load_dead, Hin.
    apply chunk_slot_Some in Hp as (c & Hc & ->); [| done].
    destruct Hown as (Hptr & Hlen' & _).
    pose proof (lookup_lt_Some _ _ _ Hc) as Hlt.
    rewrite (Hptr _ _ Hc), Hlen. simpl. lia.
Qed.

(** [operator[]] gives a reference that can be written: for an index below
    the size, writing through it succeeds, and the vector then reads as the
    appended values with that one element replaced (the element written
    reads back, every other element is unchanged). *)
Theorem subscript_write_then_read values (h0 : heap T) :
  Z.of_nat (length values) <= SIZE_MAX ->
  exists v h,
    push_all CHUNK_SIZE values create h0 = Some (v, h) /\
    forall (i : nat) x, (i < length values)%nat ->
      exists p h',
        subscript CHUNK_SIZE (Z.of_nat i) v h = Some (p, h) /\
        store p x h = Some (tt, h') /\
        forall (j : nat) y, <[i := x]> values !! j = Some y ->
          read CHUNK_SIZE (Z.of_nat j) v h' = Some (y, h').
Proof.
  intros Hmax.
  destruct (push_all_represents CHUNK_SIZE CHUNK_SIZE_pos h0 values [] _ h0
              (create_represents CHUNK_SIZE CHUNK_SIZE_pos h0) Hmax)
    as (v & h & Hall & (Hsize & _ & _ & Hok)).
  exists v, h. split; [done |]. intros i x Hi. simpl in Hok.
  destruct (table_assign h (chunks v) values i x Hok Hi) as (p & h' & Hslot & Hstore & Hok').
  exists p, h'. split_and!.
  - unfold subscript, defined. by rewrite Hslot.
  - done.
  - intros j y Hy. destruct Hok' as (_ & _ & Hholds).
    destruct (Hholds j y Hy) as (q & Hq & Hcell).
    unfold read, subscript, bind, defined. rewrite Hq. by apply load_cell.
Qed.

(** [operator[]] does not check its index.  For an index from the size on,
    the reference it gives lies in the last chunk as long as the index is
    below the number of chunks times [CHUNK_SIZE], and is not defined from
    there on; in neither case is there a value to read. *)
Theorem subscript_out_of_range values (h0 : heap T) :
  Z.of_nat (length values) <= SIZE_MAX ->
  exists v h,
    push_all CHUNK_SIZE values create h0 = Some (v, h) /\
    forall i, get_size v <= i ->
      read CHUNK_SIZE i v h = None /\
      (is_Some (subscript CHUNK_SIZE i v h) <->
       i < ceil_div (get_size v) CHUNK_SIZE * CHUNK_SIZE).
Proof.
  intros Hmax.
  destruct (push_all_plain_inv h0 values [] create h0 (create_plain_inv h0) Hmax)
    as (v & h & Hall & (Hrep & _ & _ & Hun)).
  exists v, h. split; [done |]. intros i Hi.
  destruct Hrep as (Hsize & Hcount & _). simpl in *.
  unfold get_size in *. rewrite Hsize in *. split.
  - unfold read, subscript, bind, defined.
    destruct (chunk_slot CHUNK_SIZE (chunks v) i) as [p|] eqn:Hp; [| done].
    unfold load. rewrite (Hun (Z.to_nat i) p); [done | lia |].
    rewrite Z2Nat.id by lia. done.
  - rewrite <- Hcount. rewrite <- chunk_slot_is_Some by lia.
    unfold subscript, defined.
    destruct (chunk_slot CHUNK_SIZE (chunks v) i); split; intros [? ?]; by eauto.
Qed.

End ChunkedVectorMore.


(** ** More on the pool-backed chunked vector *)

Section PooledMore.
Context {T : Type}.
Variable CHUNK_SIZE : Z.
Hypothesis CHUNK_SIZE_pos : 0 < CHUNK_SIZE.
Hypothesis CHUNK_SIZE_fits : CHUNK_SIZE <= ChunkedVectorPoolAllocation.POOL_CAPACITY.
Import ChunkedVectorPoolAllocation.
Implicit Types (v : ChunkedVectorPoolAllocation.t) (h : heap T) (vs : list T).

Local Abbreviation per := (chunks_per_buffer CHUNK_SIZE).

Lemma per_pos : 1 <= per.
Proof.
  unfold chunks_per_buffer. apply Z.div_le_lower_bound; lia.
Qed.

(** One more chunk fits the newest buffer exactly when that buffer holds
    fewer than [chunks_per_buffer] chunks. *)
Lemma one_more_fits r :
  0 <= r -> (r * CHUNK_SIZE + CHUNK_SIZE <= POOL_CAPACITY <-> r + 1 <= per).
Proof.
  intros Hr. unfold chunks_per_buffer. split; intros H.
  - apply Z.div_le_lower_bound; lia.
  - pose proof (Z.mul_div_le POOL_CAPACITY CHUNK_SIZE CHUNK_SIZE_pos). nia.
Qed.

Lemma place_in_newest (n0 : nat) (nb r : Z) (j : nat) :
  1 <= nb -> 0 <= r < per ->
  Z.of_nat j = (nb - 1) * per + r ->
  pooled_place CHUNK_SIZE n0 j = Ptr (n0 + Z.to_nat (nb - 1)) (r * CHUNK_SIZE).
Proof.
  intros Hnb Hr Hj. unfold pooled_place. rewrite Hj.
  rewrite Z.div_add_l by lia. rewrite Z.div_small by lia.
  rewrite (Z.add_comm ((nb - 1) * per) r), Z.mod_add by lia.
  rewrite Z.mod_small by lia. by rewrite Z.add_0_r.
Qed.

Lemma place_in_new (n0 : nat) (nb : Z) (j : nat) :
  1 <= nb ->
  Z.of_nat j = nb * per ->
  pooled_place CHUNK_SIZE n0 j = Ptr (n0 + Z.to_nat nb) 0.
Proof.
  intros Hnb Hj. pose proof per_pos. unfold pooled_place. rewrite Hj.
  rewrite Z.div_mul by lia. rewrite Z.mod_mul by lia. done.
Qed.

Lemma pooled_create_inv (h0 : heap T) v h :
  create h0 = Some (v, h) -> pooled_inv CHUNK_SIZE h0 v h [].
Proof.
  intros Hc.
  pose proof (pooled_create_represents CHUNK_SIZE CHUNK_SIZE_pos h0 v h Hc) as Hrep.
  rewrite pooled_create_eq in Hc. injection Hc as <- <-.
  split; [done |]. cbn [allocator chunks PoolAllocator.buffers].
  split_and!.
  - apply (owns_blocks_new (length h0) [] h0). split_and!.
    + intros j b Hb. by rewrite lookup_nil in Hb.
    + simpl. lia.
    + intros i blk Hi Hb. apply lookup_lt_Some in Hb. lia.
  - intros i Hi. by apply lookup_app_l.
  - exists 0. pose proof per_pos. simpl. split_and!; try done; lia.
  - intros j c Hc. by rewrite lookup_nil in Hc.
  - intros i p _ Hp. apply chunk_slot_Some in Hp as (c & Hc & _); [| done].
    by rewrite lookup_nil in Hc.
  - intros back k Hback Hk. simpl in Hback. injection Hback as <-.
    simpl in Hk. apply cell_at_new. cbn [p_off]. lia.
Qed.

(** The newest buffer of an allocator that owns its blocks. *)
Lemma owned_back (n0 : nat) (a : PoolAllocator.t) h back :
  owns_blocks_from n0 (PoolAllocator.buffers a) h ->
  last (PoolAllocator.buffers a) = Some back ->
  back = Ptr (n0 + (length (PoolAllocator.buffers a) - 1)) 0 /\
  (1 <= length (PoolAllocator.buffers a))%nat.
Proof.
  intros (Hptr & _ & _) Hback. rewrite last_lookup in Hback.
  pose proof (lookup_lt_Some _ _ _ Hback) as Hlt.
  rewrite (Hptr _ _ Hback). split; [f_equal; lia | lia].
Qed.

(** The carve for one more chunk. *)
Lemma pooled_allocate_step (n0 : nat) (a : PoolAllocator.t) h cs c a1 h1 :
  pool_wf a h ->
  PoolAllocator.capacity a = POOL_CAPACITY ->
  owns_blocks_from n0 (PoolAllocator.buffers a) h ->
  pool_filled CHUNK_SIZE a cs ->
  frontier_unwritten a h ->
  PoolAllocator.allocate CHUNK_SIZE a h = Some (c, a1, h1) ->
  owns_blocks_from n0 (PoolAllocator.buffers a1) h1 /\
  (forall q o, cell_at h q = Some o -> cell_at h1 q = Some o) /\
  (forall i, (i < length h)%nat -> h1 !! i = h !! i) /\
  pool_filled CHUNK_SIZE a1 (cs ++ [c]) /\
  c = pooled_place CHUNK_SIZE n0 (length cs) /\
  (forall k, 0 <= k < CHUNK_SIZE -> cell_at h1 (ptr_add c k) = Some None) /\
  frontier_unwritten a1 h1.
Proof.
  intros Hwf Hcap Hown (r & Hoff & Hm & Hr & Hrpos) Hfront Ha.
  pose proof per_pos as Hper.
  destruct (allocate_wf_inv CHUNK_SIZE a h c a1 h1 Hwf ltac:(lia) Ha)
    as (Hwf1 & Hcap1 & Hstep).
  destruct Hwf as (_ & _ & _ & back0 & Hback0 & Hzero0 & _ & _).
  destruct (owned_back n0 a h back0 Hown Hback0) as (Hb0 & Hnb).
  set (nb := length (PoolAllocator.buffers a)) in *.
  destruct Hstep as [(back & Hback & Hfit & -> & Hbufs & Hoff1 & ->)
                    | (Hgrow & -> & Hbufs & Hoff1 & ->)].
  - assert (back = back0) as -> by congruence.
    rewrite Hoff, Hcap in Hfit. apply one_more_fits in Hfit; [| lia].
    split_and!.
    + by rewrite Hbufs.
    + done.
    + done.
    + exists (r + 1). rewrite Hbufs, Hoff1, Hoff, length_app. simpl.
      fold nb. split_and!; lia.
    + rewrite (place_in_newest n0 (Z.of_nat nb) r); [| lia | lia | lia].
      rewrite Hb0, Hoff. unfold ptr_add. simpl. f_equal; lia.
    + intros k Hk. rewrite ptr_add_add. apply (Hfront back0); [done |].
      rewrite Hoff, Hcap. apply one_more_fits in Hfit; [| lia]. lia.
    + intros back k Hback' Hk. rewrite Hbufs in Hback'.
      apply (Hfront back k Hback'). rewrite Hcap1 in Hk. lia.
  - assert (r = per) as ->.
    { rewrite Hoff, Hcap in Hgrow.
      destruct (decide (r + 1 <= per)) as [Hle | Hgt]; [| lia].
      apply one_more_fits in Hle; lia. }
    destruct Hown as (Hptr & Hlen & Hlive).
    split_and!.
    + rewrite Hbufs. by apply owns_blocks_new.
    + intros q o. apply cell_at_app.
    + intros i Hi. by apply lookup_app_l.
    + exists 1. rewrite Hbufs, Hoff1, !length_app. simpl. fold nb.
      split_and!; try lia.
    + rewrite (place_in_new n0 (Z.of_nat nb)); [| lia | lia].
      f_equal. fold nb in Hlen. lia.
    + intros k Hk. apply cell_at_new. cbn [p_off]. rewrite Hcap. lia.
    + intros back k Hback' Hk. rewrite Hbufs, last_snoc in Hback'.
      injection Hback' as <-. apply cell_at_new. cbn [p_off].
      rewrite Hcap1 in Hk. lia.
Qed.

Lemma push_back_pooled_inv (h0 : heap T) v h vs x :
  pooled_inv CHUNK_SIZE h0 v h vs ->
  Z.of_nat (length vs) < SIZE_MAX ->
  exists v' h',
    push_back CHUNK_SIZE x v h = Some (v', h') /\
    pooled_inv CHUNK_SIZE h0 v' h' (vs ++ [x]).
Proof.
  intros (Hrep & Hown & Hframe & Hfill & Hplace & Hun & Hfront) Hmax.
  destruct (pooled_push_back_represents CHUNK_SIZE CHUNK_SIZE_pos CHUNK_SIZE_fits
              v h vs x Hrep Hmax) as (v' & h' & Hpush & Hrep').
  exists v', h'. split; [done |].
  pose proof Hrep as (Hsize & Hcount & Hok & Hwf & Hcap & Hbehind).
  pose proof Hrep' as (_ & _ & (Hvalid' & Hapart' & _) & _ & _ & Hbehind').
  rewrite pooled_push_back_unfold in Hpush. unfold size_rem in Hpush.
  destruct (CHUNK_SIZE =? 0) eqn:Hz; [lia |]. simpl in Hpush.
  rewrite Hsize in Hpush.
  set (n := Z.of_nat (length vs)) in *.
  (* the table, the allocator and the heap before the store *)
  assert (exists cs1 a1 h1 p,
            chunks v' = cs1 /\ allocator v' = a1 /\
            chunk_slot CHUNK_SIZE cs1 n = Some p /\
            store p x h1 = Some (tt, h') /\
            owns_blocks_from (length h0) (PoolAllocator.buffers a1) h1 /\
            (forall i, (i < length h0)%nat -> h1 !! i = h0 !! i) /\
            pool_filled CHUNK_SIZE a1 cs1 /\
            (forall j c, cs1 !! j = Some c -> c = pooled_place CHUNK_SIZE (length h0) j) /\
            unwritten_from CHUNK_SIZE h1 cs1 (length vs) /\
            frontier_unwritten a1 h1)
    as (cs1 & a1 & h1 & p & Hcs & Hal & Hslot & Hstore & Hown1 & Hframe1 & Hfill1
        & Hplace1 & Hun1 & Hfront1).
  { destruct (n mod CHUNK_SIZE =? 0) eqn:Hfull.
    - destruct (PoolAllocator.allocate CHUNK_SIZE (allocator v) h)
        as [[[c a1] h1]|] eqn:Ha; [| done]. simpl in Hpush.
      destruct (chunk_slot CHUNK_SIZE (chunks v ++ [c]) n) as [p|] eqn:Hslot; [| done].
      simpl in Hpush.
      destruct (store p x h1) as [[[] h'']|] eqn:Hstore; [| done]. simpl in Hpush.
      injection Hpush as <- <-. cbn [chunks allocator].
      destruct (pooled_allocate_step (length h0) _ _ (chunks v) _ _ _
                  Hwf Hcap Hown Hfill Hfront Ha)
        as (Hown1 & Hext & Hsame & Hfill1 & Hc & Hnew & Hfront1).
      exists (chunks v ++ [c]), a1, h1, p. split_and!; try done.
      + intros i Hi. rewrite <- (Hframe i Hi). apply Hsame.
        destruct Hown as (_ & Hlen & _). lia.
      + intros j c' Hc'. apply lookup_app_Some in Hc' as [Hc' | [Hge Hc']]; [by apply Hplace |].
        apply list_lookup_singleton_Some in Hc' as [Hj <-].
        assert (j = length (chunks v)) as -> by lia. exact Hc.
      + intros i q Hi Hq.
        apply chunk_slot_Some in Hq as (c' & Hc' & ->); [| done].
        apply lookup_app_Some in Hc' as [Hc' | [_ Hc']].
        * apply Hext, (Hun i); [done |]. apply chunk_slot_Some; eauto.
        * apply list_lookup_singleton_Some in Hc' as [_ <-]. apply Hnew.
          apply Z.mod_pos_bound. lia.
    - simpl in Hpush.
      destruct (chunk_slot CHUNK_SIZE (chunks v) n) as [p|] eqn:Hslot; [| done].
      simpl in Hpush.
      destruct (store p x h) as [[[] h'']|] eqn:Hstore; [| done]. simpl in Hpush.
      injection Hpush as <- <-. cbn [chunks allocator].
      exists (chunks v), (allocator v), h, p. split_and!; done. }
  subst cs1 a1.
  (* the cell written belongs to a chunk, behind the frontier *)
  apply chunk_slot_Some in Hslot as Hslot'; [| done].
  destruct Hslot' as (c & Hc & Hp).
  pose proof (Z.mod_pos_bound n CHUNK_SIZE CHUNK_SIZE_pos) as Hrem.
  split; [done |]. split_and!.
  - by apply (owns_blocks_store _ _ _ _ _ _ Hstore).
  - intros i Hi. rewrite <- (Hframe1 i Hi).
    apply store_inv in Hstore as (blk & Hb & _ & _ & _ & ->).
    apply list_lookup_insert_ne. rewrite Hp, (Hplace1 _ _ Hc). simpl. lia.
  - done.
  - done.
  - intros i q Hi Hq. rewrite length_app in Hi. simpl in Hi.
    rewrite (store_cell_other _ _ _ _ _ Hstore).
    + apply (Hun1 i); [lia | done].
    + intros ->.
      pose proof (chunk_slot_inj CHUNK_SIZE CHUNK_SIZE_pos _ (Z.of_nat i) n p
                    Hapart' ltac:(lia) ltac:(lia) Hq Hslot).
      lia.
  - intros back k Hback Hk.
    rewrite (store_cell_other _ _ _ _ _ Hstore); [by apply (Hfront1 back) |].
    intros Heq. rewrite Hp in Heq.
    pose proof (proj1 (Forall_lookup _ _) Hbehind' _ c Hc back Hback) as Hb.
    unfold ptr_add in Heq. injection Heq as Hblk Hofs.
    specialize (Hb (eq_sym Hblk)).
    destruct Hrep' as (_ & _ & _ & (_ & _ & _ & back' & Hback' & Hzero & _) & _).
    assert (back' = back) as -> by congruence. lia.
Qed.

Lemma push_all_pooled_inv (h0 : heap T) values : forall vs v h,
  pooled_inv CHUNK_SIZE h0 v h vs ->
  Z.of_nat (length vs + length values) <= SIZE_MAX ->
  exists v' h',
    push_all CHUNK_SIZE values v h = Some (v', h') /\
    pooled_inv CHUNK_SIZE h0 v' h' (vs ++ values).
Proof.
  induction values as [| x values IH]; intros vs v h Hinv Hmax.
  - exists v, h. split; [done |]. by rewrite app_nil_r.
  - simpl in Hmax.
    destruct (push_back_pooled_inv h0 v h vs x Hinv ltac:(lia)) as (v1 & h1 & Hpush & Hinv1).
    destruct (IH (vs ++ [x]) v1 h1 Hinv1) as (v' & h' & Hall & Hinv').
    { rewrite length_app. simpl. lia. }
    exists v', h'. split.
    + simpl. unfold bind. rewrite Hpush. exact Hall.
    + by rewrite <- app_assoc in Hinv'.
Qed.

Lemma build_pooled_inv (h0 : heap T) values :
  Z.of_nat (length values) <= SIZE_MAX ->
  exists v h,
    build CHUNK_SIZE values h0 = Some (v, h) /\
    pooled_inv CHUNK_SIZE h0 v h values.
Proof.
  intros Hmax. unfold build, bind. rewrite pooled_create_eq.
  apply (push_all_pooled_inv h0 values []); [| done].
  apply pooled_create_inv. apply pooled_create_eq.
Qed.

(** Where the pool-backed vector puts its chunks: chunk [j] lies in the
    buffer number [j / chunks_per_buffer] of the pool, at offset
    [(j mod chunks_per_buffer) * CHUNK_SIZE], so that consecutive chunks
    are adjacent within a buffer; and the pool has made
    [max 1 (ceil(chunks / chunks_per_buffer))] blocks, which are all the
    blocks made since the vector was constructed. *)
Theorem pooled_chunk_placement values (h0 : heap T) :
  Z.of_nat (length values) <= SIZE_MAX ->
  exists v h,
    build CHUNK_SIZE values h0 = Some (v, h) /\
    (forall j c, chunks v !! j = Some c ->
       c = pooled_place CHUNK_SIZE (length h0) j) /\
    Z.of_nat (length (PoolAllocator.buffers (allocator v))) =
      Z.max 1 (ceil_div (Z.of_nat (length (chunks v))) per) /\
    Z.of_nat (length h) =
      Z.of_nat (length h0) + Z.max 1 (ceil_div (Z.of_nat (length (chunks v))) per) /\
    Z.of_nat (length (chunks v)) = ceil_div (Z.of_nat (length values)) CHUNK_SIZE.
Proof.
  intros Hmax.
  destruct (build_pooled_inv h0 values Hmax)
    as (v & h & Hbuild & (Hrep & Hown & _ & Hfill & Hplace & _)).
  exists v, h. split; [done |]. split; [done |].
  destruct Hfill as (r & _ & Hm & Hr & Hrpos).
  destruct Hown as (_ & Hlen & _).
  destruct Hrep as (_ & Hcount & _ & (_ & _ & _ & back & Hback & _) & _).
  pose proof per_pos as Hper.
  assert (1 <= Z.of_nat (length (PoolAllocator.buffers (allocator v)))) as Hnb.
  { destruct (PoolAllocator.buffers (allocator v)); simpl in *; [done | lia]. }
  assert (Z.of_nat (length (PoolAllocator.buffers (allocator v))) =
          Z.max 1 (ceil_div (Z.of_nat (length (chunks v))) per)) as Hbufs.
  { rewrite <- Hm. destruct (decide (r = 0)) as [-> | Hr0].
    - rewrite Z.add_0_r, ceil_div_exact by lia.
      destruct (chunks v) as [| c cs]; [| specialize (Hrpos ltac:(done)); lia].
      simpl in Hm. nia.
    - rewrite ceil_div_step by lia. lia. }
  split_and!; [done | | done].
  rewrite <- Hbufs, Hlen. lia.
Qed.

(** After any appends to a pool-backed vector, the destructor of its
    allocator succeeds: it releases every block made since the vector was
    constructed and leaves the blocks that were on the heap before as they
    were.  Reading any element through the vector is then undefined. *)
Theorem pooled_destroy_releases_pool values (h0 : heap T) :
  Z.of_nat (length values) <= SIZE_MAX ->
  exists v h h',
    build CHUNK_SIZE values h0 = Some (v, h) /\
    PoolAllocator.destroy (allocator v) h = Some (tt, h') /\
    length h' = length h /\
    (forall i, (i < length h0)%nat -> h' !! i = h0 !! i) /\
    (forall i, (length h0 <= i < length h')%nat -> dead_block h' i) /\
    (forall i, read CHUNK_SIZE i v h' = None).
Proof.
  intros Hmax.
  destruct (build_pooled_inv h0 values Hmax)
    as (v & h & Hbuild & (Hrep & Hown & Hframe & _)).
  destruct (delete_all_owned _ _ _ Hown) as (h' & Hdel & Hlen & Hout & Hin).
  exists v, h, h'. split_and!; try done.
  - intros i Hi. rewrite (Hout i Hi). by apply Hframe.
  - intros i. unfold read, subscript, bind, defined.
    destruct (chunk_slot CHUNK_SIZE (chunks v) i) as [p|] eqn:Hp; [| done].
    apply load_dead.
    (* the cell was valid before the destructor ran, in a block of the pool *)
    destruct Hrep as (_ & _ & (Hvalid & _) & _).
    apply chunk_slot_Some in Hp as (c & Hc & ->); [| done].
    pose proof (Z.mod_pos_bound i CHUNK_SIZE CHUNK_SIZE_pos) as Hrem.
    pose proof (valid_block_lt _ _ (Hvalid _ c _ Hc Hrem)) as Hlt.
    apply Hin. rewrite Hlen. split; [| done].
    destruct (decide (length h0 <= p_block (ptr_add c (i mod CHUNK_SIZE)))%nat) as [Hge | Hlt0];
      [done |].
    exfalso.
    (* a chunk never lies in a block older than the vector *)
    destruct (build_pooled_inv h0 values Hmax) as (v2 & h2 & Hbuild2 & Hinv2).
    rewrite Hbuild in Hbuild2. injection Hbuild2 as <- <-.
    destruct Hinv2 as (_ & _ & _ & _ & Hplace & _).
    rewrite (Hplace _ _ Hc) in Hlt0. simpl in Hlt0. lia.
Qed.

(** [operator[]] of the pool-backed vector gives a reference that can be
    written: for an index below the size, writing through it succeeds, and
    the vector then reads as the appended values with that one element
    replaced. *)
Theorem pooled_subscript_write_then_read values (h0 : heap T) :
  Z.of_nat (length values) <= SIZE_MAX ->
  exists v h,
    build CHUNK_SIZE values h0 = Some (v, h) /\
    forall (i : nat) x, (i < length values)%nat ->
      exists p h',
        subscript CHUNK_SIZE (Z.of_nat i) v h = Some (p, h) /\
        store p x h = Some (tt, h') /\
        forall (j : nat) y, <[i := x]> values !! j = Some y ->
          read CHUNK_SIZE (Z.of_nat j) v h' = Some (y, h').
Proof.
  intros Hmax.
  destruct (pooled_build_represents CHUNK_SIZE CHUNK_SIZE_pos CHUNK_SIZE_fits values h0 Hmax)
    as (v & h & Hbuild & (_ & _ & Hok & _)).
  exists v, h. split; [done |]. intros i x Hi.
  destruct (table_assign CHUNK_SIZE CHUNK_SIZE_pos h (chunks v) values i x Hok Hi)
    as (p & h' & Hslot & Hstore & Hok').
  exists p, h'. split_and!.
  - unfold subscript, defined. by rewrite Hslot.
  - done.
  - intros j y Hy. destruct Hok' as (_ & _ & Hholds).
    destruct (Hholds j y Hy) as (q & Hq & Hcell).
    unfold read, subscript, bind, defined. rewrite Hq. by apply load_cell.
Qed.

(** [operator[]] of the pool-backed vector does not check its index
    either: from the size on there is no value to read, and the reference
    is defined only below the number of chunks times [CHUNK_SIZE]. *)
Theorem pooled_subscript_out_of_range values (h0 : heap T) :
  Z.of_nat (length values) <= SIZE_MAX ->
  exists v h,
    build CHUNK_SIZE values h0 = Some (v, h) /\
    forall i, get_size v <= i ->
      read CHUNK_SIZE i v h = None /\
      (is_Some (subscript CHUNK_SIZE i v h) <->
       i < ceil_div (get_size v) CHUNK_SIZE * CHUNK_SIZE).
Proof.
  intros Hmax.
  destruct (build_pooled_inv h0 values Hmax)
    as (v & h & Hbuild & (Hrep & _ & _ & _ & _ & Hun & _)).
  exists v, h. split; [done |]. intros i Hi.
  destruct Hrep as (Hsize & Hcount & _).
  unfold get_size in *. rewrite Hsize in *. split.
  - unfold read, subscript, bind, defined.
    destruct (chunk_slot CHUNK_SIZE (chunks v) i) as [p|] eqn:Hp; [| done].
    unfold load. rewrite (Hun (Z.to_nat i) p); [done | lia |].
    rewrite Z2Nat.id by lia. done.
  - rewrite <- Hcount.
    rewrite <- (chunk_slot_is_Some CHUNK_SIZE CHUNK_SIZE_pos) by lia.
    unfold subscript, defined.
    destruct (chunk_slot CHUNK_SIZE (chunks v) i); split; intros [? ?]; by eauto.
Qed.

(** The blocks a pool-backed vector has made. *)
Lemma pooled_inv_blocks (h0 : heap T) v h vs :
  pooled_inv CHUNK_SIZE h0 v h vs ->
  Z.of_nat (length h) =
    Z.of_nat (length h0) +
    Z.max 1 (ceil_div (ceil_div (Z.of_nat (length vs)) CHUNK_SIZE) per).
Proof.
  intros (Hrep & Hown & _ & Hfill & _).
  destruct Hfill as (r & _ & Hm & Hr & Hrpos).
  destruct Hown as (_ & Hlen & _).
  destruct Hrep as (_ & Hcount & _ & (_ & _ & _ & back & Hback & _) & _).
  pose proof per_pos as Hper. rewrite <- Hcount.
  assert (1 <= Z.of_nat (length (PoolAllocator.buffers (allocator v)))) as Hnb.
  { destruct (PoolAllocator.buffers (allocator v)); simpl in *; [done | lia]. }
  rewrite <- Hm. destruct (decide (r = 0)) as [-> | Hr0].
  - rewrite Z.add_0_r, ceil_div_exact by lia.
    destruct (chunks v) as [| c cs]; [| specialize (Hrpos ltac:(done)); lia].
    simpl in Hm. nia.
  - rewrite ceil_div_step by lia. lia.
Qed.

End PooledMore.


(** ** More on the drivers *)

Section LoopsMore.
Context {S : Type}.
Variable cond : S -> bool.
Variable body : S -> outcome S.

(** A loop whose body finishes, keeps an invariant and decreases a measure
    finishes when the bound on its iterations exceeds the measure. *)
Lemma while_loop_terminates (I : S -> Prop) (measure : S -> nat) :
  (forall s, I s -> cond s = true ->
     exists s', body s = Finished s' /\ I s' /\ (measure s' < measure s)%nat) ->
  forall fuel s, I s -> (measure s < fuel)%nat ->
    exists s', while_loop fuel cond body s = Finished s' /\ I s' /\ cond s' = false.
Proof.
  intros Hstep. induction fuel as [| fuel IH]; intros s Hs Hm; [lia |].
  simpl. destruct (cond s) eqn:Hc.
  - destruct (Hstep s Hs Hc) as (s1 & Hb & Hs1 & Hlt). rewrite Hb. simpl.
    apply IH; [done | lia].
  - by exists s.
Qed.

End LoopsMore.

Lemma sum_below_succ k : sum_below (k + 1) = sum_below k + k.
Proof.
  unfold sum_below.
  replace ((k + 1) * (k + 1 - 1)) with (k * (k - 1) + k * 2) by lia.
  by rewrite Z.div_add by lia.
Qed.

Lemma sum_below_bounds k : 0 <= k -> 0 <= sum_below k <= k * k.
Proof.
  intros Hk. unfold sum_below. split.
  - apply Z.div_pos; [| lia]. destruct (decide (k = 0)) as [-> | ?]; nia.
  - apply Z.div_le_upper_bound; nia.
Qed.

Lemma seqZ_snoc k : 0 <= k -> seqZ 0 (k + 1) = seqZ 0 k ++ [k].
Proof.
  intros Hk. rewrite seqZ_app by lia. f_equal.
Qed.

Lemma to_int_small k : 0 <= k < INT_RANGE -> to_int k = k.
Proof.
  unfold INT_RANGE, to_int. intros Hk. rewrite Z.mod_small; lia.
Qed.

Lemma add_long_long_small sum x :
  0 <= sum <= INT_RANGE * INT_RANGE -> 0 <= x <= INT_RANGE ->
  Benchmarks.add_long_long sum x = Some (sum + x).
Proof.
  unfold INT_RANGE, Benchmarks.add_long_long, Benchmarks.LLONG_MIN, Benchmarks.LLONG_MAX.
  intros Hs Hx. simpl.
  destruct (- 2 ^ 63 <=? sum + x) eqn:H1; [| lia].
  destruct (sum + x <=? 2 ^ 63 - 1) eqn:H2; [done | lia].
Qed.

Section DriversMore.
Import Benchmarks.

(** The fill loop of [benchmarkStdVector] leaves the vector [0, ..., n-1]. *)
Lemma fill_std_finishes fuel n :
  0 <= n <= INT_RANGE -> (Z.to_nat n < fuel)%nat ->
  fill_std fuel n = Finished (n, seqZ 0 n).
Proof.
  intros Hn Hfuel. unfold fill_std.
  destruct (while_loop_terminates
              (fun s : Z * list Z => fst s <? n)
              (fun s => Finished (size_add (fst s) 1, snd s ++ [to_int (fst s)]))
              (fun s => 0 <= fst s <= n /\ snd s = seqZ 0 (fst s))
              (fun s => Z.to_nat (n - fst s))) with (fuel := fuel) (s := (0, @nil Z))
    as ([k v] & Hloop & [Hk Hv] & Hexit).
  - intros [k v] [Hk Hv] Hlt. cbn [fst snd] in *. apply Z.ltb_lt in Hlt.
    eexists. split; [reflexivity |]. cbn [fst snd].
    rewrite size_add_exact by (unfold is_size_t, SIZE_MAX, INT_RANGE in *; lia).
    split_and!; try lia.
    rewrite seqZ_snoc by lia. rewrite Hv, to_int_small; [done |]. lia.
  - cbn [fst snd]. split; [lia | done].
  - cbn [fst]. lia.
  - cbn [fst snd] in *. apply Z.ltb_ge in Hexit.
    assert (k = n) as -> by lia. by rewrite Hloop, Hv.
Qed.

(** The empty workload: [benchmarkStdVector(0, repeat)] finishes; each
    repetition fills nothing, scans nothing and reports the sum 0. *)
Theorem benchmarkStdVector_empty fuel repeat :
  0 <= repeat <= SIZE_MAX -> (Z.to_nat repeat < fuel)%nat ->
  benchmarkStdVector fuel 0 repeat = Finished (replicate (Z.to_nat repeat) 0).
Proof.
  intros Hrep Hfuel. unfold benchmarkStdVector.
  rewrite to_size_t_id by done.
  destruct (while_loop_terminates
              (fun s : Z * list Z => fst s <? repeat)
              (fun s =>
                 andThen (fill_std fuel 0) (fun kv =>
                 andThen (scan_std fuel (snd kv) (fst s)) (fun iks =>
                 Finished (size_add (fst (fst iks)) 1, snd s ++ [snd iks]))))
              (fun s => 0 <= fst s <= repeat /\ snd s = replicate (Z.to_nat (fst s)) 0)
              (fun s => Z.to_nat (repeat - fst s))) with (fuel := fuel) (s := (0, @nil Z))
    as ([i sums] & Hloop & [Hi Hsums] & Hexit).
  - intros [i sums] [Hi Hsums] Hlt. cbn [fst snd] in *. apply Z.ltb_lt in Hlt.
    destruct fuel as [| fuel']; [lia |].
    eexists. split; [reflexivity |]. cbn [fst snd].
    rewrite size_add_exact by (unfold is_size_t in *; lia).
    split_and!; try lia.
    rewrite Hsums. replace (Z.to_nat (i + 1)) with (S (Z.to_nat i)) by lia.
    by rewrite replicate_S_end.
  - cbn [fst snd]. split; [lia | done].
  - cbn [fst]. lia.
  - cbn [fst snd] in *. apply Z.ltb_ge in Hexit.
    assert (i = repeat) as -> by lia. rewrite Hloop. simpl. by rewrite Hsums.
Qed.

(** The scan loop of [benchmarkStdVector] on the vector [0, ..., n-1],
    entered with [i = j]: it reads [v[j]], ..., [v[n-1]] and then [v[n]],
    past the end. *)
Lemma scan_std_reads_past_end n : forall (d : nat) (j : Z) fuel,
  0 < n <= INT_RANGE -> 0 <= j <= n -> Z.of_nat d = n - j -> (d < fuel)%nat ->
  while_loop fuel
    (fun s : Z * Z * Z => snd (fst s) <? Z.of_nat (length (seqZ 0 n)))
    (fun s =>
       andThen (of_option (seqZ 0 n !! Z.to_nat (fst (fst s)))) (fun x =>
       andThen (of_option (add_long_long (snd s) x)) (fun sum' =>
       Finished (size_add (fst (fst s)) 1, snd (fst s), sum'))))
    (j, 0, sum_below j) = Undefined.
Proof.
  induction d as [| d IH]; intros j fuel Hn Hj Hd Hfuel;
    (destruct fuel as [| fuel]; [lia |]); cbn [while_loop fst snd];
    rewrite length_seqZ;
    (destruct (0 <? Z.of_nat (Z.to_nat n)) eqn:Hc; [| apply Z.ltb_ge in Hc; lia]).
  - assert (j = n) as -> by lia.
    rewrite lookup_seqZ_ge by lia. done.
  - rewrite lookup_seqZ_lt by lia. cbn [of_option andThen].
    pose proof (sum_below_bounds j ltac:(lia)) as Hb.
    rewrite add_long_long_small by (unfold INT_RANGE in *; nia).
    cbn [of_option andThen].
    rewrite size_add_exact by (unfold is_size_t, SIZE_MAX, INT_RANGE in *; lia).
    replace (sum_below j + (0 + Z.of_nat (Z.to_nat j))) with (sum_below (j + 1))
      by (rewrite sum_below_succ; lia).
    pose proof (IH (j + 1) fuel Hn ltac:(lia) ltac:(lia) ltac:(lia)) as Hrec.
    rewrite length_seqZ in Hrec. exact Hrec.
Qed.

(** A workload that is not empty: [benchmarkStdVector] fills the vector
    and then, in its first repetition, reads [v[n]] past the end of the
    [n] elements.  Given enough iterations to get there, the outcome is that
    undefined read. *)
Theorem benchmarkStdVector_reads_past_end fuel n repeat :
  0 < n <= INT_RANGE -> 0 < repeat <= SIZE_MAX -> (Z.to_nat n < fuel)%nat ->
  benchmarkStdVector fuel n repeat = Undefined.
Proof.
  intros Hn Hrep Hfuel. unfold benchmarkStdVector.
  rewrite to_size_t_id by (unfold is_size_t; lia).
  destruct fuel as [| fuel']; [lia |].
  cbn [while_loop fst snd].
  destruct (0 <? repeat) eqn:Hc; [| lia].
  rewrite fill_std_finishes by lia. cbn [andThen fst snd].
  unfold scan_std.
  pose proof (scan_std_reads_past_end n (Z.to_nat n) 0 (S fuel') Hn ltac:(lia) ltac:(lia) Hfuel)
    as Hscan.
  change (sum_below 0) with 0 in Hscan. rewrite Hscan. reflexivity.
Qed.

Lemma bench_chunk_size : 0 < CHUNK_SIZE <= ChunkedVectorPoolAllocation.POOL_CAPACITY.
Proof. unfold CHUNK_SIZE, ChunkedVectorPoolAllocation.POOL_CAPACITY. lia. Qed.

Lemma seqZ_lookup_below n k :
  0 <= k < n -> seqZ 0 n !! Z.to_nat k = Some k.
Proof. intros Hk. rewrite lookup_seqZ_lt by lia. f_equal. lia. Qed.

(** The fill loop of [benchmarkChunkedVector]. *)
Lemma fill_chunked_finishes fuel n (h : heap Z) :
  0 <= n <= INT_RANGE -> (Z.to_nat n < fuel)%nat ->
  exists v h',
    fill_chunked fuel n h = Finished (n, v, h') /\
    plain_inv CHUNK_SIZE h v h' (seqZ 0 n).
Proof.
  intros Hn Hfuel. unfold fill_chunked.
  destruct (while_loop_terminates
              (fun s : Z * ChunkedVector.t * heap Z => fst (fst s) <? n)
              (fun s =>
                 andThen (of_option (ChunkedVector.push_back CHUNK_SIZE (to_int (fst (fst s)))
                                       (snd (fst s)) (snd s)))
                   (fun vh => Finished (size_add (fst (fst s)) 1, fst vh, snd vh)))
              (fun s => 0 <= fst (fst s) <= n /\
                        plain_inv CHUNK_SIZE h (snd (fst s)) (snd s) (seqZ 0 (fst (fst s))))
              (fun s => Z.to_nat (n - fst (fst s))))
    with (fuel := fuel) (s := (0, ChunkedVector.create, h))
    as ([[k v] h'] & Hloop & [Hk Hinv] & Hexit).
  - intros [[k v] h1] [Hk Hinv] Hlt. cbn [fst snd] in *. apply Z.ltb_lt in Hlt.
    destruct (push_back_plain_inv CHUNK_SIZE (proj1 bench_chunk_size) h v h1 _ (to_int k) Hinv)
      as (v' & h' & Hpush & Hinv').
    { rewrite length_seqZ. unfold SIZE_MAX, INT_RANGE in *. lia. }
    rewrite Hpush. eexists. split; [reflexivity |]. cbn [fst snd].
    rewrite size_add_exact by (unfold is_size_t, SIZE_MAX, INT_RANGE in *; lia).
    split_and!; try lia.
    rewrite seqZ_snoc by lia. rewrite to_int_small in Hinv'; [done | lia].
  - cbn [fst snd]. split; [lia |]. apply create_plain_inv. apply bench_chunk_size.
  - cbn [fst]. lia.
  - cbn [fst snd] in *. apply Z.ltb_ge in Hexit.
    assert (k = n) as -> by lia. by exists v, h'.
Qed.

(** The scan loop of [benchmarkChunkedVector] on a vector that holds
    [0, ..., n-1]. *)
Lemma scan_chunked_finishes fuel n (h0 : heap Z) v h :
  0 <= n <= INT_RANGE -> (Z.to_nat n < fuel)%nat ->
  represents CHUNK_SIZE h0 v h (seqZ 0 n) ->
  scan_chunked fuel v h = Finished (n, sum_below n).
Proof.
  intros Hn Hfuel Hrep. unfold scan_chunked.
  assert (ChunkedVector.get_size v = n) as Hsize.
  { destruct Hrep as (Hsize & _). unfold ChunkedVector.get_size.
    rewrite Hsize, length_seqZ. lia. }
  rewrite Hsize.
  destruct (while_loop_terminates
              (fun s : Z * Z => fst s <? n)
              (fun s =>
                 andThen (of_option (ChunkedVector.read CHUNK_SIZE (fst s) v h)) (fun xh =>
                 andThen (of_option (add_long_long (snd s) (fst xh))) (fun sum' =>
                 Finished (size_add (fst s) 1, sum'))))
              (fun s => 0 <= fst s <= n /\ snd s = sum_below (fst s))
              (fun s => Z.to_nat (n - fst s)))
    with (fuel := fuel) (s := (0, 0))
    as ([k sum] & Hloop & [Hk Hsum] & Hexit).
  - intros [k sum] [Hk Hsum] Hlt. cbn [fst snd] in *. apply Z.ltb_lt in Hlt.
    pose proof (read_represents CHUNK_SIZE h0 v h _ (Z.to_nat k) k Hrep
                  (seqZ_lookup_below n k ltac:(lia))) as Hread.
    rewrite Z2Nat.id in Hread by lia. rewrite Hread. cbn [of_option andThen fst].
    pose proof (sum_below_bounds k ltac:(lia)) as Hb.
    rewrite add_long_long_small by (unfold INT_RANGE in *; nia).
    cbn [of_option andThen].
    eexists. split; [reflexivity |]. cbn [fst snd].
    rewrite size_add_exact by (unfold is_size_t, SIZE_MAX, INT_RANGE in *; lia).
    split_and!; try lia. rewrite sum_below_succ. lia.
  - cbn [fst snd]. split; [lia | done].
  - cbn [fst]. lia.
  - cbn [fst snd] in *. apply Z.ltb_ge in Hexit.
    assert (k = n) as -> by lia. by rewrite Hloop, Hsum.
Qed.

(** The two loops of a repetition of [benchmarkChunkedVector], on a vector
    constructed on any heap: the fill loop finishes with the vector holding
    [0, ..., n-1], the scan loop finishes with the sum [n (n - 1) / 2], and
    the destructor of that vector releases the [ceil(n / 64)] blocks it
    has made, the blocks that were on the heap before being as they
    were. *)
Theorem chunked_fill_then_scan fuel n (h0 : heap Z) :
  0 <= n <= INT_RANGE -> (Z.to_nat n < fuel)%nat ->
  exists v h h',
    fill_chunked fuel n h0 = Finished (n, v, h) /\
    scan_chunked fuel v h = Finished (n, sum_below n) /\
    ChunkedVector.destroy v h = Some (tt, h') /\
    Z.of_nat (length h') = Z.of_nat (length h0) + ceil_div n CHUNK_SIZE /\
    (forall i, (i < length h0)%nat -> h' !! i = h0 !! i) /\
    (forall i, (length h0 <= i < length h')%nat -> dead_block h' i).
Proof.
  intros Hn Hfuel.
  destruct (fill_chunked_finishes fuel n h0 Hn Hfuel) as (v & h & Hfill & Hinv).
  destruct Hinv as (Hrepr & Hown & Hframe & _).
  destruct (delete_all_owned _ _ _ Hown) as (h' & Hdel & Hlen' & Hout & Hin).
  exists v, h, h'. split; [exact Hfill |].
  split; [exact (scan_chunked_finishes fuel n h0 v h Hn Hfuel Hrepr) |].
  split; [unfold ChunkedVector.destroy; by rewrite delete_chunks_eq |].
  destruct Hrepr as (_ & Hcount & Hlen & _). rewrite length_seqZ in Hcount.
  rewrite Z2Nat.id in Hcount by lia.
  split_and!.
  - lia.
  - intros i Hi. rewrite Hout by lia. by apply Hframe.
  - intros i Hi. apply Hin. lia.
Qed.

(** [benchmarkChunkedVector(n, repeat)] has no defined result, whatever
    [repeat] is: its local [bestTime] is declared without an initialiser.
    When there is no repetition to run, [return bestTime] reads it; else
    the first repetition fills and scans the vector and then
    [std::min(bestTime, ...)] reads it. *)
Theorem benchmarkChunkedVector_reads_bestTime fuel n repeat (h0 : heap Z) :
  0 <= n <= INT_RANGE -> (Z.to_nat n < fuel)%nat ->
  benchmarkChunkedVector fuel n repeat h0 = Undefined.
Proof.
  intros Hn Hfuel. unfold benchmarkChunkedVector.
  destruct (fill_chunked_finishes fuel n h0 Hn Hfuel) as (v & h & Hfill & Hinv).
  destruct Hinv as (Hrepr & _).
  pose proof (scan_chunked_finishes fuel n h0 v h Hn Hfuel Hrepr) as Hscan.
  destruct fuel as [| fuel']; [lia |].
  cbn [while_loop fst snd].
  destruct (0 <? to_size_t repeat).
  - rewrite Hfill. cbn [andThen fst snd]. rewrite Hscan. reflexivity.
  - reflexivity.
Qed.

(** The fill loop of [benchmarkChunkedVectorPooled], from a vector just
    constructed on the heap [h]. *)
Lemma fill_pooled_finishes fuel n (h : heap Z) v0 h1 :
  0 <= n <= INT_RANGE -> (Z.to_nat n < fuel)%nat ->
  ChunkedVectorPoolAllocation.create h = Some (v0, h1) ->
  exists v h',
    fill_pooled fuel n v0 h1 = Finished (n, v, h') /\
    pooled_inv CHUNK_SIZE h v h' (seqZ 0 n).
Proof.
  intros Hn Hfuel Hcreate. unfold fill_pooled.
  destruct bench_chunk_size as [Hpos Hfits].
  destruct (while_loop_terminates
              (fun s : Z * ChunkedVectorPoolAllocation.t * heap Z => fst (fst s) <? n)
              (fun s =>
                 andThen (of_option (ChunkedVectorPoolAllocation.push_back CHUNK_SIZE
                                       (to_int (fst (fst s))) (snd (fst s)) (snd s)))
                   (fun vh => Finished (size_add (fst (fst s)) 1, fst vh, snd vh)))
              (fun s => 0 <= fst (fst s) <= n /\
                        pooled_inv CHUNK_SIZE h (snd (fst s)) (snd s) (seqZ 0 (fst (fst s))))
              (fun s => Z.to_nat (n - fst (fst s))))
    with (fuel := fuel) (s := (0, v0, h1))
    as ([[k v] h'] & Hloop & [Hk Hinv] & Hexit).
  - intros [[k v] h2] [Hk Hinv] Hlt. cbn [fst snd] in *. apply Z.ltb_lt in Hlt.
    destruct (push_back_pooled_inv CHUNK_SIZE Hpos Hfits h v h2 _ (to_int k) Hinv)
      as (v' & h' & Hpush & Hinv').
    { rewrite length_seqZ. unfold SIZE_MAX, INT_RANGE in *. lia. }
    rewrite Hpush. eexists. split; [reflexivity |]. cbn [fst snd].
    rewrite size_add_exact by (unfold is_size_t, SIZE_MAX, INT_RANGE in *; lia).
    split_and!; try lia.
    rewrite seqZ_snoc by lia. rewrite to_int_small in Hinv'; [done | lia].
  - cbn [fst snd]. split; [lia |]. by apply pooled_create_inv.
  - cbn [fst]. lia.
  - cbn [fst snd] in *. apply Z.ltb_ge in Hexit.
    assert (k = n) as -> by lia. by exists v, h'.
Qed.

Lemma scan_pooled_finishes fuel n v (h : heap Z) :
  0 <= n <= INT_RANGE -> (Z.to_nat n < fuel)%nat ->
  pooled_represents CHUNK_SIZE v h (seqZ 0 n) ->
  scan_pooled fuel v h = Finished (n, sum_below n).
Proof.
  intros Hn Hfuel Hrep. unfold scan_pooled.
  assert (ChunkedVectorPoolAllocation.get_size v = n) as Hsize.
  { destruct Hrep as (Hsize & _). unfold ChunkedVectorPoolAllocation.get_size.
    rewrite Hsize, length_seqZ. lia. }
  rewrite Hsize.
  destruct (while_loop_terminates
              (fun s : Z * Z => fst s <? n)
              (fun s =>
                 andThen (of_option (ChunkedVectorPoolAllocation.read CHUNK_SIZE (fst s) v h))
                   (fun xh =>
                 andThen (of_option (add_long_long (snd s) (fst xh))) (fun sum' =>
                 Finished (size_add (fst s) 1, sum'))))
              (fun s => 0 <= fst s <= n /\ snd s = sum_below (fst s))
              (fun s => Z.to_nat (n - fst s)))
    with (fuel := fuel) (s := (0, 0))
    as ([k sum] & Hloop & [Hk Hsum] & Hexit).
  - intros [k sum] [Hk Hsum] Hlt. cbn [fst snd] in *. apply Z.ltb_lt in Hlt.
    pose proof (pooled_read_represents CHUNK_SIZE v h _ (Z.to_nat k) k Hrep
                  (seqZ_lookup_below n k ltac:(lia))) as Hread.
    rewrite Z2Nat.id in Hread by lia. rewrite Hread. cbn [of_option andThen fst].
    pose proof (sum_below_bounds k ltac:(lia)) as Hb.
    rewrite add_long_long_small by (unfold INT_RANGE in *; nia).
    cbn [of_option andThen].
    eexists. split; [reflexivity |]. cbn [fst snd].
    rewrite size_add_exact by (unfold is_size_t, SIZE_MAX, INT_RANGE in *; lia).
    split_and!; try lia. rewrite sum_below_succ. lia.
  - cbn [fst snd]. split; [lia | done].
  - cbn [fst]. lia.
  - cbn [fst snd] in *. apply Z.ltb_ge in Hexit.
    assert (k = n) as -> by lia. by rewrite Hloop, Hsum.
Qed.

(** The statements of a repetition of [benchmarkChunkedVectorPooled], on
    any heap: the vector is constructed, the fill loop finishes with the
    vector holding [0, ..., n-1], and the scan loop finishes with the sum
    [n (n - 1) / 2], the same as on the plain vector.  The pool has made
    [max 1 (ceil(ceil(n / 64) / 32))] blocks, instead of [ceil(n / 64)];
    the destructor of the allocator releases them all, the blocks that
    were on the heap before being as they were. *)
Theorem pooled_fill_then_scan fuel n (h0 : heap Z) :
  0 <= n <= INT_RANGE -> (Z.to_nat n < fuel)%nat ->
  exists v0 h1 v h h',
    ChunkedVectorPoolAllocation.create h0 = Some (v0, h1) /\
    fill_pooled fuel n v0 h1 = Finished (n, v, h) /\
    scan_pooled fuel v h = Finished (n, sum_below n) /\
    PoolAllocator.destroy (ChunkedVectorPoolAllocation.allocator v) h = Some (tt, h') /\
    Z.of_nat (length h') =
      Z.of_nat (length h0) + Z.max 1 (ceil_div (ceil_div n CHUNK_SIZE) 32) /\
    (forall i, (i < length h0)%nat -> h' !! i = h0 !! i) /\
    (forall i, (length h0 <= i < length h')%nat -> dead_block h' i).
Proof.
  intros Hn Hfuel. destruct bench_chunk_size as [Hpos Hfits].
  destruct (fill_pooled_finishes fuel n h0 _ _ Hn Hfuel (pooled_create_eq h0))
    as (v & h & Hfill & Hinv).
  pose proof (pooled_inv_blocks CHUNK_SIZE Hpos Hfits h0 v h _ Hinv) as Hblocks.
  rewrite length_seqZ, Z2Nat.id in Hblocks by lia.
  change (chunks_per_buffer CHUNK_SIZE) with 32 in Hblocks.
  destruct Hinv as (Hrepr & Hown & Hframe & _).
  destruct (delete_all_owned _ _ _ Hown) as (h' & Hdel & Hlen' & Hout & Hin).
  eexists _, _, v, h, h'. split; [exact (pooled_create_eq h0) |].
  split; [exact Hfill |].
  split; [exact (scan_pooled_finishes fuel n v h Hn Hfuel Hrepr) |].
  split; [exact Hdel |].
  split_and!.
  - lia.
  - intros i Hi. rewrite Hout by lia. by apply Hframe.
  - intros i Hi. apply Hin. lia.
Qed.

End DriversMore.


(** ** The scans of the two particle layouts *)

Lemma vector_at_nat {A} (vec : list A) (i : nat) : vector_at vec (Z.of_nat i) = vec !! i.
Proof.
  unfold vector_at. destruct (0 <=? Z.of_nat i) eqn:H0.
  - by rewrite Nat2Z.id.
  - apply Z.leb_gt in H0. lia.
Qed.

Section ScanFacts.
Variables float double : Type.
Variable float_to_double : float -> double.
Variable float_zero : float.
Variable double_zero : double.
Variable double_add : double -> double -> double.
Variable float_positive : float -> bool.
Variable mt19937_64 : Type.
Variable seeded : Z -> mt19937_64.
Variable dist : mt19937_64 -> float * mt19937_64.

(** On layouts that hold the same particles, the two scan loops stay
    within bounds and accumulate the same sum. *)
Lemma scans_in_step (aos : list (AoS.ParticleAos float double))
    (soa : SoA.ParticlesSoA float) :
  same_particles float_to_double aos soa ->
  Z.of_nat (length aos) <= SIZE_MAX ->
  forall (count k : nat) (sum : double),
    (k + count = length aos)%nat ->
    scan_aos_from float double double_add float_positive count (Z.of_nat k) sum aos =
      Some (accumulate double_add float_positive sum (drop k aos)) /\
    scan_soa_from float double float_to_double double_add float_positive
      count (Z.of_nat k) sum soa =
      Some (accumulate double_add float_positive sum (drop k aos)).
Proof.
  intros Hsame Hmax. induction count as [| count IH]; intros k sum Hk.
  - rewrite drop_ge by lia. done.
  - destruct (lookup_lt_is_Some_2 aos k ltac:(lia)) as [p Hp].
    destruct (Hsame k p Hp) as (Hx & _ & _ & m & Hm & Hmass).
    rewrite (drop_S _ _ _ Hp).
    assert (size_add (Z.of_nat k) 1 = Z.of_nat (S k)) as Hnext.
    { rewrite size_add_exact; [lia |]. unfold is_size_t. lia. }
    destruct (IH (S k) (if float_positive (AoS.x p) then double_add sum (AoS.mass p) else sum)
                ltac:(lia)) as [Haos Hsoa].
    cbn [scan_aos_from scan_soa_from].
    rewrite !vector_at_nat, Hp, Hx, Hnext. simpl.
    split; [exact Haos |].
    destruct (float_positive (AoS.x p)); simpl.
    + rewrite Hm. simpl. rewrite <- Hmass. exact Hsoa.
    + exact Hsoa.
Qed.

(** Initialised from the same seed, the scan of [benchmarkAoS] and the scan
    of [benchmarkSoA] both run within bounds and give the same sum: the
    masses of the particles whose [x] is positive, added in index order. *)
Theorem scans_give_same_sum (n : Z) :
  0 <= n <= SIZE_MAX ->
  exists soa rng aos,
    init_soa float float_zero mt19937_64 seeded dist n = Some (soa, rng) /\
    init_aos float double float_to_double mt19937_64 seeded dist n = (aos, rng) /\
    scan_aos float double double_zero double_add float_positive n aos =
      Some (accumulate double_add float_positive double_zero aos) /\
    scan_soa float double float_to_double double_zero double_add float_positive soa =
      Some (accumulate double_add float_positive double_zero aos).
Proof.
  intros Hn. unfold init_soa, init_aos.
  destruct (fill_in_step float double float_to_double mt19937_64 dist
              (Z.to_nat n) (seeded SEED) [] (SoA.create float_zero n))
    as (soa & rng & aos & Hsoa & Haos & Hlen & Hsl & Hsame).
  - unfold soa_length, SoA.create. simpl. rewrite !length_replicate. done.
  - simpl. lia.
  - intros i p Hp. by rewrite lookup_nil in Hp.
  - simpl in *. exists soa, rng, aos. split; [done |]. split; [done |].
    destruct (scans_in_step aos soa Hsame ltac:(lia) (Z.to_nat n) 0%nat double_zero ltac:(lia))
      as [Ha Hs].
    split; [exact Ha |].
    unfold scan_soa. destruct Hsl as (Hx & _). rewrite Hx. exact Hs.
Qed.

End ScanFacts.

(** ** Concrete runs *)

(** *** The allocator with capacity 8 *)


Lemma allocate_oversized_witness :
  let a := PoolAllocator.Make [Ptr 0 0] 8 0 in
  let h : heap Z := [fresh_buffer 8] in
  0 <= PoolAllocator.capacity a /\
  0 <= PoolAllocator.offset a /\
  PoolAllocator.capacity a < 9 /\
  PoolAllocator.offset a + 9 <= SIZE_MAX /\
  exists a' h',
    PoolAllocator.allocate 9 a h = Some (Ptr 1 0, a', h') /\
    PoolAllocator.offset a' = 9 /\
    store (Ptr 1 8) 5 h' = None /\
    (size_add (PoolAllocator.offset a') 0 >? PoolAllocator.capacity a') = true.
Proof.
  intros a h.
  assert (0 <= PoolAllocator.capacity a) as H1 by (simpl; lia).
  assert (0 <= PoolAllocator.offset a) as H2 by (simpl; lia).
  assert (PoolAllocator.capacity a < 9) as H3 by (simpl; lia).
  assert (PoolAllocator.offset a + 9 <= SIZE_MAX) as H4 by (unfold SIZE_MAX; simpl; lia).
  split_and!; [exact H1 | exact H2 | exact H3 | exact H4 |].
  destruct (allocate_oversized 9 a h H1 H2 H3 H4)
    as (a' & h' & Hal & _ & _ & Hoff & _ & _ & Hstore & Hnext).
  exists a', h'. split; [exact Hal |]. split; [exact Hoff |].
  split.
  - apply (Hstore 8 5). simpl. lia.
  - apply (Hnext 0); unfold SIZE_MAX; lia.
Defined.

Lemma carves_hold_values_witness :
  0 <= 8 <= PTRDIFF_MAX /\
  Forall (fun n => 0 <= n <= 8) [3; 3; 3] /\
  exists a0 (h1 : heap Z) ps a h,
    PoolAllocator.create 8 [] = Some (a0, h1) /\
    PoolAllocator.allocate_all [3; 3; 3] a0 h1 = Some (ps, a, h) /\
    forall p, ps !! 1%nat = Some p ->
      exists h',
        store (ptr_add p 2) 5 h = Some (tt, h') /\
        load (ptr_add p 2) h' = Some (5, h').
Proof.
  assert (0 <= 8 <= PTRDIFF_MAX) as Hcap by (unfold PTRDIFF_MAX; lia).
  assert (Forall (fun n => 0 <= n <= 8) [3; 3; 3]) as Hns
    by (repeat constructor; lia).
  split; [exact Hcap |]. split; [exact Hns |].
  destruct (carves_hold_values 8 [3; 3; 3] ([] : heap Z) Hcap Hns)
    as (a0 & h1 & ps & a & h & Hc & Hall & Hcarves).
  exists a0, h1, ps, a, h. split; [exact Hc |]. split; [exact Hall |].
  intros p Hp.
  destruct (Hcarves 1%nat p 3 2 5 Hp eq_refl ltac:(lia)) as (h' & Hst & Hld & _).
  exists h'. split; [exact Hst | exact Hld].
Defined.

Lemma destroy_twice_undefined_witness :
  let a := PoolAllocator.Make [Ptr 0 0] 8 3 in
  let h : heap Z := [fresh_buffer 8] in
  let h' : heap Z := [Block false (replicate 8 None)] in
  PoolAllocator.buffers a <> [] /\
  PoolAllocator.destroy a h = Some (tt, h') /\
  PoolAllocator.destroy a h' = None.
Proof.
  intros a h h'.
  assert (PoolAllocator.buffers a <> []) as Hne by discriminate.
  assert (PoolAllocator.destroy a h = Some (tt, h')) as Hd by (vm_compute; reflexivity).
  split; [exact Hne |]. split; [exact Hd |].
  exact (destroy_twice_undefined a h tt h' Hne Hd).
Defined.

(** *** Ten appends with [CHUNK_SIZE = 4] *)

Lemma destroy_releases_every_chunk_witness :
  0 < 4 /\
  Z.of_nat (length zero_to_nine) <= SIZE_MAX /\
  exists v h h',
    ChunkedVector.push_all 4 zero_to_nine ChunkedVector.create [] = Some (v, h) /\
    ChunkedVector.destroy v h = Some (tt, h') /\
    Z.of_nat (length h') = 3 /\
    dead_block h' 2 /\
    ChunkedVector.read 4 7 v h' = None.
Proof.
  assert (0 < 4) as Hpos by lia.
  split; [exact Hpos |]. split; [exact zero_to_nine_size |].
  destruct (destroy_releases_every_chunk 4 Hpos zero_to_nine [] zero_to_nine_size)
    as (v & h & h' & Hall & Hd & Hlen & _ & Hdead & Hread).
  exists v, h, h'. split; [exact Hall |]. split; [exact Hd |].
  assert (Z.of_nat (length h') = 3) as Hlen' by exact Hlen.
  split; [exact Hlen' |]. split; [| exact (Hread 7)].
  apply Hdead. simpl. lia.
Defined.

Lemma subscript_write_then_read_witness :
  0 < 4 /\
  Z.of_nat (length zero_to_nine) <= SIZE_MAX /\
  exists v h p h',
    ChunkedVector.push_all 4 zero_to_nine ChunkedVector.create [] = Some (v, h) /\
    ChunkedVector.subscript 4 5 v h = Some (p, h) /\
    store p 50 h = Some (tt, h') /\
    ChunkedVector.read 4 5 v h' = Some (50, h') /\
    ChunkedVector.read 4 6 v h' = Some (6, h').
Proof.
  assert (0 < 4) as Hpos by lia.
  split; [exact Hpos |]. split; [exact zero_to_nine_size |].
  destruct (subscript_write_then_read 4 Hpos zero_to_nine [] zero_to_nine_size)
    as (v & h & Hall & Hwrite).
  destruct (Hwrite 5%nat 50 ltac:(simpl; lia)) as (p & h' & Hsub & Hst & Hread).
  exists v, h, p, h'. split; [exact Hall |]. split; [exact Hsub |].
  split; [exact Hst |].
  split; [exact (Hread 5%nat 50 eq_refl) | exact (Hread 6%nat 6 eq_refl)].
Defined.

Lemma subscript_out_of_range_witness :
  0 < 4 /\
  Z.of_nat (length zero_to_nine) <= SIZE_MAX /\
  exists v h,
    ChunkedVector.push_all 4 zero_to_nine ChunkedVector.create [] = Some (v, h) /\
    ChunkedVector.get_size v = 10 /\
    ChunkedVector.read 4 10 v h = None /\
    is_Some (ChunkedVector.subscript 4 11 v h) /\
    ~ is_Some (ChunkedVector.subscript 4 12 v h).
Proof.
  assert (0 < 4) as Hpos by lia.
  split; [exact Hpos |]. split; [exact zero_to_nine_size |].
  destruct (subscript_out_of_range 4 Hpos zero_to_nine [] zero_to_nine_size)
    as (v & h & Hall & Hout).
  assert (ChunkedVector.get_size v = 10) as Hsize.
  { assert (ChunkedVector.push_all 4 zero_to_nine ChunkedVector.create ([] : heap Z) =
            Some (ChunkedVector.Make [Ptr 0 0; Ptr 1 0; Ptr 2 0] 10,
                  [Block true [Some 0; Some 1; Some 2; Some 3];
                   Block true [Some 4; Some 5; Some 6; Some 7];
                   Block true [Some 8; Some 9; None; None]])) as Hrun
      by (vm_compute; reflexivity).
    rewrite Hrun in Hall. injection Hall as <- _. reflexivity. }
  exists v, h. split; [exact Hall |]. split; [exact Hsize |].
  rewrite Hsize in Hout.
  split; [exact (proj1 (Hout 10 ltac:(lia))) |].
  split.
  - apply (proj2 (Hout 11 ltac:(lia))). vm_compute. reflexivity.
  - intros Hs. apply (proj2 (Hout 12 ltac:(lia))) in Hs. vm_compute in Hs. discriminate.
Defined.

Lemma pooled_chunk_placement_witness :
  0 < 4 /\
  4 <= ChunkedVectorPoolAllocation.POOL_CAPACITY /\
  Z.of_nat (length zero_to_nine) <= SIZE_MAX /\
  exists v (h : heap Z),
    ChunkedVectorPoolAllocation.build 4 zero_to_nine [] = Some (v, h) /\
    (forall c, ChunkedVectorPoolAllocation.chunks v !! 2%nat = Some c -> c = Ptr 0 8) /\
    Z.of_nat (length h) = 1 /\
    Z.of_nat (length (ChunkedVectorPoolAllocation.chunks v)) = 3.
Proof.
  assert (0 < 4) as Hpos by lia.
  assert (4 <= ChunkedVectorPoolAllocation.POOL_CAPACITY) as Hfits
    by (unfold ChunkedVectorPoolAllocation.POOL_CAPACITY; lia).
  split; [exact Hpos |]. split; [exact Hfits |]. split; [exact zero_to_nine_size |].
  destruct (pooled_chunk_placement 4 Hpos Hfits zero_to_nine ([] : heap Z) zero_to_nine_size)
    as (v & h & Hbuild & Hplace & _ & Hlen & Hcount).
  assert (Z.of_nat (length (ChunkedVectorPoolAllocation.chunks v)) = 3) as Hcount'
    by exact Hcount.
  exists v, h. split; [exact Hbuild |]. split.
  - intros c Hc. exact (Hplace 2%nat c Hc).
  - split; [| exact Hcount']. rewrite Hlen, Hcount'. vm_compute. reflexivity.
Defined.

Lemma pooled_destroy_releases_pool_witness :
  0 < 4 /\
  4 <= ChunkedVectorPoolAllocation.POOL_CAPACITY /\
  Z.of_nat (length zero_to_nine) <= SIZE_MAX /\
  exists v h h',
    ChunkedVectorPoolAllocation.build 4 zero_to_nine [] = Some (v, h) /\
    PoolAllocator.destroy (ChunkedVectorPoolAllocation.allocator v) h = Some (tt, h') /\
    length h' = length h /\
    ChunkedVectorPoolAllocation.read 4 7 v h' = None.
Proof.
  assert (0 < 4) as Hpos by lia.
  assert (4 <= ChunkedVectorPoolAllocation.POOL_CAPACITY) as Hfits
    by (unfold ChunkedVectorPoolAllocation.POOL_CAPACITY; lia).
  split; [exact Hpos |]. split; [exact Hfits |]. split; [exact zero_to_nine_size |].
  destruct (pooled_destroy_releases_pool 4 Hpos Hfits zero_to_nine [] zero_to_nine_size)
    as (v & h & h' & Hbuild & Hd & Hlen & _ & _ & Hread).
  exists v, h, h'. split; [exact Hbuild |]. split; [exact Hd |].
  split; [exact Hlen | exact (Hread 7)].
Defined.

Lemma pooled_subscript_write_then_read_witness :
  0 < 4 /\
  4 <= ChunkedVectorPoolAllocation.POOL_CAPACITY /\
  Z.of_nat (length zero_to_nine) <= SIZE_MAX /\
  exists v h p h',
    ChunkedVectorPoolAllocation.build 4 zero_to_nine [] = Some (v, h) /\
    ChunkedVectorPoolAllocation.subscript 4 5 v h = Some (p, h) /\
    store p 50 h = Some (tt, h') /\
    ChunkedVectorPoolAllocation.read 4 5 v h' = Some (50, h') /\
    ChunkedVectorPoolAllocation.read 4 6 v h' = Some (6, h').
Proof.
  assert (0 < 4) as Hpos by lia.
  assert (4 <= ChunkedVectorPoolAllocation.POOL_CAPACITY) as Hfits
    by (unfold ChunkedVectorPoolAllocation.POOL_CAPACITY; lia).
  split; [exact Hpos |]. split; [exact Hfits |]. split; [exact zero_to_nine_size |].
  destruct (pooled_subscript_write_then_read 4 Hpos Hfits zero_to_nine [] zero_to_nine_size)
    as (v & h & Hbuild & Hwrite).
  destruct (Hwrite 5%nat 50 ltac:(simpl; lia)) as (p & h' & Hsub & Hst & Hread).
  exists v, h, p, h'. split; [exact Hbuild |]. split; [exact Hsub |].
  split; [exact Hst |].
  split; [exact (Hread 5%nat 50 eq_refl) | exact (Hread 6%nat 6 eq_refl)].
Defined.

Lemma pooled_subscript_out_of_range_witness :
  0 < 4 /\
  4 <= ChunkedVectorPoolAllocation.POOL_CAPACITY /\
  Z.of_nat (length zero_to_nine) <= SIZE_MAX /\
  exists v (h : heap Z),
    ChunkedVectorPoolAllocation.build 4 zero_to_nine [] = Some (v, h) /\
    forall i, ChunkedVectorPoolAllocation.get_size v <= i ->
      ChunkedVectorPoolAllocation.read 4 i v h = None.
Proof.
  assert (0 < 4) as Hpos by lia.
  assert (4 <= ChunkedVectorPoolAllocation.POOL_CAPACITY) as Hfits
    by (unfold ChunkedVectorPoolAllocation.POOL_CAPACITY; lia).
  split; [exact Hpos |]. split; [exact Hfits |]. split; [exact zero_to_nine_size |].
  destruct (pooled_subscript_out_of_range 4 Hpos Hfits zero_to_nine ([] : heap Z)
              zero_to_nine_size) as (v & h & Hbuild & Hout).
  exists v, h. split; [exact Hbuild |].
  intros i Hi. exact (proj1 (Hout i Hi)).
Defined.

(** *** The drivers on small workloads *)

Lemma benchmarkStdVector_empty_witness :
  0 <= 2 <= SIZE_MAX /\
  (Z.to_nat 2 < 3)%nat /\
  Benchmarks.benchmarkStdVector 3 0 2 = Finished [0; 0].
Proof.
  assert (0 <= 2 <= SIZE_MAX) as Hr by (unfold SIZE_MAX; lia).
  assert (Z.to_nat 2 < 3)%nat as Hf by lia.
  split; [exact Hr |]. split; [exact Hf |].
  exact (benchmarkStdVector_empty 3 2 Hr Hf).
Defined.

Lemma benchmarkStdVector_reads_past_end_witness :
  0 < 3 <= INT_RANGE /\
  0 < 5 <= SIZE_MAX /\
  (Z.to_nat 3 < 4)%nat /\
  Benchmarks.benchmarkStdVector 4 3 5 = Undefined.
Proof.
  assert (0 < 3 <= INT_RANGE) as Hn by (unfold INT_RANGE; lia).
  assert (0 < 5 <= SIZE_MAX) as Hr by (unfold SIZE_MAX; lia).
  assert (Z.to_nat 3 < 4)%nat as Hf by lia.
  split; [exact Hn |]. split; [exact Hr |]. split; [exact Hf |].
  exact (benchmarkStdVector_reads_past_end 4 3 5 Hn Hr Hf).
Defined.

Lemma chunked_fill_then_scan_witness :
  0 <= 10 <= INT_RANGE /\
  (Z.to_nat 10 < 11)%nat /\
  exists v h h',
    Benchmarks.fill_chunked 11 10 [] = Finished (10, v, h) /\
    Benchmarks.scan_chunked 11 v h = Finished (10, 45) /\
    ChunkedVector.destroy v h = Some (tt, h') /\
    Z.of_nat (length h') = 1.
Proof.
  assert (0 <= 10 <= INT_RANGE) as Hn by (unfold INT_RANGE; lia).
  assert (Z.to_nat 10 < 11)%nat as Hf by lia.
  split; [exact Hn |]. split; [exact Hf |].
  destruct (chunked_fill_then_scan 11 10 [] Hn Hf)
    as (v & h & h' & Hfill & Hscan & Hd & Hlen & _).
  exists v, h, h'. split; [exact Hfill |]. split; [exact Hscan |].
  split; [exact Hd | exact Hlen].
Defined.

Lemma benchmarkChunkedVector_reads_bestTime_witness :
  0 <= 10 <= INT_RANGE /\
  (Z.to_nat 10 < 11)%nat /\
  Benchmarks.benchmarkChunkedVector 11 10 5 [] = Undefined /\
  Benchmarks.benchmarkChunkedVector 11 10 0 [] = Undefined.
Proof.
  assert (0 <= 10 <= INT_RANGE) as Hn by (unfold INT_RANGE; lia).
  assert (Z.to_nat 10 < 11)%nat as Hf by lia.
  split; [exact Hn |]. split; [exact Hf |].
  split.
  - exact (benchmarkChunkedVector_reads_bestTime 11 10 5 [] Hn Hf).
  - exact (benchmarkChunkedVector_reads_bestTime 11 10 0 [] Hn Hf).
Defined.

Lemma pooled_fill_then_scan_witness :
  0 <= 10 <= INT_RANGE /\
  (Z.to_nat 10 < 11)%nat /\
  exists v0 h1 v h h',
    ChunkedVectorPoolAllocation.create [] = Some (v0, h1) /\
    Benchmarks.fill_pooled 11 10 v0 h1 = Finished (10, v, h) /\
    Benchmarks.scan_pooled 11 v h = Finished (10, 45) /\
    PoolAllocator.destroy (ChunkedVectorPoolAllocation.allocator v) h = Some (tt, h') /\
    Z.of_nat (length h') = 1.
Proof.
  assert (0 <= 10 <= INT_RANGE) as Hn by (unfold INT_RANGE; lia).
  assert (Z.to_nat 10 < 11)%nat as Hf by lia.
  split; [exact Hn |]. split; [exact Hf |].
  destruct (pooled_fill_then_scan 11 10 [] Hn Hf)
    as (v0 & h1 & v & h & h' & Hc & Hfill & Hscan & Hd & Hlen & _).
  exists v0, h1, v, h, h'. split; [exact Hc |]. split; [exact Hfill |].
  split; [exact Hscan |]. split; [exact Hd | exact Hlen].
Defined.

(** *** The two scans on three particles *)

Lemma scans_give_same_sum_witness :
  0 <= 3 <= SIZE_MAX /\
  exists soa rng aos,
    init_soa Z 0 Z id sample_dist 3 = Some (soa, rng) /\
    init_aos Z Z id Z id sample_dist 3 = (aos, rng) /\
    scan_aos Z Z 0 Z.add (Z.ltb 0) 3 aos = Some (accumulate Z.add (Z.ltb 0) 0 aos) /\
    scan_soa Z Z id 0 Z.add (Z.ltb 0) soa = Some (accumulate Z.add (Z.ltb 0) 0 aos).
Proof.
  assert (0 <= 3 <= SIZE_MAX) as H3 by (unfold SIZE_MAX; lia).
  split; [exact H3 |].
  exact (scans_give_same_sum Z Z id 0 0 Z.add (Z.ltb 0) Z id sample_dist 3 H3).
Defined.
